(** * Crossword CSP solver (Week 3, generate.py): shallow embedding

    The class [CrosswordCreator] is embedded as a state-and-exception monad
    over the object's only mutable attribute, [self.domains].  Python sets are
    represented by duplicate-free lists in iteration order, Python dicts by
    association lists in insertion order. *)

From Stdlib Require Import List String Ascii Arith Bool Lia PeanoNat Permutation
  Sorted.
Import ListNotations.
Open Scope list_scope.

Set Implicit Arguments.

(** ** Data model *)

Inductive Direction := ACROSS | DOWN.

(** Modelled from the spec: the class Variable of crossword.py, named [Var]
    here (starting row and column, a direction and a length; equality by
    these four fields). *)
Record Var := mkVar {
  v_i : nat;
  v_j : nat;
  v_direction : Direction;
  v_length : nat
}.

Definition Direction_eqb (a b : Direction) : bool :=
  match a, b with
  | ACROSS, ACROSS | DOWN, DOWN => true
  | _, _ => false
  end.

Definition Var_eqb (x y : Var) : bool :=
  (v_i x =? v_i y) && (v_j x =? v_j y)
  && Direction_eqb (v_direction x) (v_direction y)
  && (v_length x =? v_length y).

Definition word := string.
Definition arc := (Var * Var)%type.

(** Modelled from the spec: the class Crossword of crossword.py, the Puzzle
    Model.  [variables] and [words] are sets, [neighbors] returns a set; each
    is given with its iteration order.  [overlaps] is the overlap map. *)
Record Crossword := mkCrossword {
  variables : list Var;
  neighbors : Var -> list Var;
  overlaps : Var -> Var -> option (nat * nat);
  words : list word
}.

(** ** Dictionaries keyed by variables (insertion ordered) *)

Section Dict.
Variable V : Type.

Definition dict := list (Var * V).

Fixpoint lookup (k : Var) (d : dict) : option V :=
  match d with
  | [] => None
  | (k', v) :: d' => if Var_eqb k k' then Some v else lookup k d'
  end.

Definition mem (k : Var) (d : dict) : bool :=
  match lookup k d with Some _ => true | None => false end.

(** [d[k] = v]: replaces in place, or appends a new key. *)
Fixpoint dict_set (k : Var) (v : V) (d : dict) : dict :=
  match d with
  | [] => [(k, v)]
  | (k', v') :: d' =>
      if Var_eqb k k' then (k', v) :: d' else (k', v') :: dict_set k v d'
  end.

Definition keys (d : dict) : list Var := map fst d.
Definition values (d : dict) : list V := map snd d.
End Dict.

Definition Domains := dict (list word).
Definition Assignment := dict word.

(** ** Outcomes, state and the monad *)

Inductive exn := IndexError | KeyError | TypeError.

Inductive result (A : Type) :=
| Ok (a : A)
| Raise (e : exn)
| OutOfFuel.
Arguments Ok {A} a.
Arguments Raise {A} e.
Arguments OutOfFuel {A}.

(** Ghost record of the method calls made by [solve]. *)
Inductive event :=
| Call_enforce_node_consistency
| Call_ac3 (arcs : option (list arc))
| Call_backtrack (assignment : Assignment).

Record State := mkState {
  domains : Domains;
  trace : list event
}.

Definition M (A : Type) := State -> result (A * State).

Definition ret {A} (a : A) : M A := fun s => Ok (a, s).

Definition bind {A B} (m : M A) (f : A -> M B) : M B :=
  fun s =>
    match m s with
    | Ok (a, s') => f a s'
    | Raise e => Raise e
    | OutOfFuel => OutOfFuel
    end.

Definition raise {A} (e : exn) : M A := fun _ => Raise e.
Definition out_of_fuel {A} : M A := fun _ => OutOfFuel.

Definition lift {A} (r : result A) : M A :=
  fun s =>
    match r with
    | Ok a => Ok (a, s)
    | Raise e => Raise e
    | OutOfFuel => OutOfFuel
    end.

Definition rbind {A B} (r : result A) (f : A -> result B) : result B :=
  match r with
  | Ok a => f a
  | Raise e => Raise e
  | OutOfFuel => OutOfFuel
  end.

Declare Scope monad_scope.
Delimit Scope monad_scope with monad.
Notation "x <- m ;; f" := (bind m (fun x => f))
  (at level 61, m at next level, right associativity) : monad_scope.
Notation "m ;;; f" := (bind m (fun _ => f))
  (at level 61, right associativity) : monad_scope.
Notation "x <-r m ;; f" := (rbind m (fun x => f))
  (at level 61, m at next level, right associativity) : monad_scope.
Open Scope monad_scope.

(** [self.domains[x]] read: KeyError when [x] is not a key. *)
Definition get_domain (x : Var) : M (list word) :=
  fun s =>
    match lookup x (domains s) with
    | Some d => Ok (d, s)
    | None => Raise KeyError
    end.

(** Writes the set stored under the existing key [x]. *)
Definition set_domain (x : Var) (d : list word) : M unit :=
  fun s => Ok (tt, mkState (dict_set x d (domains s)) (trace s)).

Definition get_keys : M (list Var) :=
  fun s => Ok (keys (domains s), s).

Definition log (e : event) : M unit :=
  fun s => Ok (tt, mkState (domains s) (trace s ++ [e])).

(** [w[i]]: IndexError when [i] is past the end. *)
Definition index (w : word) (i : nat) : result ascii :=
  match String.get i w with
  | Some c => Ok c
  | None => Raise IndexError
  end.

(** [l[i]] on a list. *)
Definition list_index {A} (l : list A) (i : nat) : result A :=
  match nth_error l i with
  | Some a => Ok a
  | None => Raise IndexError
  end.

Fixpoint for_each {A} (l : list A) (body : A -> M unit) : M unit :=
  match l with
  | [] => ret tt
  | a :: l' => body a ;;; for_each l' body
  end.

Fixpoint mapM {A B} (f : A -> M B) (l : list A) : M (list B) :=
  match l with
  | [] => ret []
  | a :: l' => b <- f a ;; bs <- mapM f l' ;; ret (b :: bs)
  end.

Fixpoint filterM {A} (f : A -> M bool) (l : list A) : M (list A) :=
  match l with
  | [] => ret []
  | a :: l' =>
      b <- f a ;; r <- filterM f l' ;; ret (if b then a :: r else r)
  end.

(** [sorted(l, key=...)] is a stable sort; on keys already computed it is the
    stable insertion sort below. *)
Section Sorted.
Variable A : Type.

Fixpoint insert_by_key (x : A * nat) (l : list (A * nat)) : list (A * nat) :=
  match l with
  | [] => [x]
  | y :: l' =>
      if snd x <=? snd y then x :: y :: l' else y :: insert_by_key x l'
  end.

Fixpoint sort_by_key (l : list (A * nat)) : list (A * nat) :=
  match l with
  | [] => []
  | x :: l' => insert_by_key x (sort_by_key l')
  end.

Definition sorted (l : list A) (ks : list nat) : list A :=
  map fst (sort_by_key (combine l ks)).
End Sorted.

(** ** The solver *)

Section Creator.
Variable cw : Crossword.

(** [__init__]: every variable starts with a copy of the word pool. *)
Definition init : State :=
  mkState (map (fun var => (var, words cw)) (variables cw)) [].

(** [enforce_node_consistency] *)
Definition node_consistent_step (variable : Var) : M unit :=
  d <- get_domain variable ;;
  set_domain variable
    (filter (fun x => String.length x =? v_length variable) d).

Definition enforce_node_consistency : M unit :=
  log Call_enforce_node_consistency ;;;
  ks <- get_keys ;;
  for_each ks node_consistent_step.

(** [any(word_x[i] == word_y[j] for word_y in dy)] *)
Fixpoint any_match (word_x : word) (i j : nat) (dy : list word)
  : result bool :=
  match dy with
  | [] => Ok false
  | word_y :: dy' =>
      cx <-r index word_x i ;;
      cy <-r index word_y j ;;
      if Ascii.eqb cx cy then Ok true else any_match word_x i j dy'
  end.

Definition remove_word (w : word) (d : list word) : list word :=
  filter (fun w' => negb (String.eqb w' w)) d.

(** The loop of [revise] over the snapshot [set(self.domains[x])]. *)
Fixpoint revise_loop (x y : Var) (i j : nat) (snapshot : list word)
    (revised : bool) : M bool :=
  match snapshot with
  | [] => ret revised
  | word_x :: rest =>
      dy <- get_domain y ;;
      found <- lift (any_match word_x i j dy) ;;
      if found then revise_loop x y i j rest revised
      else
        dx <- get_domain x ;;
        set_domain x (remove_word word_x dx) ;;;
        revise_loop x y i j rest true
  end.

Definition revise (x y : Var) : M bool :=
  match overlaps cw x y with
  | None => ret false
  | Some (i, j) =>
      dx <- get_domain x ;;
      revise_loop x y i j dx false
  end.

(** [ac3] *)
Definition is_some {A} (o : option A) : bool :=
  match o with Some _ => true | None => false end.

Definition all_arcs (ks : list Var) : list arc :=
  flat_map
    (fun var =>
       map (fun neighbor => (var, neighbor))
           (filter (fun neighbor => is_some (overlaps cw var neighbor))
                   (neighbors cw var)))
    ks.

Definition others (X Y : Var) : list Var :=
  filter (fun Z => negb (Var_eqb Z Y)) (neighbors cw X).

Fixpoint ac3_loop (fuel : nat) (queue : list arc) : M bool :=
  match queue with
  | [] => ret true
  | (X, Y) :: queue' =>
      match fuel with
      | 0 => out_of_fuel
      | S fuel' =>
          revised <- revise X Y ;;
          if revised then
            dX <- get_domain X ;;
            if List.length dX =? 0 then ret false
            else ac3_loop fuel' (queue' ++ map (fun Z => (Z, X)) (others X Y))
          else ac3_loop fuel' queue'
      end
  end.

Definition ac3 (fuel : nat) (arcs : option (list arc)) : M bool :=
  log (Call_ac3 arcs) ;;;
  queue <- match arcs with
           | Some l => ret l
           | None => ks <- get_keys ;; ret (all_arcs ks)
           end ;;
  ac3_loop fuel queue.

(** [assignment_complete] *)
Definition assignment_complete (assignment : Assignment) : bool :=
  forallb (fun variable => mem variable assignment) (variables cw).

(** [consistent]: the innermost loop, over the neighbors of [var]. *)
Fixpoint no_conflict (assignment : Assignment) (var : Var)
    (ns : list Var) : result bool :=
  match ns with
  | [] => Ok true
  | neighbor :: ns' =>
      match lookup neighbor assignment with
      | None => no_conflict assignment var ns'
      | Some word_n =>
          match overlaps cw var neighbor with
          | None => no_conflict assignment var ns'
          | Some (i, j) =>
              word_v <-r match lookup var assignment with
                         | Some w => Ok w
                         | None => Raise KeyError
                         end ;;
              cv <-r index word_v i ;;
              cn <-r index word_n j ;;
              if Ascii.eqb cv cn then no_conflict assignment var ns'
              else Ok false
          end
      end
  end.

Fixpoint no_conflicts (assignment : Assignment) (vars : list Var)
  : result bool :=
  match vars with
  | [] => Ok true
  | var :: vars' =>
      ok <-r no_conflict assignment var (neighbors cw var) ;;
      if ok then no_conflicts assignment vars' else Ok false
  end.

Definition consistent (assignment : Assignment) : result bool :=
  if negb (List.length (nodup string_dec (values assignment))
           =? List.length assignment)
  then Ok false
  else if negb (forallb (fun vw => String.length (snd vw) =? v_length (fst vw))
                        assignment)
  then Ok false
  else no_conflicts assignment (keys assignment).

(** [order_domain_values] *)
Fixpoint count_mismatches (w : word) (x_over y_over : nat)
    (dn : list word) (eliminations : nat) : result nat :=
  match dn with
  | [] => Ok eliminations
  | neighbour_word :: dn' =>
      cx <-r index w x_over ;;
      cy <-r index neighbour_word y_over ;;
      count_mismatches w x_over y_over dn'
        (if Ascii.eqb cx cy then eliminations else S eliminations)
  end.

Fixpoint eliminations_of (var : Var) (w : word) (ns : list Var)
    (eliminations : nat) : M nat :=
  match ns with
  | [] => ret eliminations
  | neighbour :: ns' =>
      match overlaps cw var neighbour with
      | None => eliminations_of var w ns' eliminations
      | Some (x_over, y_over) =>
          dn <- get_domain neighbour ;;
          e <- lift (count_mismatches w x_over y_over dn eliminations) ;;
          eliminations_of var w ns' e
      end
  end.

Definition order_domain_values (var : Var) (assignment : Assignment)
  : M (list word) :=
  let ns := filter (fun n => negb (mem n assignment)) (neighbors cw var) in
  dv <- get_domain var ;;
  least_constraining <- mapM (fun w => eliminations_of var w ns 0) dv ;;
  dv' <- get_domain var ;;
  ret (sorted dv' least_constraining).

(** [select_unassigned_variable].  [highest_degree] holds a set of
    variables at first and would hold a variable after the assignment
    [highest_degree = other]. *)
Inductive pyobj :=
| PySet (s : list Var)
| PyVar (v : Var).

Definition subset (a b : list Var) : bool :=
  forallb (fun x => existsb (Var_eqb x) b) a.

(** [degree > highest_degree]: proper superset between sets; a set and a
    Variable are not comparable. *)
Definition py_gt (degree : list Var) (highest_degree : pyobj) : result bool :=
  match highest_degree with
  | PySet s => Ok (subset s degree && negb (subset degree s))
  | PyVar _ => Raise TypeError
  end.

Fixpoint degree_loop (mnrm rest : list Var) (result_value : Var)
    (highest_degree : pyobj) : result Var :=
  match rest with
  | [] => Ok result_value
  | other :: rest' =>
      m0 <-r list_index mnrm 0 ;;
      gt <-r py_gt (neighbors cw m0) highest_degree ;;
      if gt then degree_loop mnrm rest' other (PyVar other)
      else degree_loop mnrm rest' result_value highest_degree
  end.

Definition domain_size (x : Var) : M nat :=
  d <- get_domain x ;; ret (List.length d).

Definition select_unassigned_variable (assignment : Assignment) : M Var :=
  let unassigned :=
    filter (fun v => negb (mem v assignment)) (variables cw) in
  sizes <- mapM domain_size unassigned ;;
  let mnrm := sorted unassigned sizes in
  mnrm <- filterM
            (fun x =>
               n <- domain_size x ;;
               m0 <- lift (list_index mnrm 0) ;;
               n0 <- domain_size m0 ;;
               ret (n =? n0))
            mnrm ;;
  if List.length mnrm =? 1 then lift (list_index mnrm 0)
  else
    result_value <- lift (list_index mnrm 0) ;;
    m0 <- lift (list_index mnrm 0) ;;
    lift (degree_loop mnrm (skipn 1 mnrm) result_value
            (PySet (neighbors cw m0))).

(** [backtrack]; [fuel] bounds the depth of the recursion. *)
Fixpoint try_values (rec : Assignment -> M (option Assignment))
    (var : Var) (assignment : Assignment) (vals : list word)
  : M (option Assignment) :=
  match vals with
  | [] => ret None
  | value :: vals' =>
      let assignment_copy := dict_set var value assignment in
      ok <- lift (consistent assignment_copy) ;;
      if ok then
        r <- rec assignment_copy ;;
        match r with
        | Some _ => ret r
        | None => try_values rec var assignment vals'
        end
      else try_values rec var assignment vals'
  end.

Fixpoint backtrack (fuel : nat) (assignment : Assignment)
  : M (option Assignment) :=
  match fuel with
  | 0 => out_of_fuel
  | S fuel' =>
      log (Call_backtrack assignment) ;;;
      if assignment_complete assignment then ret (Some assignment)
      else
        var <- select_unassigned_variable assignment ;;
        vals <- order_domain_values var assignment ;;
        try_values (backtrack fuel') var assignment vals
  end.

(** [solve]; the result of [ac3] is dropped. *)
Definition solve (fuel_ac3 fuel_search : nat) : M (option Assignment) :=
  enforce_node_consistency ;;;
  ac3 fuel_ac3 None ;;;
  backtrack fuel_search [].

End Creator.

(** ** Rendering: [letter_grid]

    [crossword.width] and [crossword.height] are taken as arguments. *)

Definition Grid := list (list (option ascii)).

(** [[[None for _ in range(width)] for _ in range(height)]] *)
Definition blank_grid (height width : nat) : Grid :=
  repeat (repeat None width) height.

(** [l[n] = a] on a list: IndexError past the end. *)
Fixpoint list_set {A} (l : list A) (n : nat) (a : A) : result (list A) :=
  match l, n with
  | [], _ => Raise IndexError
  | _ :: l', 0 => Ok (a :: l')
  | x :: l', S n' => l'' <-r list_set l' n' a ;; Ok (x :: l'')
  end.

(** [letters[i][j] = c]; the rows are distinct lists. *)
Definition grid_set (letters : Grid) (i j : nat) (c : ascii) : result Grid :=
  row <-r list_index letters i ;;
  row' <-r list_set row j (Some c) ;;
  list_set letters i row'.

(** The cell of the [k]-th letter of a word placed in [variable]. *)
Definition cell_of (variable : Var) (k : nat) : nat * nat :=
  (v_i variable + match v_direction variable with DOWN => k | ACROSS => 0 end,
   v_j variable + match v_direction variable with ACROSS => k | DOWN => 0 end).

(** [for k in range(len(word))] *)
Fixpoint write_word (variable : Var) (w : word) (ks : list nat)
    (letters : Grid) : result Grid :=
  match ks with
  | [] => Ok letters
  | k :: ks' =>
      c <-r index w k ;;
      letters' <-r grid_set letters (fst (cell_of variable k))
                     (snd (cell_of variable k)) c ;;
      write_word variable w ks' letters'
  end.

(** [for variable, word in assignment.items()] *)
Fixpoint write_items (items : Assignment) (letters : Grid) : result Grid :=
  match items with
  | [] => Ok letters
  | (variable, w) :: rest =>
      letters' <-r write_word variable w (seq 0 (String.length w)) letters ;;
      write_items rest letters'
  end.

Definition letter_grid (height width : nat) (assignment : Assignment)
  : result Grid :=
  write_items assignment (blank_grid height width).

(** ** Puzzles built from a grid *)

(** Modelled from the spec: the overlap map and the neighbor sets that
    crossword.py computes from the cells of the slots (two slots overlap when
    they share a cell; the overlap is the position of that cell in each). *)
Definition cells (v : Var) : list (nat * nat) :=
  map (fun k => match v_direction v with
                | ACROSS => (v_i v, v_j v + k)
                | DOWN => (v_i v + k, v_j v)
                end)
      (seq 0 (v_length v)).

Definition cell_eqb (a b : nat * nat) : bool :=
  (fst a =? fst b) && (snd a =? snd b).

Fixpoint position (c : nat * nat) (l : list (nat * nat)) : option nat :=
  match l with
  | [] => None
  | c' :: l' =>
      if cell_eqb c c' then Some 0
      else match position c l' with Some n => Some (S n) | None => None end
  end.

Fixpoint shared_cell (cx cy : list (nat * nat)) (p : nat) : option (nat * nat) :=
  match cx with
  | [] => None
  | c :: cx' =>
      match position c cy with
      | Some q => Some (p, q)
      | None => shared_cell cx' cy (S p)
      end
  end.

Definition grid_overlap (x y : Var) : option (nat * nat) :=
  if Var_eqb x y then None else shared_cell (cells x) (cells y) 0.

Definition grid_crossword (vars : list Var) (pool : list word) : Crossword :=
  mkCrossword vars
    (fun v => filter (fun u => negb (Var_eqb u v) && is_some (grid_overlap u v))
                     vars)
    grid_overlap pool.

(** ** Specification-level notions *)

(** The letter of [wx] at [i] and the letter of [wy] at [j] exist and are the
    same. *)
Definition agree (i j : nat) (wx wy : word) : bool :=
  match String.get i wx, String.get j wy with
  | Some a, Some b => Ascii.eqb a b
  | _, _ => false
  end.

Definition has_support (i j : nat) (dy : list word) (wx : word) : bool :=
  existsb (agree i j wx) dy.

Unset Implicit Arguments.

(** * Notions used by the statements *)

(** A word of the snapshot that is dropped by the loop of [revise]. *)
Definition dropped (i j : nat) (dy snapshot : list word) (w : word) : bool :=
  existsb (fun u => String.eqb w u && negb (has_support i j dy u)) snapshot.

Definition prune_step (x y : Var) (i j : nat) (s s' : State) : Prop :=
  exists wx dx dy,
    lookup x (domains s) = Some dx /\
    lookup y (domains s) = Some dy /\
    any_match wx i j dy = Ok false /\
    s' = mkState (dict_set x (remove_word wx dx) (domains s)) (trace s).

Definition prune (cw : Crossword) (s s' : State) : Prop :=
  exists x y i j, overlaps cw x y = Some (i, j) /\ prune_step x y i j s s'.

Inductive star {A : Type} (R : A -> A -> Prop) : A -> A -> Prop :=
| star_refl a : star R a a
| star_step a b c : R a b -> star R b c -> star R a c.

Definition store_size (ds : Domains) : nat :=
  list_sum (map (fun kv => List.length (snd kv)) ds).

(** Domains only lose words. *)
Definition shrinks (ds ds' : Domains) : Prop :=
  keys ds' = keys ds /\
  forall z d, lookup z ds = Some d ->
              exists d', lookup z ds' = Some d' /\ incl d' d.

(** Fuel that suffices: each productive revision shrinks the store, and
    enqueues at most the neighbors of a key. *)
Definition max_degree (cw : Crossword) (ks : list Var) : nat :=
  list_max (map (fun x => List.length (neighbors cw x)) ks).

Definition ac3_bound (cw : Crossword) (queue : list arc) (s : State) : nat :=
  List.length queue
  + S (max_degree cw (keys (domains s))) * store_size (domains s).

Definition fits (v : Var) (w : word) : bool := String.length w =? v_length v.

(** Every word of every domain has the length of its variable. *)
Definition node_consistent (ds : Domains) : Prop :=
  forall v d w, lookup v ds = Some d -> In w d -> String.length w = v_length v.

Definition ac3_queue (cw : Crossword) (arcs : option (list arc)) (s : State)
  : list arc :=
  match arcs with
  | Some l => l
  | None => all_arcs cw (keys (domains s))
  end.

Definition logged (e : event) (s : State) : State :=
  mkState (domains s) (trace s ++ [e]).

(** The three constraints on a (partial) assignment. *)
Record valid (cw : Crossword) (a : Assignment) : Prop := mkValid {
  valid_distinct : NoDup (values a);
  valid_length :
    forall v w, In (v, w) a -> String.length w = v_length v;
  valid_overlap :
    forall var n wv wn i j,
      In var (keys a) -> In n (neighbors cw var) ->
      lookup var a = Some wv -> lookup n a = Some wn ->
      overlaps cw var n = Some (i, j) ->
      agree i j wv wn = true
}.

Definition dom_size (ds : Domains) (x : Var) : nat :=
  match lookup x ds with Some d => List.length d | None => 0 end.

Definition unassigned_vars (cw : Crossword) (a : Assignment) : list Var :=
  filter (fun v => negb (mem v a)) (variables cw).

(** The unassigned variables by increasing domain size. *)
Definition mrv_order (cw : Crossword) (ds : Domains) (a : Assignment)
  : list Var :=
  sorted (unassigned_vars cw a) (map (dom_size ds) (unassigned_vars cw a)).

(** Soundness: a returned assignment is complete and was accepted by
    [consistent], unless it is the argument itself. *)
Definition sound_rec (cw : Crossword) (rec : Assignment -> M (option Assignment)) : Prop :=
  forall a s r s',
    rec a s = Ok (Some r, s') ->
    assignment_complete cw r = true /\
    (r = a \/ consistent cw r = Ok true).

(** Frame: the domains are the same on return. *)
Definition frame_rec (rec : Assignment -> M (option Assignment)) : Prop :=
  forall a s r s', rec a s = Ok (r, s') -> domains s' = domains s.

(** A complete assignment of pool words that satisfies the three
    constraints. *)
Record solution (cw : Crossword) (a : Assignment) : Prop := mkSolution {
  sol_complete :
    forall v, In v (variables cw) -> exists w, lookup v a = Some w;
  sol_pool :
    forall v w, In v (variables cw) -> lookup v a = Some w -> In w (words cw);
  sol_length :
    forall v w, In v (variables cw) -> lookup v a = Some w ->
                String.length w = v_length v;
  sol_distinct :
    forall x y w, In x (variables cw) -> In y (variables cw) ->
                  lookup x a = Some w -> lookup y a = Some w -> x = y;
  sol_overlap :
    forall x y i j wx wy,
      In x (variables cw) -> In y (variables cw) ->
      overlaps cw x y = Some (i, j) ->
      lookup x a = Some wx -> lookup y a = Some wy ->
      agree i j wx wy = true
}.

(** A partial assignment made of choices of the solution. *)
Definition part_of (cw : Crossword) (a p : Assignment) : Prop :=
  NoDup (keys p) /\
  forall v w, In (v, w) p -> In v (variables cw) /\ lookup v a = Some w.

(** The domains still hold the words of the solution. *)
Definition keeps (cw : Crossword) (a : Assignment) (ds : Domains) : Prop :=
  forall v w d,
    In v (variables cw) -> lookup v a = Some w -> lookup v ds = Some d ->
    In w d.

Definition extends_trace (rec : Assignment -> M (option Assignment)) : Prop :=
  forall a s r s',
    rec a s = Ok (r, s') -> exists rest, trace s' = trace s ++ rest.

(** Modelled from the spec: what the construction of the Puzzle Model
    guarantees.  The variables are a set; the neighbors of a variable are the
    other variables that overlap it; the overlap map is symmetric and its
    positions lie inside the slots. *)
Record well_formed (cw : Crossword) : Prop := mkWellFormed {
  wf_nodup : NoDup (variables cw);
  wf_neighbors :
    forall x y, In x (variables cw) ->
                (In y (neighbors cw x) <->
                 In y (variables cw) /\ y <> x /\ overlaps cw y x <> None);
  wf_symmetric :
    forall x y i j, In x (variables cw) -> In y (variables cw) ->
                    overlaps cw x y = Some (i, j) ->
                    overlaps cw y x = Some (j, i);
  wf_range :
    forall x y i j, In x (variables cw) -> In y (variables cw) ->
                    overlaps cw x y = Some (i, j) ->
                    i < v_length x /\ j < v_length y
}.

(** Every word of a domain has a supporting word in the domain of each
    neighbor. *)
Definition arc_consistent (cw : Crossword) (ds : Domains) : Prop :=
  forall x y i j dx dy wx,
    In x (keys ds) -> In y (neighbors cw x) ->
    overlaps cw x y = Some (i, j) ->
    lookup x ds = Some dx -> lookup y ds = Some dy ->
    In wx dx -> has_support i j dy wx = true.

(** The words of the domain of [x] all have a supporting word in the domain
    of [y]. *)
Definition arc_ok (cw : Crossword) (ds : Domains) (x y : Var) : Prop :=
  forall i j dx dy wx,
    overlaps cw x y = Some (i, j) ->
    lookup x ds = Some dx -> lookup y ds = Some dy ->
    In wx dx -> has_support i j dy wx = true.

(** The invariant of the worklist: it holds arcs of the puzzle only, and an
    arc that is not in it is consistent. *)
Definition ac3_invariant (cw : Crossword) (queue : list arc) (ds : Domains)
  : Prop :=
  (forall x y, In (x, y) queue ->
               In x (variables cw) /\ In y (neighbors cw x))
  /\
  (forall x y, In x (variables cw) -> In y (neighbors cw x) ->
               In (x, y) queue \/ arc_ok cw ds x y).

Definition mem_var (x : Var) (l : list Var) : bool := existsb (Var_eqb x) l.

Fixpoint nodupb (l : list Var) : bool :=
  match l with
  | [] => true
  | x :: l' => negb (mem_var x l') && nodupb l'
  end.

Definition overlap_okb (cw : Crossword) (x y : Var) : bool :=
  match overlaps cw x y with
  | None => true
  | Some (i, j) =>
      (i <? v_length x) && (j <? v_length y)
      && match overlaps cw y x with
         | Some (j', i') => (i =? i') && (j =? j')
         | None => false
         end
  end.

Definition is_neighborb (cw : Crossword) (x y : Var) : bool :=
  mem_var y (variables cw) && negb (Var_eqb y x) && is_some (overlaps cw y x).

Definition well_formedb (cw : Crossword) : bool :=
  nodupb (variables cw)
  && forallb
       (fun x =>
          forallb (is_neighborb cw x) (neighbors cw x)
          && forallb (fun y => implb (is_neighborb cw x y)
                                     (mem_var y (neighbors cw x)))
                     (variables cw)
          && forallb (overlap_okb cw x) (variables cw))
       (variables cw).

Definition node_consistentb (ds : Domains) : bool :=
  forallb (fun vd => forallb (fits (fst vd)) (snd vd)) ds.

Definition arc_consistentb (cw : Crossword) (ds : Domains) : bool :=
  forallb
    (fun xd =>
       forallb
         (fun y =>
            match overlaps cw (fst xd) y, lookup y ds with
            | Some (i, j), Some dy => forallb (has_support i j dy) (snd xd)
            | _, _ => true
            end)
         (neighbors cw (fst xd)))
    ds.

(** ** Notions used by the further statements *)

(** The keys of the store are the variables and every word has the length of
    its variable: what [__init__] and [enforce_node_consistency] establish. *)
Definition good_state (cw : Crossword) (s : State) : Prop :=
  keys (domains s) = variables cw /\ node_consistent (domains s).

(** A worklist made of arcs of the puzzle. *)
Definition arcs_of (cw : Crossword) (queue : list arc) : Prop :=
  forall x y, In (x, y) queue -> In x (variables cw) /\ In y (neighbors cw x).

(** No variable overlaps itself (crossword.py has no such entry). *)
Definition no_self_overlap (cw : Crossword) : Prop :=
  forall x, In x (variables cw) -> overlaps cw x x = None.

(** The words of [dn] that do not agree with [w] at the overlap. *)
Definition mismatches (x_over y_over : nat) (w : word) (dn : list word) : nat :=
  List.length (filter (fun nw => negb (agree x_over y_over w nw)) dn).

(** What [order_domain_values] counts for [w]: over the neighbors of [var]
    that are not assigned, the words of their domains that [w] rules out. *)
Definition eliminations (cw : Crossword) (ds : Domains) (var : Var)
    (a : Assignment) (w : word) : nat :=
  list_sum
    (map (fun n =>
            match overlaps cw var n, lookup n ds with
            | Some (x_over, y_over), Some dn => mismatches x_over y_over w dn
            | _, _ => 0
            end)
         (filter (fun n => negb (mem n a)) (neighbors cw var))).

(** [r] has the entries of [a], at the same keys. *)
Definition extends (a r : Assignment) : Prop :=
  forall v w, lookup v a = Some w -> lookup v r = Some w.

(** A key of [r] that is not one of [a] holds a word of its domain. *)
Definition chosen_from (ds : Domains) (a r : Assignment) : Prop :=
  forall v w, lookup v r = Some w ->
              lookup v a = Some w \/
              (lookup v a = None /\ exists d, lookup v ds = Some d /\ In w d).

(** Reading a grid. *)
Definition grid_get (g : Grid) (i j : nat) : option (option ascii) :=
  match nth_error g i with
  | Some row => nth_error row j
  | None => None
  end.

Definition shape (height width : nat) (g : Grid) : Prop :=
  List.length g = height /\ forall row, In row g -> List.length row = width.

(** The entry [(v, w)] puts the letter [c] on the cell [(i, j)]. *)
Definition covers (v : Var) (w : word) (i j : nat) (c : ascii) : Prop :=
  exists k, cell_of v k = (i, j) /\ String.get k w = Some c.

(** Every letter of every entry falls inside the grid. *)
Definition in_bounds (height width : nat) (a : Assignment) : Prop :=
  forall v w k, In (v, w) a -> k < String.length w ->
                fst (cell_of v k) < height /\ snd (cell_of v k) < width.

(** The writes of [letter_grid], in the order it makes them. *)
Definition writes_of (v : Var) (w : word) (ks : list nat)
  : list (nat * nat * ascii) :=
  flat_map (fun k => match String.get k w with
                     | Some c => [(fst (cell_of v k), snd (cell_of v k), c)]
                     | None => []
                     end) ks.

Definition writes (a : Assignment) : list (nat * nat * ascii) :=
  flat_map (fun vw => writes_of (fst vw) (snd vw)
                        (seq 0 (String.length (snd vw)))) a.

(** [T] gives every key a part of its domain in [ds]. *)
Definition substore (T ds : Domains) : Prop :=
  forall z t, lookup z T = Some t ->
              exists d, lookup z ds = Some d /\ incl t d.

(** Every word of [T] has a supporting word in [T] across the overlap with
    every other key of [T]. *)
Definition self_supported (cw : Crossword) (T : Domains) : Prop :=
  forall x y i j tx wx,
    overlaps cw x y = Some (i, j) ->
    lookup x T = Some tx -> In wx tx -> In y (keys T) ->
    exists ty wy, lookup y T = Some ty /\ In wy ty /\ agree i j wx wy = true.

(** A sequence of writes [letters[i][j] = c]. *)
Fixpoint apply_writes (ws : list (nat * nat * ascii)) (g : Grid)
  : result Grid :=
  match ws with
  | [] => Ok g
  | (i, j, c) :: ws' => g' <-r grid_set g i j c ;; apply_writes ws' g'
  end.

(** The letter of the last write on the cell [(i, j)]. *)
Fixpoint last_write (ws : list (nat * nat * ascii)) (i j : nat)
  : option ascii :=
  match ws with
  | [] => None
  | (i0, j0, c0) :: ws' =>
      match last_write ws' i j with
      | Some c => Some c
      | None => if (i0 =? i) && (j0 =? j) then Some c0 else None
      end
  end.

(** Modelled from the spec: the overlap map tells the cell two distinct
    variables share, by the position of the cell in each. *)
Definition overlaps_are_cells (cw : Crossword) : Prop :=
  forall x y k k',
    In x (variables cw) -> In y (variables cw) -> x <> y ->
    k < v_length x -> k' < v_length y ->
    cell_of x k = cell_of y k' ->
    overlaps cw x y = Some (k, k').

Definition overlaps_are_cellsb (cw : Crossword) : bool :=
  forallb
    (fun x =>
       forallb
         (fun y =>
            Var_eqb x y
            || forallb
                 (fun k =>
                    forallb
                      (fun k' =>
                         implb (cell_eqb (cell_of x k) (cell_of y k'))
                               match overlaps cw x y with
                               | Some (p, q) => (p =? k) && (q =? k')
                               | None => false
                               end)
                      (seq 0 (v_length y)))
                 (seq 0 (v_length x)))
         (variables cw))
    (variables cw).

(** * Worked puzzles *)

Module Puzzles.
Open Scope string_scope.

(** Two slots of length 3 crossing on their first cell. *)
Definition A : Var := mkVar 0 0 ACROSS 3.

Definition B : Var := mkVar 0 0 DOWN 3.

(** A third slot, across the last cell of [B]. *)
Definition C : Var := mkVar 2 0 ACROSS 3.

(** A slot of length 2 down from the first cell of [A]. *)
Definition B2 : Var := mkVar 0 0 DOWN 2.

(** The slots of the revision example of the spec: [Y] goes down from the
    second cell of [X]. *)
Definition X : Var := mkVar 0 0 ACROSS 3.

Definition Y : Var := mkVar 0 1 DOWN 4.

Definition crossing : Crossword :=
  grid_crossword [A; B] ["ace"; "cab"; "bat"; "arc"].

Definition unsolvable : Crossword := grid_crossword [A; B] ["abc"; "xyz"].

Definition mismatch : Crossword := grid_crossword [A; B2] ["abc"; "xy"].

Definition isolated : Crossword := grid_crossword [A] ["to"].

Definition tie : Crossword := grid_crossword [A; B; C] ["aba"; "bab"].

Definition xy : Crossword :=
  grid_crossword [X; Y] ["cat"; "dog"; "tree"; "oxen"].

(** The state reached by [enforce_node_consistency] and then [ac3]. *)
Definition propagated (cw : Crossword) (fuel : nat) : State :=
  match bind enforce_node_consistency (fun _ => ac3 cw fuel None) (init cw) with
  | Ok (_, s) => s
  | _ => init cw
  end.

Definition final (cw : Crossword) (fuel_ac3 fuel_search : nat) : State :=
  match solve cw fuel_ac3 fuel_search (init cw) with
  | Ok (_, s) => s
  | _ => init cw
  end.

Definition node_consistent_state (cw : Crossword) : State :=
  match enforce_node_consistency (init cw) with
  | Ok (_, s) => s
  | _ => init cw
  end.

Definition crossing_answer : Assignment := [(A, "ace"); (B, "arc")].

(** The store that holds only the words of [crossing_answer]. *)
Definition crossing_answer_store : Domains := [(A, ["ace"]); (B, ["arc"])].

(** The grid of [crossing_answer], 3 by 3. *)
Definition crossing_grid : Grid :=
  [[Some "a"%char; Some "c"%char; Some "e"%char];
   [Some "r"%char; None; None];
   [Some "c"%char; None; None]].

End Puzzles.

(** * Basic facts *)

Lemma Var_eqb_eq (x y : Var) : Var_eqb x y = true <-> x = y.
Proof.
  destruct x as [a b c d], y as [a' b' c' d']; unfold Var_eqb; simpl.
  rewrite !andb_true_iff, !Nat.eqb_eq. split.
  - intros [[[-> ->] Hd] ->]. destruct c, c'; simpl in Hd; congruence.
  - intros E; injection E as -> -> -> ->. destruct c'; auto.
Qed.

Lemma Var_eqb_refl (x : Var) : Var_eqb x x = true.
Proof. now apply Var_eqb_eq. Qed.

Lemma Var_eqb_neq (x y : Var) : Var_eqb x y = false <-> x <> y.
Proof.
  rewrite <- Var_eqb_eq. destruct (Var_eqb x y); split; congruence.
Qed.

Lemma Var_eqb_sym (x y : Var) : Var_eqb x y = Var_eqb y x.
Proof.
  destruct (Var_eqb x y) eqn:E.
  - apply Var_eqb_eq in E; subst. now rewrite Var_eqb_refl.
  - apply Var_eqb_neq in E. symmetry. apply Var_eqb_neq. congruence.
Qed.

Lemma Var_eq_dec (x y : Var) : {x = y} + {x <> y}.
Proof.
  destruct (Var_eqb x y) eqn:E.
  - left. now apply Var_eqb_eq.
  - right. now apply Var_eqb_neq.
Qed.

Ltac var_cases x y :=
  let E := fresh "E" in
  destruct (Var_eqb x y) eqn:E;
  [apply Var_eqb_eq in E; try subst | pose proof E as ?; apply Var_eqb_neq in E].

Section DictFacts.
Variable V : Type.
Implicit Types (d : dict V) (k : Var) (v : V).

Lemma lookup_dict_set_eq k v d : lookup k (dict_set k v d) = Some v.
Proof.
  induction d as [|[k' v'] d IH]; simpl.
  - now rewrite Var_eqb_refl.
  - destruct (Var_eqb k k') eqn:E; simpl; rewrite E; auto.
Qed.

Lemma lookup_dict_set_neq k k' v d :
  k' <> k -> lookup k' (dict_set k v d) = lookup k' d.
Proof.
  intros N. induction d as [|[k0 v0] d IH]; simpl.
  - apply Var_eqb_neq in N. now rewrite N.
  - destruct (Var_eqb k k0) eqn:E; simpl; auto.
    + apply Var_eqb_eq in E; subst. apply Var_eqb_neq in N. now rewrite N.
    + now rewrite IH.
Qed.

Lemma dict_set_twice k v v' d :
  dict_set k v' (dict_set k v d) = dict_set k v' d.
Proof.
  induction d as [|[k0 v0] d IH]; simpl.
  - now rewrite Var_eqb_refl.
  - destruct (Var_eqb k k0) eqn:E; simpl; rewrite E; congruence.
Qed.

Lemma dict_set_same k v d : lookup k d = Some v -> dict_set k v d = d.
Proof.
  induction d as [|[k0 v0] d IH]; simpl; [discriminate|].
  var_cases k k0.
  - now intros [= ->].
  - intros L. now rewrite IH.
Qed.

Lemma keys_dict_set k v d :
  mem k d = true -> keys (dict_set k v d) = keys d.
Proof.
  unfold mem. induction d as [|[k0 v0] d IH]; simpl; [discriminate|].
  destruct (Var_eqb k k0) eqn:E; simpl; auto.
  intros L. now rewrite IH.
Qed.

Lemma dict_set_new k v d :
  lookup k d = None -> dict_set k v d = d ++ [(k, v)].
Proof.
  induction d as [|[k0 v0] d IH]; simpl; auto.
  destruct (Var_eqb k k0); [discriminate|]. intros L. now rewrite IH.
Qed.

Lemma lookup_In k v d : lookup k d = Some v -> In (k, v) d.
Proof.
  induction d as [|[k0 v0] d IH]; simpl; [discriminate|].
  var_cases k k0.
  - intros [= ->]. now left.
  - intros L. right. auto.
Qed.

Lemma lookup_keys k d : In k (keys d) <-> lookup k d <> None.
Proof.
  induction d as [|[k0 v0] d IH]; simpl; [tauto|].
  var_cases k k0.
  - split; [discriminate | now left].
  - rewrite IH. split; [intuition congruence|]. intros; now right.
Qed.

Lemma mem_keys k d : mem k d = true <-> In k (keys d).
Proof.
  rewrite lookup_keys. unfold mem. destruct (lookup k d); split;
    congruence.
Qed.

Lemma In_lookup k v d : NoDup (keys d) -> In (k, v) d -> lookup k d = Some v.
Proof.
  induction d as [|[k0 v0] d IH]; simpl; [tauto|].
  intros ND [E|I].
  - injection E as -> ->. now rewrite Var_eqb_refl.
  - inversion ND; subst. var_cases k k0.
    + exfalso. apply H1. change (In k0 (keys d)).
      apply in_map_iff. now exists (k0, v).
    + auto.
Qed.
End DictFacts.

(** Inversion of the monadic bind. *)
Lemma bind_Ok {A B} (m : M A) (f : A -> M B) s b s' :
  bind m f s = Ok (b, s') ->
  exists a s1, m s = Ok (a, s1) /\ f a s1 = Ok (b, s').
Proof.
  unfold bind. destruct (m s) as [[a s1]| |]; try discriminate. eauto.
Qed.

Lemma lift_Ok {A} (r : result A) s a s' :
  lift r s = Ok (a, s') -> r = Ok a /\ s' = s.
Proof. destruct r; simpl; intros E; inversion E; auto. Qed.

Lemma rbind_Ok {A B} (r : result A) (f : A -> result B) b :
  rbind r f = Ok b -> exists a, r = Ok a /\ f a = Ok b.
Proof. destruct r; simpl; try discriminate; eauto. Qed.

Lemma get_domain_Ok x s d s' :
  get_domain x s = Ok (d, s') -> lookup x (domains s) = Some d /\ s' = s.
Proof.
  unfold get_domain. destruct (lookup x (domains s)); intros E; inversion E.
  auto.
Qed.

Ltac inv_monad :=
  repeat match goal with
    | H : bind _ _ _ = Ok _ |- _ =>
        let a := fresh "a" in let s := fresh "s" in
        let H1 := fresh "H" in let H2 := fresh "H" in
        apply bind_Ok in H; destruct H as (a & s & H1 & H2)
    | H : rbind _ _ = Ok _ |- _ =>
        let a := fresh "a" in
        let H1 := fresh "H" in let H2 := fresh "H" in
        apply rbind_Ok in H; destruct H as (a & H1 & H2)
    | H : lift _ _ = Ok _ |- _ =>
        let H1 := fresh "H" in
        apply lift_Ok in H; destruct H as (H1 & ->)
    | H : get_domain _ _ = Ok _ |- _ =>
        let H1 := fresh "H" in
        apply get_domain_Ok in H; destruct H as (H1 & ->)
    | H : ret _ _ = Ok _ |- _ => unfold ret in H; inversion H; clear H; subst
    | H : get_keys _ = Ok _ |- _ =>
        unfold get_keys in H; inversion H; clear H; subst
    | H : set_domain _ _ _ = Ok _ |- _ =>
        unfold set_domain in H; inversion H; clear H; subst
    | H : log _ _ = Ok _ |- _ => unfold log in H; inversion H; clear H; subst
    end.

(** * Revision of one arc *)

Lemma get_Some_lt i (w : word) c : String.get i w = Some c -> i < String.length w.
Proof.
  revert i. induction w as [|a w IH]; intros [|i]; simpl; try discriminate.
  - lia.
  - intros H. apply IH in H. lia.
Qed.

Lemma get_lt_Some i (w : word) :
  i < String.length w -> exists c, String.get i w = Some c.
Proof.
  revert i. induction w as [|a w IH]; intros [|i]; simpl; try lia.
  - eauto.
  - intros H. apply IH. lia.
Qed.

Lemma any_match_Ok i j dy w b :
  any_match w i j dy = Ok b -> b = has_support i j dy w.
Proof.
  unfold has_support, index. induction dy as [|wy dy IH]; simpl.
  - now intros [= <-].
  - unfold index.
    destruct (String.get i w) as [cx|] eqn:Ex; simpl; [|discriminate].
    destruct (String.get j wy) as [cy|] eqn:Ey; simpl; [|discriminate].
    unfold agree at 1. rewrite Ex, Ey.
    destruct (Ascii.eqb cx cy); simpl; [now intros [= <-]|].
    intros H. now apply IH in H.
Qed.

Lemma any_match_in_range i j dy w :
  i < String.length w ->
  (forall wy, In wy dy -> j < String.length wy) ->
  any_match w i j dy = Ok (has_support i j dy w).
Proof.
  intros Hi. unfold has_support. induction dy as [|wy dy IH]; simpl; auto.
  intros Hj. unfold index.
  destruct (get_lt_Some i w Hi) as [cx Ex].
  destruct (get_lt_Some j wy (Hj wy (or_introl eq_refl))) as [cy Ey].
  unfold agree at 1. rewrite Ex, Ey.
  simpl. destruct (Ascii.eqb cx cy); simpl; auto.
Qed.

Lemma filter_dropped_cons i j dy u snapshot (dx : list word) :
  has_support i j dy u = false ->
  filter (fun w => negb (dropped i j dy snapshot w)) (remove_word u dx)
  = filter (fun w => negb (dropped i j dy (u :: snapshot) w)) dx.
Proof.
  intros Hu. unfold remove_word.
  induction dx as [|w dx IH]; cbn [filter]; auto.
  change (dropped i j dy (u :: snapshot) w)
    with ((String.eqb w u && negb (has_support i j dy u))
          || dropped i j dy snapshot w).
  rewrite Hu. cbn [negb]. rewrite andb_true_r.
  destruct (String.eqb w u); cbn [negb orb filter]; auto.
  destruct (dropped i j dy snapshot w); cbn [negb]; auto. now rewrite IH.
Qed.

Lemma filter_dropped_keep i j dy u snapshot (dx : list word) :
  has_support i j dy u = true ->
  filter (fun w => negb (dropped i j dy (u :: snapshot) w)) dx
  = filter (fun w => negb (dropped i j dy snapshot w)) dx.
Proof.
  intros Hu. apply filter_ext. intros w.
  change (dropped i j dy (u :: snapshot) w)
    with ((String.eqb w u && negb (has_support i j dy u))
          || dropped i j dy snapshot w).
  rewrite Hu. cbn [negb]. now rewrite andb_false_r.
Qed.

Lemma filter_dropped_self i j dy (dx : list word) :
  filter (fun w => negb (dropped i j dy dx w)) dx
  = filter (has_support i j dy) dx.
Proof.
  apply filter_ext_in. intros w Hw. unfold dropped.
  destruct (has_support i j dy w) eqn:Hs.
  - apply negb_true_iff. apply not_true_is_false. intros H.
    apply existsb_exists in H. destruct H as (u & _ & H).
    apply andb_true_iff in H. destruct H as [E H].
    apply String.eqb_eq in E. subst. rewrite Hs in H. discriminate.
  - apply negb_false_iff. apply existsb_exists. exists w. split; auto.
    now rewrite String.eqb_refl, Hs.
Qed.

Section Revise.
Variable cw : Crossword.

Lemma revise_loop_run x y i j dy snapshot :
  x <> y ->
  forall revised ds tr dx,
    lookup y ds = Some dy ->
    lookup x ds = Some dx ->
    (forall w, In w snapshot ->
               any_match w i j dy = Ok (has_support i j dy w)) ->
    revise_loop x y i j snapshot revised (mkState ds tr)
    = Ok (revised || negb (forallb (has_support i j dy) snapshot),
          mkState
            (dict_set x
               (filter (fun w => negb (dropped i j dy snapshot w)) dx) ds)
            tr).
Proof.
  intros Nxy. induction snapshot as [|u snapshot IH];
    intros revised ds tr dx Hy Hx Hm.
  - simpl. unfold ret. rewrite orb_false_r.
    assert (F : filter (fun _ : word => true) dx = dx).
    { clear. induction dx; simpl; congruence. }
    simpl. rewrite F, dict_set_same; auto.
  - cbn [revise_loop forallb]. unfold bind at 1. unfold get_domain at 1.
    cbn [domains]. rewrite Hy.
    unfold bind at 1. rewrite (Hm u) by now left. cbn [lift].
    destruct (has_support i j dy u) eqn:Hu.
    + rewrite (IH revised ds tr dx); auto.
      * now rewrite filter_dropped_keep.
      * intros; apply Hm; now right.
    + unfold bind at 1. unfold get_domain at 1. cbn [domains]. rewrite Hx.
      unfold bind at 1. unfold set_domain at 1. cbn [domains trace].
      rewrite (IH true _ tr (remove_word u dx)).
      * cbn [andb negb]. rewrite orb_true_r. rewrite dict_set_twice.
        now rewrite filter_dropped_cons.
      * rewrite lookup_dict_set_neq; auto.
      * apply lookup_dict_set_eq.
      * intros; apply Hm; now right.
Qed.

Lemma revise_run x y i j ds tr dx dy :
  overlaps cw x y = Some (i, j) ->
  x <> y ->
  lookup x ds = Some dx ->
  lookup y ds = Some dy ->
  (forall w, In w dx -> any_match w i j dy = Ok (has_support i j dy w)) ->
  revise cw x y (mkState ds tr)
  = Ok (negb (forallb (has_support i j dy) dx),
        mkState (dict_set x (filter (has_support i j dy) dx) ds) tr).
Proof.
  intros Ho Nxy Hx Hy Hm. unfold revise. rewrite Ho.
  unfold bind, get_domain. simpl. rewrite Hx.
  rewrite (revise_loop_run x y i j dy dx Nxy false ds tr dx Hy Hx Hm).
  simpl. now rewrite filter_dropped_self.
Qed.

Lemma revise_no_overlap x y s :
  overlaps cw x y = None -> revise cw x y s = Ok (false, s).
Proof. intros Ho. unfold revise. now rewrite Ho. Qed.
End Revise.


(** * Pruning steps

    Every write of [revise] removes from the domain of [x] one word for which
    the search for a supporting word in the current domain of [y] returned
    False. *)

Lemma star_trans {A} (R : A -> A -> Prop) a b c :
  star R a b -> star R b c -> star R a c.
Proof. induction 1; eauto using star_step. Qed.

Lemma star_one {A} (R : A -> A -> Prop) a b : R a b -> star R a b.
Proof. intros; eapply star_step; eauto using star_refl. Qed.

Lemma star_mono {A} (R R' : A -> A -> Prop) a b :
  (forall u v, R u v -> R' u v) -> star R a b -> star R' a b.
Proof. intros H; induction 1; eauto using star_refl, star_step. Qed.

Lemma star_preserves {A} (R : A -> A -> Prop) (P : A -> Prop) :
  (forall a b, P a -> R a b -> P b) ->
  forall a b, star R a b -> P a -> P b.
Proof. intros H a b S; induction S; eauto. Qed.

Lemma store_size_set x d' ds dx :
  lookup x ds = Some dx ->
  store_size (dict_set x d' ds) + List.length dx
  = store_size ds + List.length d'.
Proof.
  unfold store_size. induction ds as [|[k v] ds IH]; simpl; [discriminate|].
  destruct (Var_eqb x k) eqn:E; simpl.
  - intros [= ->]. lia.
  - intros L. specialize (IH L). lia.
Qed.

Lemma remove_word_length_le w d :
  List.length (remove_word w d) <= List.length d.
Proof. apply filter_length_le. Qed.

Lemma remove_word_length_lt w d :
  In w d -> List.length (remove_word w d) < List.length d.
Proof.
  unfold remove_word. induction d as [|a d IH]; simpl; [tauto|].
  intros [->|I].
  - rewrite String.eqb_refl. simpl.
    apply Nat.lt_succ_r, filter_length_le.
  - specialize (IH I). destruct (negb (String.eqb a w)); simpl; lia.
Qed.

Lemma remove_word_incl w d : incl (remove_word w d) d.
Proof. intros a H. apply filter_In in H. tauto. Qed.

Lemma prune_step_trace x y i j s s' :
  prune_step x y i j s s' -> trace s' = trace s.
Proof. intros (wx & dx & dy & _ & _ & _ & ->). reflexivity. Qed.

Lemma prune_step_keys x y i j s s' :
  prune_step x y i j s s' -> keys (domains s') = keys (domains s).
Proof.
  intros (wx & dx & dy & Hx & _ & _ & ->). simpl.
  apply keys_dict_set. unfold mem. now rewrite Hx.
Qed.

Lemma prune_step_size x y i j s s' :
  prune_step x y i j s s' ->
  store_size (domains s') <= store_size (domains s).
Proof.
  intros (wx & dx & dy & Hx & _ & _ & ->). simpl.
  pose proof (store_size_set x (remove_word wx dx) _ _ Hx).
  pose proof (remove_word_length_le wx dx). lia.
Qed.

Lemma shrinks_refl ds : shrinks ds ds.
Proof. split; auto. intros z d H. exists d. split; auto. apply incl_refl. Qed.

Lemma shrinks_trans a b c : shrinks a b -> shrinks b c -> shrinks a c.
Proof.
  intros [K1 H1] [K2 H2]. split; [congruence|].
  intros z d L. destruct (H1 _ _ L) as (d1 & L1 & I1).
  destruct (H2 _ _ L1) as (d2 & L2 & I2). exists d2. split; auto.
  eapply incl_tran; eauto.
Qed.

Lemma shrinks_set x dx d' ds :
  lookup x ds = Some dx -> incl d' dx -> shrinks ds (dict_set x d' ds).
Proof.
  intros Hx Hi. split.
  - apply keys_dict_set. unfold mem. now rewrite Hx.
  - intros z d L. destruct (Var_eq_dec z x) as [->|N].
    + rewrite lookup_dict_set_eq. exists d'. split; auto.
      rewrite Hx in L. now injection L as <-.
    + rewrite lookup_dict_set_neq by auto. exists d. split; auto.
      apply incl_refl.
Qed.

Lemma prune_step_shrinks x y i j s s' :
  prune_step x y i j s s' -> shrinks (domains s) (domains s').
Proof.
  intros (wx & dx & dy & Hx & _ & _ & ->). simpl.
  eapply shrinks_set; eauto. apply remove_word_incl.
Qed.

Section ReviseGeneral.
Variable cw : Crossword.

Lemma revise_loop_cons_Ok x y i j u rest revised s b s' :
  revise_loop x y i j (u :: rest) revised s = Ok (b, s') ->
  exists dy,
    lookup y (domains s) = Some dy /\
    ((any_match u i j dy = Ok true /\
      revise_loop x y i j rest revised s = Ok (b, s'))
     \/
     (any_match u i j dy = Ok false /\
      exists dx,
        lookup x (domains s) = Some dx /\
        revise_loop x y i j rest true
          (mkState (dict_set x (remove_word u dx) (domains s)) (trace s))
        = Ok (b, s'))).
Proof.
  cbn [revise_loop]. intros H.
  apply bind_Ok in H. destruct H as (dy & s1 & Hy & H).
  apply get_domain_Ok in Hy. destruct Hy as [Hy ->].
  apply bind_Ok in H. destruct H as (found & s2 & Hf & H).
  apply lift_Ok in Hf. destruct Hf as [Hf ->].
  exists dy. split; auto. destruct found; [left; auto|right].
  split; auto.
  apply bind_Ok in H. destruct H as (dx & s3 & Hx & H).
  apply get_domain_Ok in Hx. destruct Hx as [Hx ->].
  apply bind_Ok in H. destruct H as ([] & s4 & Hs & H).
  unfold set_domain in Hs. injection Hs as <-. eauto.
Qed.

Lemma revise_loop_star x y i j snapshot :
  forall revised s b s',
    revise_loop x y i j snapshot revised s = Ok (b, s') ->
    star (prune_step x y i j) s s'.
Proof.
  induction snapshot as [|u snapshot IH]; intros revised s b s' H.
  - cbn in H. injection H as _ <-. apply star_refl.
  - apply revise_loop_cons_Ok in H.
    destruct H as (dy & Hy & [[Hm H]|[Hm (dx & Hx & H)]]); eauto.
    eapply star_step; [|eauto]. exists u, dx, dy. auto.
Qed.

Lemma revise_loop_flag x y i j snapshot :
  forall revised s b s',
    revise_loop x y i j snapshot revised s = Ok (b, s') ->
    (revised = true -> b = true) /\ (b = false -> s' = s).
Proof.
  induction snapshot as [|u snapshot IH]; intros revised s b s' H.
  - cbn in H. injection H as <- <-. auto.
  - apply revise_loop_cons_Ok in H.
    destruct H as (dy & Hy & [[Hm H]|[Hm (dx & Hx & H)]]); eauto.
    apply IH in H. destruct H as [T _].
    rewrite T by auto. split; auto. discriminate.
Qed.

Lemma revise_loop_size x y i j snapshot :
  forall revised s b s' dx,
    revise_loop x y i j snapshot revised s = Ok (b, s') ->
    lookup x (domains s) = Some dx ->
    incl snapshot dx ->
    revised = false -> b = true ->
    store_size (domains s') < store_size (domains s).
Proof.
  induction snapshot as [|u snapshot IH];
    intros revised s b s' dx H Hx Hi Hr Hb.
  - cbn in H. injection H as <- <-. congruence.
  - apply revise_loop_cons_Ok in H.
    destruct H as (dy & Hy & [[Hm H]|[Hm (dx' & Hx' & H)]]).
    + eapply IH; eauto. intros w Hw. apply Hi. now right.
    + rewrite Hx in Hx'. injection Hx' as <-.
      apply revise_loop_star in H.
      assert (L : store_size (domains s') <=
                  store_size (dict_set x (remove_word u dx) (domains s))).
      { apply (star_preserves (prune_step x y i j)
                 (fun t => store_size (domains t) <=
                    store_size (dict_set x (remove_word u dx) (domains s))))
          with (2 := H).
        - intros t t' Ht St. apply prune_step_size in St. lia.
        - cbn [domains]. lia. }
      pose proof (store_size_set x (remove_word u dx) _ _ Hx).
      assert (Hu : In u dx) by (apply Hi; now left).
      pose proof (remove_word_length_lt u dx Hu). lia.
Qed.

Lemma revise_star x y s b s' :
  revise cw x y s = Ok (b, s') -> star (prune cw) s s'.
Proof.
  unfold revise. destruct (overlaps cw x y) as [[i j]|] eqn:Ho; intros H.
  - inv_monad. apply revise_loop_star in H1.
    eapply star_mono; [|eauto]. intros u v Huv. now exists x, y, i, j.
  - inv_monad. apply star_refl.
Qed.

Lemma revise_unchanged x y s s' :
  revise cw x y s = Ok (false, s') -> s' = s.
Proof.
  unfold revise. destruct (overlaps cw x y) as [[i j]|]; intros H.
  - inv_monad. apply revise_loop_flag in H1. tauto.
  - now inv_monad.
Qed.

Lemma revise_size x y s s' :
  revise cw x y s = Ok (true, s') ->
  store_size (domains s') < store_size (domains s)
  /\ In x (keys (domains s)).
Proof.
  unfold revise. destruct (overlaps cw x y) as [[i j]|]; intros H.
  - apply bind_Ok in H. destruct H as (dx & s1 & Hx & H).
    apply get_domain_Ok in Hx. destruct Hx as [Hx ->]. split.
    + eapply revise_loop_size; eauto. apply incl_refl.
    + apply lookup_keys. congruence.
  - discriminate.
Qed.
Lemma revise_loop_matches x y i j dy snapshot :
  x <> y ->
  forall revised s b s',
    revise_loop x y i j snapshot revised s = Ok (b, s') ->
    lookup y (domains s) = Some dy ->
    forall w, In w snapshot -> any_match w i j dy = Ok (has_support i j dy w).
Proof.
  intros Nxy. induction snapshot as [|u snapshot IH];
    intros revised s b s' H Ly w Iw; [destruct Iw|].
  apply revise_loop_cons_Ok in H.
  destruct H as (dy' & Ly' & [[Hm H]|[Hm (dx & Hx & H)]]);
    rewrite Ly in Ly'; injection Ly' as <-.
  - destruct Iw as [<-|Iw]; [|eauto].
    rewrite Hm. f_equal. now apply any_match_Ok.
  - destruct Iw as [<-|Iw].
    + rewrite Hm. f_equal. now apply any_match_Ok.
    + apply (IH _ _ _ _ H); auto. cbn [domains].
      rewrite lookup_dict_set_neq; auto.
Qed.

Lemma revise_Ok_spec x y i j dx dy s b s' :
  overlaps cw x y = Some (i, j) ->
  x <> y ->
  lookup x (domains s) = Some dx ->
  lookup y (domains s) = Some dy ->
  revise cw x y s = Ok (b, s') ->
  b = negb (forallb (has_support i j dy) dx) /\
  s' = mkState (dict_set x (filter (has_support i j dy) dx) (domains s))
         (trace s).
Proof.
  intros Ho Nxy Lx Ly H.
  assert (Hm : forall w, In w dx ->
                         any_match w i j dy = Ok (has_support i j dy w)).
  { unfold revise in H. rewrite Ho in H.
    apply bind_Ok in H. destruct H as (dx' & s1 & Hx & H).
    apply get_domain_Ok in Hx. destruct Hx as [Hx ->].
    rewrite Lx in Hx. injection Hx as <-.
    eapply revise_loop_matches; eauto. }
  destruct s as [ds tr]. cbn [domains trace] in *.
  rewrite (revise_run cw x y i j ds tr dx dy Ho Nxy Lx Ly Hm) in H.
  injection H as <- <-. auto.
Qed.

End ReviseGeneral.

(** C6: [revise x y] keeps in the domain of [x] exactly the words that agree
    with some word of the domain of [y] at the overlap, returns True iff a
    word was removed, and without an overlap removes nothing and returns
    False.  The second part says that it returns when the words reach the
    overlap positions, the third what it has done whenever it returns. *)
Theorem revise_spec (cw : Crossword) (x y : Var) (ds : Domains)
    (tr : list event) :
  (overlaps cw x y = None ->
   revise cw x y (mkState ds tr) = Ok (false, mkState ds tr))
  /\
  (forall i j dx dy,
      overlaps cw x y = Some (i, j) ->
      x <> y ->
      lookup x ds = Some dx ->
      lookup y ds = Some dy ->
      (forall w, In w dx -> i < String.length w) ->
      (forall w, In w dy -> j < String.length w) ->
      revise cw x y (mkState ds tr)
      = Ok (negb (forallb (has_support i j dy) dx),
            mkState (dict_set x (filter (has_support i j dy) dx) ds) tr))
  /\
  (forall i j dx dy b s',
      overlaps cw x y = Some (i, j) ->
      x <> y ->
      lookup x ds = Some dx ->
      lookup y ds = Some dy ->
      revise cw x y (mkState ds tr) = Ok (b, s') ->
      b = negb (forallb (has_support i j dy) dx) /\
      s' = mkState (dict_set x (filter (has_support i j dy) dx) ds) tr).
Proof.
  split; [|split].
  - apply revise_no_overlap.
  - intros i j dx dy Ho Nxy Hx Hy Hi Hj.
    apply revise_run; auto.
    intros w Hw. apply any_match_in_range; auto.
  - intros i j dx dy b s' Ho Nxy Hx Hy H.
    exact (revise_Ok_spec cw x y i j dx dy (mkState ds tr) b s' Ho Nxy Hx Hy H).
Qed.

Lemma prune_trace cw s s' : prune cw s s' -> trace s' = trace s.
Proof. intros (x & y & i & j & _ & H). eapply prune_step_trace; eauto. Qed.

Lemma prune_keys cw s s' :
  prune cw s s' -> keys (domains s') = keys (domains s).
Proof. intros (x & y & i & j & _ & H). eapply prune_step_keys; eauto. Qed.

Lemma prune_shrinks cw s s' :
  prune cw s s' -> shrinks (domains s) (domains s').
Proof. intros (x & y & i & j & _ & H). eapply prune_step_shrinks; eauto. Qed.

Lemma prune_size cw s s' :
  prune cw s s' -> store_size (domains s') <= store_size (domains s).
Proof. intros (x & y & i & j & _ & H). eapply prune_step_size; eauto. Qed.

Lemma star_prune_trace cw s s' : star (prune cw) s s' -> trace s' = trace s.
Proof.
  induction 1; auto. apply prune_trace in H. congruence.
Qed.

Lemma star_prune_keys cw s s' :
  star (prune cw) s s' -> keys (domains s') = keys (domains s).
Proof.
  induction 1; auto. apply prune_keys in H. congruence.
Qed.

Lemma star_prune_shrinks cw s s' :
  star (prune cw) s s' -> shrinks (domains s) (domains s').
Proof.
  induction 1; [apply shrinks_refl|].
  eapply shrinks_trans; eauto using prune_shrinks.
Qed.

Lemma star_prune_size cw s s' :
  star (prune cw) s s' -> store_size (domains s') <= store_size (domains s).
Proof.
  induction 1; auto. apply prune_size in H. lia.
Qed.

(** * The worklist loop of AC-3 *)

Lemma bind_OutOfFuel {A B} (m : M A) (f : A -> M B) s :
  bind m f s = OutOfFuel ->
  m s = OutOfFuel \/ exists a s1, m s = Ok (a, s1) /\ f a s1 = OutOfFuel.
Proof.
  unfold bind. destruct (m s) as [[a s1]| |]; try discriminate; eauto.
Qed.

Lemma get_domain_fuel x s : get_domain x s <> OutOfFuel.
Proof. unfold get_domain. destruct (lookup x (domains s)); discriminate. Qed.

Lemma any_match_fuel w i j dy : any_match w i j dy <> OutOfFuel.
Proof.
  induction dy as [|wy dy IH]; simpl; [discriminate|].
  unfold index. destruct (String.get i w); simpl; [|discriminate].
  destruct (String.get j wy); simpl; [|discriminate].
  destruct (Ascii.eqb a a0); auto. discriminate.
Qed.

Lemma lift_OutOfFuel {A} (r : result A) s : lift r s = OutOfFuel -> r = OutOfFuel.
Proof. destruct r; simpl; auto; discriminate. Qed.

Lemma revise_loop_fuel x y i j snapshot :
  forall revised s, revise_loop x y i j snapshot revised s <> OutOfFuel.
Proof.
  induction snapshot as [|u snapshot IH]; intros revised s H;
    cbn [revise_loop] in H; [discriminate|].
  apply bind_OutOfFuel in H. destruct H as [H|(dy & s1 & Hy & H)].
  { now apply get_domain_fuel in H. }
  apply bind_OutOfFuel in H. destruct H as [H|(found & s2 & Hf & H)].
  { apply lift_OutOfFuel in H. now apply any_match_fuel in H. }
  destruct found; [now apply IH in H|].
  apply bind_OutOfFuel in H. destruct H as [H|(dx & s3 & Hx & H)].
  { now apply get_domain_fuel in H. }
  apply bind_OutOfFuel in H. destruct H as [H|(? & s4 & Hs & H)].
  { discriminate. }
  now apply IH in H.
Qed.

Lemma revise_fuel cw x y s : revise cw x y s <> OutOfFuel.
Proof.
  unfold revise. destruct (overlaps cw x y) as [[i j]|]; [|discriminate].
  intros H. apply bind_OutOfFuel in H. destruct H as [H|(dx & s1 & Hx & H)].
  - now apply get_domain_fuel in H.
  - now apply revise_loop_fuel in H.
Qed.

Section Ac3.
Variable cw : Crossword.

(** One iteration of the loop, for a successful run. *)
Lemma ac3_loop_cons_Ok fuel X Y queue s b s' :
  ac3_loop cw fuel ((X, Y) :: queue) s = Ok (b, s') ->
  exists fuel' revised s1,
    fuel = S fuel' /\
    revise cw X Y s = Ok (revised, s1) /\
    ((revised = false /\ s1 = s /\
      ac3_loop cw fuel' queue s = Ok (b, s'))
     \/
     (revised = true /\
      exists dX,
        lookup X (domains s1) = Some dX /\
        ((dX = [] /\ b = false /\ s' = s1)
         \/
         (dX <> [] /\
          ac3_loop cw fuel'
            (queue ++ map (fun Z => (Z, X)) (others cw X Y)) s1
          = Ok (b, s'))))).
Proof.
  destruct fuel as [|fuel']; cbn [ac3_loop]; [discriminate|]. intros H.
  apply bind_Ok in H. destruct H as (revised & s1 & Hr & H).
  exists fuel', revised, s1. do 2 (split; auto).
  destruct revised.
  - right. split; auto.
    apply bind_Ok in H. destruct H as (dX & s2 & HX & H).
    apply get_domain_Ok in HX. destruct HX as [HX ->].
    exists dX. split; auto. destruct dX as [|w dX]; cbn in H.
    + injection H as <- <-. auto.
    + right. split; [discriminate|auto].
  - left. apply revise_unchanged in Hr as E. subst s1. auto.
Qed.

Lemma ac3_loop_star fuel :
  forall queue s b s',
    ac3_loop cw fuel queue s = Ok (b, s') -> star (prune cw) s s'.
Proof.
  induction fuel as [|fuel IH]; intros [|[X Y] queue] s b s' H;
    try (cbn in H; injection H as <- <-; apply star_refl);
    try discriminate.
  apply ac3_loop_cons_Ok in H.
  destruct H as (f & revised & s1 & [= <-] & Hr & H).
  apply revise_star in Hr.
  destruct H as [(_ & -> & H)|(_ & dX & HX & [(_ & _ & ->)|(_ & H)])];
    eauto using star_trans.
Qed.

(** A failing run stops on an empty domain. *)
Lemma ac3_loop_false fuel :
  forall queue s s',
    ac3_loop cw fuel queue s = Ok (false, s') ->
    exists X, lookup X (domains s') = Some [].
Proof.
  induction fuel as [|fuel IH]; intros [|[X Y] queue] s s' H;
    try discriminate.
  apply ac3_loop_cons_Ok in H.
  destruct H as (f & revised & s1 & [= <-] & Hr & H).
  destruct H as [(_ & -> & H)|(_ & dX & HX & [(-> & _ & ->)|(_ & H)])];
    eauto.
Qed.

Lemma degree_le_max x ks :
  In x ks -> List.length (neighbors cw x) <= max_degree cw ks.
Proof.
  unfold max_degree. intros H.
  assert (F := proj1 (list_max_le
                        (map (fun x => List.length (neighbors cw x)) ks)
                        _) (Nat.le_refl _)).
  rewrite Forall_forall in F. apply F. apply in_map_iff. eauto.
Qed.

Lemma others_length X Y :
  List.length (others cw X Y) <= List.length (neighbors cw X).
Proof. apply filter_length_le. Qed.

Lemma ac3_loop_enough fuel :
  forall queue s,
    ac3_bound cw queue s <= fuel -> ac3_loop cw fuel queue s <> OutOfFuel.
Proof.
  unfold ac3_bound.
  induction fuel as [|fuel IH]; intros [|[X Y] queue] s Hb;
    try discriminate; cbn [List.length] in Hb; try lia.
  cbn [ac3_loop]. unfold bind at 1.
  destruct (revise cw X Y s) as [[[|] s1]|e|] eqn:Hr; try discriminate.
  - pose proof (revise_size cw X Y s s1 Hr) as [Hs HX].
    pose proof (star_prune_keys cw s s1 (revise_star cw X Y s _ s1 Hr)) as K.
    unfold bind. destruct (get_domain X s1) as [[dX s2]|e|] eqn:HdX;
      [ | discriminate | now apply get_domain_fuel in HdX ].
    apply get_domain_Ok in HdX. destruct HdX as [HdX ->].
    destruct (List.length dX =? 0); [discriminate|].
    apply IH. rewrite K, length_app, length_map.
    pose proof (others_length X Y).
    pose proof (degree_le_max X _ HX).
    nia.
  - apply revise_unchanged in Hr as E. subst s1. apply IH. lia.
  - now apply revise_fuel in Hr.
Qed.

Lemma ac3_loop_more_fuel fuel :
  forall queue s fuel',
    ac3_loop cw fuel queue s <> OutOfFuel ->
    fuel <= fuel' ->
    ac3_loop cw fuel' queue s = ac3_loop cw fuel queue s.
Proof.
  induction fuel as [|fuel IH]; intros [|[X Y] queue] s fuel' H L;
    try (destruct fuel'; reflexivity).
  - now contradiction H.
  - destruct fuel' as [|fuel']; [lia|].
    cbn [ac3_loop] in *. unfold bind in *.
    destruct (revise cw X Y s) as [[[|] s1]|e|]; auto.
    + destruct (get_domain X s1) as [[dX s2]|e|]; auto.
      destruct (List.length dX =? 0); auto. apply IH; auto. lia.
    + apply IH; auto. lia.
Qed.
End Ac3.

(** * Node consistency *)

Lemma filter_idem {A} (f : A -> bool) (l : list A) :
  filter f (filter f l) = filter f l.
Proof.
  induction l as [|a l IH]; simpl; auto.
  destruct (f a) eqn:E; simpl; rewrite ?E, IH; auto.
Qed.

Lemma shrinks_lookup ds ds' z d' :
  shrinks ds ds' -> lookup z ds' = Some d' ->
  exists d, lookup z ds = Some d /\ incl d' d.
Proof.
  intros [K H] L.
  assert (I : In z (keys ds)).
  { rewrite <- K. apply lookup_keys. congruence. }
  apply lookup_keys in I. destruct (lookup z ds) as [d|] eqn:E; [|congruence].
  exists d. split; auto. destruct (H _ _ E) as (d'' & L' & I').
  rewrite L in L'. now injection L' as <-.
Qed.

Lemma shrinks_node_consistent ds ds' :
  shrinks ds ds' -> node_consistent ds -> node_consistent ds'.
Proof.
  intros S N v d' w L I.
  destruct (shrinks_lookup _ _ _ _ S L) as (d & L0 & Inc). eauto.
Qed.

Lemma for_each_node_consistent ks :
  forall s,
    incl ks (keys (domains s)) ->
    exists s',
      for_each ks node_consistent_step s = Ok (tt, s') /\
      trace s' = trace s /\
      keys (domains s') = keys (domains s) /\
      forall z d,
        lookup z (domains s) = Some d ->
        lookup z (domains s')
        = Some (if existsb (Var_eqb z) ks then filter (fits z) d else d).
Proof.
  induction ks as [|k ks IH]; intros s Hk.
  - exists s. cbn. auto.
  - assert (Ik : In k (keys (domains s))) by (apply Hk; now left).
    apply lookup_keys in Ik.
    destruct (lookup k (domains s)) as [dk|] eqn:Lk; [clear Ik|congruence].
    set (s1 := mkState (dict_set k (filter (fits k) dk) (domains s)) (trace s)).
    assert (K1 : keys (domains s1) = keys (domains s)).
    { apply keys_dict_set. unfold mem. now rewrite Lk. }
    destruct (IH s1) as (s' & Hrun & Ht & Hkeys & Hl).
    { rewrite K1. intros z Hz. apply Hk. now right. }
    exists s'. split; [|split; [|split]].
    + cbn [for_each]. unfold bind at 1. unfold node_consistent_step.
      unfold bind at 1. unfold get_domain. rewrite Lk.
      unfold set_domain. exact Hrun.
    + rewrite Ht. reflexivity.
    + congruence.
    + intros z d Lz. cbn [existsb].
      destruct (Var_eqb z k) eqn:E.
      * apply Var_eqb_eq in E. subst z. rewrite Lz in Lk.
        injection Lk as <-.
        rewrite (Hl k (filter (fits k) d)) by apply lookup_dict_set_eq.
        cbn [orb]. rewrite filter_idem.
        now destruct (existsb (Var_eqb k) ks).
      * apply Var_eqb_neq in E. cbn [orb]. apply Hl.
        cbn [s1 domains]. now rewrite lookup_dict_set_neq.
Qed.

Lemma enforce_node_consistency_run s :
  exists s',
    enforce_node_consistency s = Ok (tt, s') /\
    trace s' = trace s ++ [Call_enforce_node_consistency] /\
    keys (domains s') = keys (domains s) /\
    forall z d,
      lookup z (domains s) = Some d ->
      lookup z (domains s') = Some (filter (fits z) d).
Proof.
  set (s0 := mkState (domains s) (trace s ++ [Call_enforce_node_consistency])).
  destruct (for_each_node_consistent (keys (domains s0)) s0 (incl_refl _))
    as (s' & Hrun & Ht & Hk & Hl).
  exists s'. split; [|split; [|split]]; auto.
  intros z d Lz. rewrite (Hl z d Lz).
  assert (I : In z (keys (domains s))) by (apply lookup_keys; congruence).
  assert (E : existsb (Var_eqb z) (keys (domains s0)) = true).
  { apply existsb_exists. exists z. split; auto. apply Var_eqb_refl. }
  now rewrite E.
Qed.

Lemma enforce_node_consistency_post s s' :
  enforce_node_consistency s = Ok (tt, s') ->
  node_consistent (domains s') /\ shrinks (domains s) (domains s').
Proof.
  intros H. destruct (enforce_node_consistency_run s) as (s1 & R & _ & K & L).
  rewrite R in H. injection H as <-. split.
  - intros v d w Lv Iw.
    assert (I : In v (keys (domains s))).
    { rewrite <- K. apply lookup_keys. congruence. }
    apply lookup_keys in I.
    destruct (lookup v (domains s)) as [d0|] eqn:E; [|congruence].
    rewrite (L v d0 E) in Lv. injection Lv as <-.
    apply filter_In in Iw. destruct Iw as [_ F]. now apply Nat.eqb_eq in F.
  - split; auto. intros z d Lz. exists (filter (fits z) d). split; auto.
    intros w Hw. apply filter_In in Hw. tauto.
Qed.

(** * AC-3 as a whole *)

Lemma ac3_unfold cw fuel arcs s :
  ac3 cw fuel arcs s
  = ac3_loop cw fuel (ac3_queue cw arcs s) (logged (Call_ac3 arcs) s).
Proof. unfold ac3, bind, log. destruct arcs; reflexivity. Qed.

Lemma ac3_star cw fuel arcs s b s' :
  ac3 cw fuel arcs s = Ok (b, s') ->
  star (prune cw) (logged (Call_ac3 arcs) s) s'.
Proof. rewrite ac3_unfold. apply ac3_loop_star. Qed.

Lemma ac3_shrinks cw fuel arcs s b s' :
  ac3 cw fuel arcs s = Ok (b, s') -> shrinks (domains s) (domains s').
Proof.
  intros H. apply ac3_star in H. now apply star_prune_shrinks in H.
Qed.

(** C9: [ac3] terminates: beyond an explicit bound it returns the same
    result, which is not the running out of fuel; and a revision that returns
    True, the only one followed by enqueuing, strictly shrinks the store. *)
Theorem ac3_terminates (cw : Crossword) (arcs : option (list arc)) (s : State) :
  (exists r,
      r <> OutOfFuel /\
      forall fuel,
        ac3_bound cw (ac3_queue cw arcs s) s <= fuel ->
        ac3 cw fuel arcs s = r)
  /\
  (forall X Y s1 s2,
      revise cw X Y s1 = Ok (true, s2) ->
      store_size (domains s2) < store_size (domains s1)).
Proof.
  split.
  - set (n := ac3_bound cw (ac3_queue cw arcs s) s).
    exists (ac3 cw n arcs s).
    assert (E : ac3 cw n arcs s <> OutOfFuel).
    { rewrite ac3_unfold. apply ac3_loop_enough. apply Nat.le_refl. }
    split; auto.
    intros fuel L. rewrite !ac3_unfold. apply ac3_loop_more_fuel; auto.
    now rewrite <- ac3_unfold.
  - intros X Y s1 s2 H. now apply revise_size in H.
Qed.

(** * The consistency checker *)

Lemma nodup_length_le (l : list string) :
  List.length (nodup string_dec l) <= List.length l.
Proof.
  apply NoDup_incl_length; [apply NoDup_nodup|].
  intros x H. now apply nodup_In in H.
Qed.

Lemma nodup_length_NoDup (l : list string) :
  List.length (nodup string_dec l) = List.length l <-> NoDup l.
Proof.
  split.
  - induction l as [|a l IH]; simpl; [constructor|].
    destruct (in_dec string_dec a l) as [I|N]; simpl.
    + pose proof (nodup_length_le l). lia.
    + intros E. constructor; auto.
  - intros H. now rewrite nodup_fixed_point.
Qed.

Section Consistent.
Variable cw : Crossword.

Lemma no_conflict_true a var ns :
  no_conflict cw a var ns = Ok true ->
  forall n wv wn i j,
    In n ns -> lookup var a = Some wv -> lookup n a = Some wn ->
    overlaps cw var n = Some (i, j) -> agree i j wv wn = true.
Proof.
  induction ns as [|m ns IH]; cbn [no_conflict]; [intros _ ? ? ? ? ? []|].
  intros H n wv wn i j [->|I] Lv Ln Ho.
  - rewrite Ln, Ho, Lv in H. cbn [rbind] in H. unfold index, agree in *.
    destruct (String.get i wv); [|discriminate].
    destruct (String.get j wn); [|discriminate]. cbn [rbind] in H.
    destruct (Ascii.eqb a0 a1); auto. discriminate.
  - destruct (lookup m a) as [wm|]; [|eauto].
    destruct (overlaps cw var m) as [[i' j']|]; [|eauto].
    destruct (lookup var a) as [wv'|]; [|discriminate]. cbn [rbind] in H.
    destruct (index wv' i'); [|discriminate|discriminate].
    destruct (index wm j'); [|discriminate|discriminate]. cbn [rbind] in H.
    destruct (Ascii.eqb a0 a1); [eauto|discriminate].
Qed.

Lemma no_conflict_false a var ns :
  no_conflict cw a var ns = Ok false ->
  exists n wv wn i j,
    In n ns /\ lookup var a = Some wv /\ lookup n a = Some wn /\
    overlaps cw var n = Some (i, j) /\ agree i j wv wn = false.
Proof.
  induction ns as [|m ns IH]; cbn [no_conflict]; [discriminate|].
  intros H.
  assert (R : no_conflict cw a var ns = Ok false ->
              exists n wv wn i j,
                In n (m :: ns) /\ lookup var a = Some wv /\
                lookup n a = Some wn /\
                overlaps cw var n = Some (i, j) /\ agree i j wv wn = false).
  { intros H'. destruct (IH H') as (n & wv & wn & i & j & I & R).
    exists n, wv, wn, i, j. split; auto. now right. }
  destruct (lookup m a) as [wm|] eqn:Lm; [|auto].
  destruct (overlaps cw var m) as [[i j]|] eqn:Ho; [|auto].
  destruct (lookup var a) as [wv|] eqn:Lv; [|discriminate].
  cbn [rbind] in H. unfold index in H.
  destruct (String.get i wv) as [cv|] eqn:Gv; [|discriminate].
  destruct (String.get j wm) as [cm|] eqn:Gm; [|discriminate].
  cbn [rbind] in H. destruct (Ascii.eqb cv cm) eqn:E; [auto|].
  exists m, wv, wm, i, j. repeat split; auto; [now left|].
  unfold agree. now rewrite Gv, Gm.
Qed.

Lemma no_conflicts_true a vars :
  no_conflicts cw a vars = Ok true ->
  forall var, In var vars -> no_conflict cw a var (neighbors cw var) = Ok true.
Proof.
  induction vars as [|v vars IH]; cbn [no_conflicts]; [intros _ ? []|].
  intros H var [->|I].
  - destruct (no_conflict cw a var (neighbors cw var)) as [[|]| |];
      auto; discriminate.
  - destruct (no_conflict cw a v (neighbors cw v)) as [[|]| |];
      try discriminate. cbn [rbind] in H. auto.
Qed.

Lemma no_conflicts_false a vars :
  no_conflicts cw a vars = Ok false ->
  exists var, In var vars /\
              no_conflict cw a var (neighbors cw var) = Ok false.
Proof.
  induction vars as [|v vars IH]; cbn [no_conflicts]; [discriminate|].
  intros H.
  destruct (no_conflict cw a v (neighbors cw v)) as [[|]| |] eqn:E;
    try discriminate; cbn [rbind] in H.
  - destruct (IH H) as (var & I & R). exists var. split; auto. now right.
  - exists v. split; auto. now left.
Qed.

Lemma lengths_forallb (a : Assignment) :
  forallb (fun vw => String.length (snd vw) =? v_length (fst vw)) a = true
  <-> forall v w, In (v, w) a -> String.length w = v_length v.
Proof.
  rewrite forallb_forall. split.
  - intros H v w I. apply Nat.eqb_eq. exact (H (v, w) I).
  - intros H [v w] I. apply Nat.eqb_eq. cbn. auto.
Qed.

Lemma consistent_true a : consistent cw a = Ok true -> valid cw a.
Proof.
  unfold consistent.
  destruct (List.length (nodup string_dec (values a)) =? List.length a)
    eqn:E1; cbn [negb]; [|discriminate].
  match goal with
  | |- context [forallb ?f a] => destruct (forallb f a) eqn:E2
  end; cbn [negb]; [|discriminate].
  intros H. constructor.
  - apply nodup_length_NoDup. apply Nat.eqb_eq in E1.
    unfold values. now rewrite length_map.
  - now apply lengths_forallb.
  - intros var n wv wn i j Iv In' Lv Ln Ho.
    eapply no_conflict_true; eauto. eapply no_conflicts_true; eauto.
Qed.

Lemma consistent_false a : consistent cw a = Ok false -> ~ valid cw a.
Proof.
  unfold consistent. intros H [V1 V2 V3].
  apply nodup_length_NoDup in V1. unfold values in V1 at 2.
  rewrite length_map in V1. apply Nat.eqb_eq in V1.
  rewrite V1 in H. cbn [negb] in H.
  apply lengths_forallb in V2. rewrite V2 in H. cbn [negb] in H.
  apply no_conflicts_false in H. destruct H as (var & Iv & H).
  apply no_conflict_false in H.
  destruct H as (n & wv & wn & i & j & In' & Lv & Ln & Ho & Ag).
  rewrite (V3 var n wv wn i j) in Ag; auto. discriminate.
Qed.

Lemma consistent_fuel a : consistent cw a <> OutOfFuel.
Proof.
  unfold consistent.
  destruct (negb _); [discriminate|]. destruct (negb _); [discriminate|].
  induction (keys a) as [|v vars IH]; cbn [no_conflicts]; [discriminate|].
  assert (F : forall ns, no_conflict cw a v ns <> OutOfFuel).
  { induction ns as [|m ns IHn]; cbn [no_conflict]; [discriminate|].
    destruct (lookup m a) as [wm|]; auto.
    destruct (overlaps cw v m) as [[i j]|]; auto.
    destruct (lookup v a) as [wv|]; [|discriminate]. cbn [rbind].
    unfold index. destruct (String.get i wv); [|discriminate].
    destruct (String.get j wm); [|discriminate]. cbn [rbind].
    destruct (Ascii.eqb _ _); auto. discriminate. }
  destruct (no_conflict cw a v (neighbors cw v)) as [[|]|e|] eqn:E;
    cbn [rbind]; auto; try discriminate. now apply F in E.
Qed.
End Consistent.

(** * Sorting by key *)

Section SortFacts.
Variable A : Type.
Implicit Types (l : list (A * nat)) (x : A * nat).

Lemma insert_by_key_perm x l : Permutation (insert_by_key x l) (x :: l).
Proof.
  induction l as [|y l IH]; cbn [insert_by_key]; auto.
  destruct (snd x <=? snd y); auto.
  rewrite IH. apply perm_swap.
Qed.

Lemma sort_by_key_perm l : Permutation (sort_by_key l) l.
Proof.
  induction l as [|x l IH]; cbn [sort_by_key]; auto.
  rewrite insert_by_key_perm. now constructor.
Qed.

Lemma sort_by_key_head l x r :
  sort_by_key l = x :: r -> forall y, In y l -> snd x <= snd y.
Proof.
  revert x r. induction l as [|z l IH]; intros x r E y I; [destruct I|].
  cbn [sort_by_key] in E.
  destruct (sort_by_key l) as [|x' r'] eqn:S.
  - cbn in E. injection E as <- <-.
    assert (l = []) as ->.
    { pose proof (sort_by_key_perm l) as P. rewrite S in P.
      now apply Permutation_nil in P. }
    destruct I as [->|[]]. lia.
  - cbn [insert_by_key] in E.
    destruct (snd z <=? snd x') eqn:L.
    + injection E as <- <-. apply Nat.leb_le in L.
      destruct I as [->|I]; [lia|].
      specialize (IH x' r' eq_refl y I). lia.
    + injection E as <- <-. apply Nat.leb_gt in L.
      destruct I as [->|I]; [lia|]. exact (IH x' r' eq_refl y I).
Qed.

Lemma map_fst_combine (l : list A) (ks : list nat) :
  List.length ks = List.length l -> map fst (combine l ks) = l.
Proof.
  revert ks. induction l as [|a l IH]; intros [|k ks]; cbn; auto;
    try discriminate.
  intros [= E]. now rewrite IH.
Qed.

Lemma sorted_perm (l : list A) (ks : list nat) :
  List.length ks = List.length l -> Permutation (sorted l ks) l.
Proof.
  intros E. unfold sorted.
  rewrite <- (map_fst_combine l ks E) at 2.
  apply Permutation_map, sort_by_key_perm.
Qed.

Lemma combine_map (f : A -> nat) (l : list A) :
  combine l (map f l) = map (fun a => (a, f a)) l.
Proof. induction l; cbn; congruence. Qed.

Lemma sorted_head (f : A -> nat) (l : list A) a r :
  sorted l (map f l) = a :: r ->
  In a l /\ forall b, In b l -> f a <= f b.
Proof.
  unfold sorted. rewrite combine_map.
  destruct (sort_by_key (map (fun a => (a, f a)) l)) as [|[a' k] r'] eqn:S;
    [discriminate|].
  cbn [map fst]. intros [= <- <-].
  assert (I : In (a', k) (map (fun a => (a, f a)) l)).
  { eapply Permutation_in; [apply sort_by_key_perm|]. rewrite S. now left. }
  apply in_map_iff in I. destruct I as (a0 & [= <- <-] & I).
  split; auto. intros b Ib.
  apply (sort_by_key_head _ _ _ S (b, f b)).
  apply in_map_iff. eauto.
Qed.
End SortFacts.

(** * Variable selection *)

Lemma domain_size_run x s :
  lookup x (domains s) <> None ->
  domain_size x s = Ok (dom_size (domains s) x, s).
Proof.
  unfold domain_size, bind, get_domain, dom_size.
  destruct (lookup x (domains s)); [reflexivity|congruence].
Qed.

Lemma domain_size_Ok x s n s' :
  domain_size x s = Ok (n, s') -> lookup x (domains s) <> None.
Proof.
  unfold domain_size, bind, get_domain.
  destruct (lookup x (domains s)); [discriminate|discriminate].
Qed.

Lemma mapM_domain_size_run l s :
  (forall x, In x l -> lookup x (domains s) <> None) ->
  mapM domain_size l s = Ok (map (dom_size (domains s)) l, s).
Proof.
  induction l as [|x l IH]; intros H; cbn [mapM map]; auto.
  unfold bind at 1. rewrite domain_size_run by (apply H; now left).
  unfold bind at 1. rewrite IH by (intros; apply H; now right).
  reflexivity.
Qed.

Lemma mapM_domain_size_Ok l :
  forall s r s',
    mapM domain_size l s = Ok (r, s') ->
    forall x, In x l -> lookup x (domains s) <> None.
Proof.
  induction l as [|y l IH]; intros s r s' H x I; [destruct I|].
  cbn [mapM] in H. apply bind_Ok in H. destruct H as (n & s1 & Hn & H).
  pose proof (domain_size_Ok _ _ _ _ Hn) as D.
  rewrite (domain_size_run _ _ D) in Hn. injection Hn as <- <-.
  apply bind_Ok in H. destruct H as (ns & s2 & Hns & H).
  destruct I as [->|I]; eauto.
Qed.

Section Select.
Variable cw : Crossword.

Lemma py_gt_same (s : list Var) : py_gt s (PySet s) = Ok false.
Proof. cbn. now rewrite andb_negb_r. Qed.

Lemma degree_loop_const mnrm m0 rest result_value :
  list_index mnrm 0 = Ok m0 ->
  degree_loop cw mnrm rest result_value (PySet (neighbors cw m0))
  = Ok result_value.
Proof.
  intros H0. induction rest as [|other rest IH]; cbn [degree_loop]; auto.
  rewrite H0. cbn [rbind]. rewrite py_gt_same. cbn [rbind]. exact IH.
Qed.

Lemma filterM_run {A} (f : A -> M bool) (g : A -> bool) s l :
  (forall x, In x l -> f x s = Ok (g x, s)) ->
  filterM f l s = Ok (filter g l, s).
Proof.
  induction l as [|x l IH]; intros D; cbn [filterM filter]; auto.
  unfold bind at 1. rewrite D by now left.
  unfold bind at 1. rewrite IH by (intros; apply D; now right).
  reflexivity.
Qed.

Lemma filterM_sizes_run mnrm m0 s l :
  list_index mnrm 0 = Ok m0 ->
  lookup m0 (domains s) <> None ->
  (forall x, In x l -> lookup x (domains s) <> None) ->
  filterM
    (fun x =>
       n <- domain_size x ;;
       m0 <- lift (list_index mnrm 0) ;;
       n0 <- domain_size m0 ;;
       ret (n =? n0))
    l s
  = Ok (filter (fun x => dom_size (domains s) x =? dom_size (domains s) m0) l,
        s).
Proof.
  intros H0 D0 D. apply filterM_run. intros x I.
  unfold bind at 1. rewrite domain_size_run by auto.
  unfold bind at 1. rewrite H0. cbn [lift].
  unfold bind at 1. rewrite domain_size_run by auto. reflexivity.
Qed.

Lemma select_unfold a s :
  (forall x, In x (unassigned_vars cw a) -> lookup x (domains s) <> None) ->
  select_unassigned_variable cw a s
  = match mrv_order cw (domains s) a with
    | [] => Raise IndexError
    | v :: _ => Ok (v, s)
    end.
Proof.
  intros D. unfold select_unassigned_variable.
  fold (unassigned_vars cw a).
  unfold bind at 1. rewrite mapM_domain_size_run by auto.
  fold (mrv_order cw (domains s) a).
  assert (P : Permutation (mrv_order cw (domains s) a) (unassigned_vars cw a)).
  { apply sorted_perm. now rewrite length_map. }
  destruct (mrv_order cw (domains s) a) as [|m0 rest] eqn:E.
  - reflexivity.
  - assert (D' : forall x, In x (m0 :: rest) -> lookup x (domains s) <> None).
    { intros x I. apply D. eapply Permutation_in; eauto. }
    unfold bind at 1.
    rewrite (filterM_sizes_run (m0 :: rest) m0) by (auto; apply D'; now left).
    cbn [filter]. rewrite Nat.eqb_refl.
    destruct (List.length (m0 :: _) =? 1); [reflexivity|].
    cbn [list_index nth_error lift]. unfold bind. cbn [skipn lift].
    rewrite degree_loop_const by reflexivity. reflexivity.
Qed.

Lemma select_Ok a s v s' :
  select_unassigned_variable cw a s = Ok (v, s') ->
  s' = s /\ exists rest, mrv_order cw (domains s) a = v :: rest.
Proof.
  intros H.
  assert (D : forall x, In x (unassigned_vars cw a) ->
                        lookup x (domains s) <> None).
  { unfold select_unassigned_variable in H. apply bind_Ok in H.
    destruct H as (sizes & s1 & Hs & _).
    eapply mapM_domain_size_Ok; eauto. }
  rewrite select_unfold in H by auto.
  destruct (mrv_order cw (domains s) a) as [|m0 rest]; [discriminate|].
  injection H as <- <-. eauto.
Qed.

Lemma mrv_order_head ds a v rest :
  mrv_order cw ds a = v :: rest ->
  In v (variables cw) /\ mem v a = false /\
  forall u, In u (variables cw) -> mem u a = false ->
            dom_size ds v <= dom_size ds u.
Proof.
  unfold mrv_order. intros H. apply sorted_head in H.
  destruct H as [I Hmin]. unfold unassigned_vars in I.
  apply filter_In in I. destruct I as [I Hm].
  apply negb_true_iff in Hm. repeat split; auto.
  intros u Iu Hu. apply Hmin. apply filter_In. split; auto.
  now rewrite Hu.
Qed.
End Select.

(** [select_unassigned_variable] returns an unassigned variable whose domain
    is as small as any. *)
Lemma select_minimum_remaining_values cw a s v s' :
  select_unassigned_variable cw a s = Ok (v, s') ->
  In v (variables cw) /\ mem v a = false /\
  forall u, In u (variables cw) -> mem u a = false ->
            dom_size (domains s) v <= dom_size (domains s) u.
Proof.
  intros H. apply select_Ok in H. destruct H as [_ (rest & H)].
  eapply mrv_order_head; eauto.
Qed.

(** It returns on every assignment that is not complete. *)
Lemma select_total cw a s :
  keys (domains s) = variables cw ->
  assignment_complete cw a = false ->
  exists v, select_unassigned_variable cw a s = Ok (v, s).
Proof.
  intros K C.
  assert (D : forall x, In x (unassigned_vars cw a) ->
                        lookup x (domains s) <> None).
  { intros x I. apply filter_In in I. destruct I as [I _].
    apply lookup_keys. now rewrite K. }
  rewrite select_unfold by exact D.
  destruct (mrv_order cw (domains s) a) as [|v rest] eqn:E; [|eauto].
  exfalso.
  pose proof (sorted_perm _ (unassigned_vars cw a)
                (map (dom_size (domains s)) (unassigned_vars cw a))
                (length_map _ _)) as P.
  fold (mrv_order cw (domains s) a) in P. rewrite E in P.
  apply Permutation_nil in P.
  unfold assignment_complete in C.
  assert (F : forallb (fun v => mem v a) (variables cw) = true).
  { apply forallb_forall. intros x Ix.
    destruct (mem x a) eqn:Hm; auto. exfalso.
    assert (I : In x (unassigned_vars cw a)).
    { apply filter_In. split; auto. now rewrite Hm. }
    rewrite P in I. destruct I. }
  congruence.
Qed.

(** * Value ordering *)

Lemma mapM_readonly {A B} (f : A -> M B) (l : list A) :
  (forall a s b s', f a s = Ok (b, s') -> s' = s) ->
  forall s bs s',
    mapM f l s = Ok (bs, s') -> s' = s /\ List.length bs = List.length l.
Proof.
  intros F. induction l as [|a l IH]; intros s bs s' H; cbn [mapM] in H.
  - injection H as <- <-. auto.
  - apply bind_Ok in H. destruct H as (b & s1 & Hb & H).
    apply F in Hb as ->.
    apply bind_Ok in H. destruct H as (bs' & s2 & Hbs & H).
    apply IH in Hbs. destruct Hbs as [-> L].
    injection H as <- <-. cbn. auto.
Qed.

Section Order.
Variable cw : Crossword.

Lemma eliminations_of_Ok var w ns :
  forall e s n s', eliminations_of cw var w ns e s = Ok (n, s') -> s' = s.
Proof.
  induction ns as [|m ns IH]; intros e s n s' H; cbn [eliminations_of] in H.
  - now injection H as _ <-.
  - destruct (overlaps cw var m) as [[x_over y_over]|]; [|eauto].
    apply bind_Ok in H. destruct H as (dn & s1 & Hd & H).
    apply get_domain_Ok in Hd. destruct Hd as [_ ->].
    apply bind_Ok in H. destruct H as (e' & s2 & He & H).
    apply lift_Ok in He. destruct He as [_ ->]. eauto.
Qed.

Lemma order_domain_values_Ok var a s vals s' :
  order_domain_values cw var a s = Ok (vals, s') ->
  s' = s /\
  exists dv, lookup var (domains s) = Some dv /\ Permutation vals dv.
Proof.
  unfold order_domain_values. intros H.
  apply bind_Ok in H. destruct H as (dv & s1 & Hd & H).
  apply get_domain_Ok in Hd. destruct Hd as [Hd ->].
  apply bind_Ok in H. destruct H as (ks & s2 & Hk & H).
  apply mapM_readonly in Hk; [|intros; eapply eliminations_of_Ok; eauto].
  destruct Hk as [-> L].
  apply bind_Ok in H. destruct H as (dv' & s3 & Hd' & H).
  apply get_domain_Ok in Hd'. destruct Hd' as [Hd' ->].
  injection H as <- <-. split; auto.
  rewrite Hd in Hd'. injection Hd' as <-.
  exists dv. split; auto. now apply sorted_perm.
Qed.

Lemma order_domain_values_empty var a s :
  lookup var (domains s) = Some [] ->
  order_domain_values cw var a s = Ok ([], s).
Proof.
  intros H. unfold order_domain_values, bind, get_domain. rewrite H.
  cbn. now rewrite H.
Qed.
End Order.

(** * Backtracking search *)

Section Backtrack.
Variable cw : Crossword.

(** One call of [backtrack] that returns. *)
Lemma backtrack_S_Ok fuel a s r s' :
  backtrack cw (S fuel) a s = Ok (r, s') ->
  (assignment_complete cw a = true /\ r = Some a /\
   s' = logged (Call_backtrack a) s)
  \/
  (assignment_complete cw a = false /\
   exists var rest vals dv,
     mrv_order cw (domains s) a = var :: rest /\
     lookup var (domains s) = Some dv /\
     Permutation vals dv /\
     try_values cw (backtrack cw fuel) var a vals
       (logged (Call_backtrack a) s)
     = Ok (r, s')).
Proof.
  cbn [backtrack]. unfold bind at 1. cbn [log].
  fold (logged (Call_backtrack a) s).
  destruct (assignment_complete cw a).
  - intros [= <- <-]. left. auto.
  - intros H. right. split; auto.
    apply bind_Ok in H. destruct H as (var & s1 & Hv & H).
    apply select_Ok in Hv. destruct Hv as [-> (rest & Hv)].
    apply bind_Ok in H. destruct H as (vals & s2 & Ho & H).
    apply order_domain_values_Ok in Ho.
    destruct Ho as [-> (dv & Hd & P)].
    exists var, rest, vals, dv. auto.
Qed.

(** One candidate value of the loop of [backtrack], for a run that
    returns. *)
Lemma try_values_cons_Ok rec var a value vals s r s' :
  try_values cw rec var a (value :: vals) s = Ok (r, s') ->
  (consistent cw (dict_set var value a) = Ok false /\
   try_values cw rec var a vals s = Ok (r, s'))
  \/
  (consistent cw (dict_set var value a) = Ok true /\
   exists r1 s1,
     rec (dict_set var value a) s = Ok (r1, s1) /\
     match r1 with
     | Some _ => r = r1 /\ s' = s1
     | None => try_values cw rec var a vals s1 = Ok (r, s')
     end).
Proof.
  cbn [try_values]. intros H.
  apply bind_Ok in H. destruct H as (ok & s1 & Hc & H).
  apply lift_Ok in Hc. destruct Hc as [Hc ->].
  destruct ok; [right|left; auto]. split; auto.
  apply bind_Ok in H. destruct H as (r1 & s1 & Hr & H).
  exists r1, s1. split; auto.
  destruct r1; auto. injection H as <- <-. auto.
Qed.

Lemma try_values_sound rec var a vals :
  sound_rec cw rec ->
  forall s r s',
    try_values cw rec var a vals s = Ok (Some r, s') ->
    assignment_complete cw r = true /\ consistent cw r = Ok true.
Proof.
  intros R. induction vals as [|value vals IH]; intros s r s' H.
  - discriminate.
  - apply try_values_cons_Ok in H.
    destruct H as [[_ H]|[Hc (r1 & s1 & Hr & H)]]; [eauto|].
    destruct r1 as [r1|]; [|eauto].
    destruct H as [[= ->] ->]. apply R in Hr.
    destruct Hr as [C [->|Hr]]; auto.
Qed.

Lemma backtrack_sound fuel : sound_rec cw (backtrack cw fuel).
Proof.
  induction fuel as [|fuel IH]; intros a s r s' H; [discriminate|].
  apply backtrack_S_Ok in H.
  destruct H as [(C & [= ->] & _)|(_ & var & rest & vals & dv & _ & _ & _ & H)].
  - auto.
  - apply (try_values_sound _ _ _ _ IH) in H. tauto.
Qed.

Lemma try_values_frame rec var a vals :
  frame_rec rec ->
  forall s r s',
    try_values cw rec var a vals s = Ok (r, s') -> domains s' = domains s.
Proof.
  intros R. induction vals as [|value vals IH]; intros s r s' H.
  - now injection H as _ <-.
  - apply try_values_cons_Ok in H.
    destruct H as [[_ H]|[Hc (r1 & s1 & Hr & H)]]; [eauto|].
    apply R in Hr. destruct r1 as [r1|].
    + destruct H as [_ ->]. auto.
    + apply IH in H. congruence.
Qed.

Lemma backtrack_frame fuel : frame_rec (backtrack cw fuel).
Proof.
  induction fuel as [|fuel IH]; intros a s r s' H; [discriminate|].
  apply backtrack_S_Ok in H.
  destruct H as [(_ & _ & ->)|(_ & var & rest & vals & dv & _ & _ & _ & H)].
  - reflexivity.
  - apply (try_values_frame _ _ _ _ IH) in H. exact H.
Qed.
End Backtrack.

(** * Solutions of a puzzle *)

Lemma lookup_const_map (ws : list word) (l : list Var) v d :
  lookup v (map (fun var => (var, ws)) l) = Some d -> d = ws.
Proof.
  induction l as [|u l IH]; cbn; [discriminate|].
  destruct (Var_eqb v u); [now intros [= <-]|auto].
Qed.

Lemma keys_init cw : keys (domains (init cw)) = variables cw.
Proof.
  cbn. unfold keys. rewrite map_map. cbn. apply map_id.
Qed.

Section Completeness.
Variable cw : Crossword.
Variable a : Assignment.
Hypothesis Sol : solution cw a.

Lemma part_of_nil : part_of cw a [].
Proof. split; [constructor|intros ? ? []]. Qed.

Lemma part_of_set p var w :
  part_of cw a p -> In var (variables cw) -> mem var p = false ->
  lookup var a = Some w -> part_of cw a (dict_set var w p).
Proof.
  intros [ND H] Iv Hm La. unfold mem in Hm.
  destruct (lookup var p) eqn:L; [discriminate|].
  rewrite dict_set_new by auto. split.
  - unfold keys. rewrite map_app. cbn [map fst].
    apply NoDup_app; auto.
    + constructor; [intros []|constructor].
    + intros x Ix [<-|[]]. apply lookup_keys in Ix. auto.
  - intros v w' I. apply in_app_or in I. destruct I as [I|[[= <- <-]|[]]];
      auto.
Qed.

Lemma part_of_valid p : part_of cw a p -> valid cw p.
Proof.
  intros [ND H]. constructor.
  - revert ND H. induction p as [|[v w] p IH]; intros ND H; cbn;
      [constructor|].
    inversion ND as [|? ? N ND']; subst. constructor.
    + intros Iw. apply in_map_iff in Iw. destruct Iw as ([v' w'] & E & I).
      cbn in E. subst w'.
      destruct (H v w (or_introl eq_refl)) as [I1 L1].
      destruct (H v' w (or_intror I)) as [I2 L2].
      assert (v = v') by (eapply (sol_distinct _ _ Sol); eauto). subst v'.
      apply N. change (In v (keys p)). apply in_map_iff. now exists (v, w).
    + apply IH; auto. intros; apply H; now right.
  - intros v w I. destruct (H v w I). eapply (sol_length _ _ Sol); eauto.
  - intros var n wv wn i j Iv In' Lv Ln Ho.
    apply lookup_In in Lv, Ln.
    destruct (H _ _ Lv), (H _ _ Ln).
    exact (sol_overlap _ _ Sol var n i j wv wn ltac:(auto) ltac:(auto) Ho
             ltac:(auto) ltac:(auto)).
Qed.

Lemma try_values_None rec var p w vals :
  frame_rec rec ->
  forall s s',
    try_values cw rec var p vals s = Ok (None, s') ->
    In w vals ->
    consistent cw (dict_set var w p) = Ok false \/
    exists s1 s2,
      domains s1 = domains s /\
      rec (dict_set var w p) s1 = Ok (None, s2).
Proof.
  intros F. induction vals as [|value vals IH]; intros s s' H I;
    [destruct I|].
  apply try_values_cons_Ok in H.
  destruct H as [[Hc H]|[Hc (r1 & s1 & Hr & H)]].
  - destruct I as [->|I]; eauto.
  - destruct r1 as [r1|]; [destruct H; discriminate|].
    destruct I as [->|I]; [right; eauto|].
    destruct (IH _ _ H I) as [?|(t1 & t2 & D & R)]; auto.
    right. exists t1, t2. split; auto. apply F in Hr. congruence.
Qed.

(** Completeness of the search: it does not fail on a partial assignment
    that a solution extends. *)
Lemma backtrack_complete fuel :
  forall p s s',
    part_of cw a p -> keeps cw a (domains s) ->
    backtrack cw fuel p s = Ok (None, s') -> False.
Proof.
  induction fuel as [|fuel IH]; intros p s s' Hp Hk H; [discriminate|].
  apply backtrack_S_Ok in H.
  destruct H as [(_ & [=] & _)|(_ & var & rest & vals & dv & Hv & Hd & P & H)].
  apply mrv_order_head in Hv. destruct Hv as (Iv & Hm & _).
  destruct (sol_complete _ _ Sol var Iv) as [w Lw].
  assert (Iw : In w vals).
  { eapply Permutation_in; [apply Permutation_sym; eauto|]. eapply Hk; eauto. }
  pose proof (part_of_set p var w Hp Iv Hm Lw) as Hp'.
  destruct (try_values_None _ var p w vals (backtrack_frame cw fuel) _ _ H Iw)
    as [Hc|(s1 & s2 & D & R)].
  - apply consistent_false in Hc. apply Hc. now apply part_of_valid.
  - apply (IH _ s1 s2 Hp'); auto. rewrite D. exact Hk.
Qed.

Lemma keeps_init : keeps cw a (domains (init cw)).
Proof.
  intros v w d Iv La Ld. cbn in Ld.
  apply lookup_const_map in Ld. subst d. eapply (sol_pool _ _ Sol); eauto.
Qed.

Lemma keeps_enforce s s' :
  keeps cw a (domains s) ->
  enforce_node_consistency s = Ok (tt, s') -> keeps cw a (domains s').
Proof.
  intros Hk H.
  destruct (enforce_node_consistency_run s) as (s1 & R & _ & K & L).
  rewrite R in H. injection H as <-.
  intros v w d Iv La Ld.
  assert (I : In v (keys (domains s))).
  { rewrite <- K. apply lookup_keys. congruence. }
  apply lookup_keys in I.
  destruct (lookup v (domains s)) as [d0|] eqn:E; [|congruence].
  rewrite (L v d0 E) in Ld. injection Ld as <-.
  apply filter_In. split; [eapply Hk; eauto|].
  apply Nat.eqb_eq. eapply (sol_length _ _ Sol); eauto.
Qed.

Lemma keeps_prune s s' :
  incl (keys (domains s)) (variables cw) ->
  keeps cw a (domains s) -> prune cw s s' -> keeps cw a (domains s').
Proof.
  intros Hkeys Hk (x & y & i & j & Ho & wx & dx & dy & Lx & Ly & Hm & ->).
  intros v w d Iv La Ld. cbn [domains] in Ld.
  destruct (Var_eq_dec v x) as [->|N].
  - rewrite lookup_dict_set_eq in Ld. injection Ld as <-.
    apply filter_In. split; [eapply Hk; eauto|].
    apply negb_true_iff. apply String.eqb_neq. intros ->.
    assert (Iy : In y (variables cw)).
    { apply Hkeys. apply lookup_keys. congruence. }
    destruct (sol_complete _ _ Sol y Iy) as [wy Lwy].
    apply any_match_Ok in Hm. symmetry in Hm.
    unfold has_support in Hm.
    assert (T : existsb (agree i j wx) dy = true).
    { apply existsb_exists. exists wy. split; [eapply Hk; eauto|].
      exact (sol_overlap _ _ Sol x y i j wx wy Iv Iy Ho La Lwy). }
    congruence.
  - rewrite lookup_dict_set_neq in Ld by auto. eapply Hk; eauto.
Qed.

Lemma keeps_star_prune s s' :
  incl (keys (domains s)) (variables cw) ->
  keeps cw a (domains s) -> star (prune cw) s s' -> keeps cw a (domains s').
Proof.
  intros Hkeys Hk S. induction S as [|s s1 s' R S IH]; auto.
  apply IH.
  - apply prune_keys in R. now rewrite R.
  - eapply keeps_prune; eauto.
Qed.
End Completeness.

(** * The top level *)

Lemma solve_Ok cw fuel_ac3 fuel_search s r s' :
  solve cw fuel_ac3 fuel_search s = Ok (r, s') ->
  exists s1 b s2,
    enforce_node_consistency s = Ok (tt, s1) /\
    ac3 cw fuel_ac3 None s1 = Ok (b, s2) /\
    backtrack cw fuel_search [] s2 = Ok (r, s').
Proof.
  unfold solve. intros H.
  apply bind_Ok in H. destruct H as ([] & s1 & H1 & H).
  apply bind_Ok in H. destruct H as (b & s2 & H2 & H).
  exists s1, b, s2. auto.
Qed.

Lemma keys_after_propagation cw fuel s s1 b s2 :
  enforce_node_consistency s = Ok (tt, s1) ->
  ac3 cw fuel None s1 = Ok (b, s2) ->
  keys (domains s2) = keys (domains s).
Proof.
  intros H1 H2. apply enforce_node_consistency_post in H1.
  destruct H1 as [_ [K1 _]]. apply ac3_shrinks in H2. destruct H2 as [K2 _].
  congruence.
Qed.

(** C1: an assignment returned by [solve] gives a word to every variable
    and passes [consistent]: the words are pairwise distinct, each has the
    length of its variable, and assigned neighbors with an overlap agree on
    the shared letter. *)
Theorem solution_validity (cw : Crossword) (fuel_ac3 fuel_search : nat)
    (a : Assignment) (s' : State) :
  solve cw fuel_ac3 fuel_search (init cw) = Ok (Some a, s') ->
  (forall v, In v (variables cw) -> exists w, lookup v a = Some w) /\
  consistent cw a = Ok true /\
  NoDup (values a) /\
  (forall v w, In (v, w) a -> String.length w = v_length v) /\
  (forall var n wv wn i j,
      In var (keys a) -> In n (neighbors cw var) ->
      lookup var a = Some wv -> lookup n a = Some wn ->
      overlaps cw var n = Some (i, j) ->
      agree i j wv wn = true).
Proof.
  intros H. apply solve_Ok in H. destruct H as (s1 & b & s2 & _ & _ & H).
  apply backtrack_sound in H. destruct H as [C Hc].
  assert (Hc' : consistent cw a = Ok true) by (destruct Hc as [->|]; auto).
  split; [|split; auto].
  - intros v Iv. unfold assignment_complete in C.
    rewrite forallb_forall in C. specialize (C v Iv). unfold mem in C.
    destruct (lookup v a) as [w|]; [eauto|discriminate].
  - apply consistent_true in Hc'. destruct Hc'. auto.
Qed.

(** C2: when [solve] returns None the puzzle has no solution; the words of a
    solution are still in the domains after node consistency and AC-3. *)
Theorem failure_correctness (cw : Crossword) (fuel_ac3 fuel_search : nat) :
  (forall s',
      solve cw fuel_ac3 fuel_search (init cw) = Ok (None, s') ->
      forall a, ~ solution cw a)
  /\
  (forall a s1 b s2,
      solution cw a ->
      enforce_node_consistency (init cw) = Ok (tt, s1) ->
      ac3 cw fuel_ac3 None s1 = Ok (b, s2) ->
      forall v w d,
        In v (variables cw) -> lookup v a = Some w ->
        lookup v (domains s2) = Some d -> In w d).
Proof.
  assert (K : forall a s1 b s2,
             solution cw a ->
             enforce_node_consistency (init cw) = Ok (tt, s1) ->
             ac3 cw fuel_ac3 None s1 = Ok (b, s2) ->
             keeps cw a (domains s2)).
  { intros a s1 b s2 Sol H1 H2.
    pose proof (keeps_enforce cw a Sol _ _ (keeps_init cw a Sol) H1) as K1.
    apply enforce_node_consistency_post in H1 as P.
    destruct P as [_ [E1 _]]. rewrite keys_init in E1.
    apply ac3_star in H2.
    apply (keeps_star_prune cw a Sol _ _) with (3 := H2).
    - cbn [logged domains]. rewrite E1. apply incl_refl.
    - exact K1. }
  split.
  - intros s' H a Sol. apply solve_Ok in H.
    destruct H as (s1 & b & s2 & H1 & H2 & H).
    eapply (backtrack_complete cw a Sol); eauto. apply part_of_nil.
  - intros a s1 b s2 Sol H1 H2 v w d Iv La Ld.
    exact (K a s1 b s2 Sol H1 H2 v w d Iv La Ld).
Qed.

(** C10: [backtrack] returns with the domains it was called with, and
    [select_unassigned_variable], [order_domain_values] and [consistent]
    leave the state as it is. *)
Theorem search_preserves_domains (cw : Crossword) :
  (forall fuel a s r s',
      backtrack cw fuel a s = Ok (r, s') -> domains s' = domains s)
  /\
  (forall a s v s',
      select_unassigned_variable cw a s = Ok (v, s') -> s' = s)
  /\
  (forall var a s vals s',
      order_domain_values cw var a s = Ok (vals, s') -> s' = s)
  /\
  (forall a s ok s', lift (consistent cw a) s = Ok (ok, s') -> s' = s).
Proof.
  split; [|split; [|split]].
  - intros fuel a s r s' H. eapply backtrack_frame; eauto.
  - intros a s v s' H. apply select_Ok in H. tauto.
  - intros var a s vals s' H. apply order_domain_values_Ok in H. tauto.
  - intros a s ok s' H. apply lift_Ok in H. tauto.
Qed.

(** C7: [enforce_node_consistency] leaves only words of the length of their
    variable, [revise] and [ac3] keep it so, and it holds of the domains that
    [solve] leaves. *)
Theorem length_invariant (cw : Crossword) :
  (forall s, exists s',
        enforce_node_consistency s = Ok (tt, s') /\
        node_consistent (domains s'))
  /\
  (forall x y s b s',
      node_consistent (domains s) ->
      revise cw x y s = Ok (b, s') ->
      node_consistent (domains s'))
  /\
  (forall fuel arcs s b s',
      node_consistent (domains s) ->
      ac3 cw fuel arcs s = Ok (b, s') ->
      node_consistent (domains s'))
  /\
  (forall fuel_ac3 fuel_search s r s',
      solve cw fuel_ac3 fuel_search s = Ok (r, s') ->
      node_consistent (domains s')).
Proof.
  split; [|split; [|split]].
  - intros s. destruct (enforce_node_consistency_run s) as (s' & R & _).
    exists s'. split; auto. now apply enforce_node_consistency_post in R.
  - intros x y s b s' N H. apply revise_star in H.
    apply star_prune_shrinks in H. eapply shrinks_node_consistent; eauto.
  - intros fuel arcs s b s' N H. apply ac3_shrinks in H.
    eapply shrinks_node_consistent; eauto.
  - intros fuel_ac3 fuel_search s r s' H. apply solve_Ok in H.
    destruct H as (s1 & b & s2 & H1 & H2 & H3).
    apply backtrack_frame in H3. rewrite H3.
    apply enforce_node_consistency_post in H1. destruct H1 as [N _].
    apply ac3_shrinks in H2. eapply shrinks_node_consistent; eauto.
Qed.

(** * The calls made by [solve] *)

Section Trace.
Variable cw : Crossword.

Lemma try_values_trace rec var a vals :
  extends_trace rec ->
  forall s r s',
    try_values cw rec var a vals s = Ok (r, s') ->
    exists rest, trace s' = trace s ++ rest.
Proof.
  intros R. induction vals as [|value vals IH]; intros s r s' H.
  - injection H as _ <-. exists []. now rewrite app_nil_r.
  - apply try_values_cons_Ok in H.
    destruct H as [[_ H]|[Hc (r1 & s1 & Hr & H)]]; [eauto|].
    apply R in Hr. destruct Hr as [t1 E1]. destruct r1 as [r1|].
    + destruct H as [_ ->]. eauto.
    + apply IH in H. destruct H as [t2 E2]. exists (t1 ++ t2).
      now rewrite E2, E1, app_assoc.
Qed.

Lemma backtrack_trace fuel a s r s' :
  backtrack cw fuel a s = Ok (r, s') ->
  exists rest, trace s' = trace s ++ Call_backtrack a :: rest.
Proof.
  revert a s r s'.
  assert (W : forall fuel, extends_trace (backtrack cw fuel) ->
              forall a s r s',
                backtrack cw (S fuel) a s = Ok (r, s') ->
                exists rest, trace s' = trace s ++ Call_backtrack a :: rest).
  { intros f E a s r s' H. apply backtrack_S_Ok in H.
    destruct H as [(_ & _ & ->)|(_ & var & rest & vals & dv & _ & _ & _ & H)].
    - exists []. reflexivity.
    - apply (try_values_trace _ _ _ _ E) in H. destruct H as [t Ht].
      exists t. rewrite Ht. cbn [logged trace].
      now rewrite <- app_assoc. }
  induction fuel as [|fuel IH]; intros a s r s' H; [discriminate|].
  refine (W fuel _ a s r s' H).
  intros a0 s0 r0 s0' H0. apply IH in H0. destruct H0 as [t Ht]. eauto.
Qed.

(** After a failure of [ac3] the search, called on the empty assignment,
    selects a variable with an empty domain and tries nothing. *)
Lemma backtrack_empty_domain fuel s X :
  keys (domains s) = variables cw ->
  lookup X (domains s) = Some [] ->
  backtrack cw (S fuel) [] s = Ok (None, logged (Call_backtrack []) s).
Proof.
  intros K HX.
  assert (IX : In X (variables cw)).
  { rewrite <- K. apply lookup_keys. congruence. }
  assert (D : forall x, In x (unassigned_vars cw []) ->
                        lookup x (domains s) <> None).
  { intros x I. apply filter_In in I. destruct I as [I _].
    apply lookup_keys. now rewrite K. }
  cbn [backtrack]. unfold bind at 1. cbn [log].
  fold (logged (Call_backtrack []) s).
  assert (C : assignment_complete cw [] = false).
  { unfold assignment_complete. apply not_true_is_false. intros F.
    rewrite forallb_forall in F. specialize (F X IX). discriminate. }
  rewrite C. unfold bind at 1.
  rewrite select_unfold by exact D. cbn [logged domains].
  destruct (mrv_order cw (domains s) []) as [|var rest] eqn:E.
  - exfalso. pose proof (sorted_perm _ (unassigned_vars cw [])
                           (map (dom_size (domains s)) (unassigned_vars cw []))
                           (length_map _ _)) as P.
    fold (mrv_order cw (domains s) []) in P. rewrite E in P.
    apply Permutation_nil in P.
    assert (I : In X (unassigned_vars cw [])) by (apply filter_In; auto).
    rewrite P in I. destruct I.
  - apply mrv_order_head in E. destruct E as (Iv & _ & Hmin).
    specialize (Hmin X IX eq_refl).
    unfold dom_size in Hmin at 2. rewrite HX in Hmin. cbn in Hmin.
    assert (Lv : lookup var (domains s) = Some []).
    { unfold dom_size in Hmin.
      destruct (lookup var (domains s)) as [[|w d]|] eqn:L; auto.
      - cbn in Hmin. lia.
      - exfalso. rewrite <- K in Iv. apply lookup_keys in Iv. auto. }
    unfold bind at 1.
    rewrite order_domain_values_empty by exact Lv. reflexivity.
Qed.
End Trace.

(** C3 as the code has it: [solve] calls [enforce_node_consistency], then
    [ac3] on the full worklist, then [backtrack] on the empty assignment, in
    this order and whatever [ac3] returned; when [ac3] returned False that
    call of [backtrack] is the only one, tries no value and returns None. *)
Theorem solve_sequence (cw : Crossword) (fuel_ac3 fuel_search : nat) :
  (forall s r s',
      solve cw fuel_ac3 fuel_search s = Ok (r, s') ->
      exists rest,
        trace s'
        = trace s
          ++ [Call_enforce_node_consistency; Call_ac3 None; Call_backtrack []]
          ++ rest)
  /\
  (forall s1 s2,
      enforce_node_consistency (init cw) = Ok (tt, s1) ->
      ac3 cw fuel_ac3 None s1 = Ok (false, s2) ->
      solve cw fuel_ac3 (S fuel_search) (init cw)
      = Ok (None, logged (Call_backtrack []) s2)
      /\ trace s2 = [Call_enforce_node_consistency; Call_ac3 None]).
Proof.
  split.
  - intros s r s' H. apply solve_Ok in H.
    destruct H as (s1 & b & s2 & H1 & H2 & H3).
    destruct (enforce_node_consistency_run s) as (s1' & R & T1 & _).
    rewrite R in H1. injection H1 as ->.
    apply ac3_star, star_prune_trace in H2. cbn [logged trace] in H2.
    apply backtrack_trace in H3. destruct H3 as [rest T3].
    exists rest. rewrite T3, H2, T1. now rewrite <- !app_assoc.
  - intros s1 s2 H1 H2.
    assert (K : keys (domains s2) = variables cw).
    { rewrite (keys_after_propagation _ _ _ _ _ _ H1 H2). apply keys_init. }
    assert (T : trace s2 = [Call_enforce_node_consistency; Call_ac3 None]).
    { destruct (enforce_node_consistency_run (init cw)) as (s1' & R & T1 & _).
      rewrite R in H1. injection H1 as ->.
      apply ac3_star, star_prune_trace in H2 as T2. cbn [logged trace] in T2.
      rewrite T2, T1. reflexivity. }
    split; auto.
    rewrite ac3_unfold in H2.
    destruct (ac3_loop_false _ _ _ _ _ H2) as [X HX].
    unfold solve. unfold bind at 1. rewrite H1.
    unfold bind at 1. rewrite ac3_unfold, H2.
    eapply backtrack_empty_domain; eauto.
Qed.

(** * Well-formed puzzles and arc consistency *)

Section Idempotence.
Variable cw : Crossword.

Lemma revise_loop_noop x y i j dy snapshot s :
  lookup y (domains s) = Some dy ->
  (forall w, In w snapshot -> any_match w i j dy = Ok true) ->
  revise_loop x y i j snapshot false s = Ok (false, s).
Proof.
  intros Ly. induction snapshot as [|u snapshot IH]; intros H;
    cbn [revise_loop]; auto.
  unfold bind at 1. unfold get_domain. rewrite Ly.
  unfold bind at 1. rewrite (H u) by now left. cbn [lift].
  apply IH. intros; apply H; now right.
Qed.

Lemma ac3_loop_noop fuel :
  forall queue s,
    (forall X Y, In (X, Y) queue -> revise cw X Y s = Ok (false, s)) ->
    List.length queue <= fuel ->
    ac3_loop cw fuel queue s = Ok (true, s).
Proof.
  induction fuel as [|fuel IH]; intros [|[X Y] queue] s H L;
    cbn [List.length] in L; try lia; auto.
  cbn [ac3_loop]. unfold bind. rewrite (H X Y) by now left.
  apply IH; [|lia]. intros; apply H; now right.
Qed.

Lemma all_arcs_In ks X Y :
  In (X, Y) (all_arcs cw ks) ->
  In X ks /\ In Y (neighbors cw X) /\ overlaps cw X Y <> None.
Proof.
  unfold all_arcs. intros H. apply in_flat_map in H.
  destruct H as (x & Ix & H). apply in_map_iff in H.
  destruct H as (y & [= <- <-] & H). apply filter_In in H.
  destruct H as [Iy Ho]. repeat split; auto.
  destruct (overlaps cw x y); [discriminate|discriminate].
Qed.

Lemma revise_arc_consistent s X Y :
  well_formed cw ->
  keys (domains s) = variables cw ->
  node_consistent (domains s) ->
  arc_consistent cw (domains s) ->
  In X (variables cw) -> In Y (neighbors cw X) ->
  revise cw X Y s = Ok (false, s).
Proof.
  intros WF K NC AC IX IY. unfold revise.
  destruct (overlaps cw X Y) as [[i j]|] eqn:Ho; auto.
  assert (IY' : In Y (variables cw)).
  { apply (wf_neighbors _ WF X Y IX) in IY. tauto. }
  destruct (wf_range _ WF X Y i j IX IY' Ho) as [Ri Rj].
  rewrite <- K in IX, IY'. apply lookup_keys in IX as LX, IY' as LY.
  destruct (lookup X (domains s)) as [dx|] eqn:Lx; [|congruence].
  destruct (lookup Y (domains s)) as [dy|] eqn:Ly; [|congruence].
  unfold bind, get_domain. rewrite Lx.
  apply revise_loop_noop with (dy := dy); auto.
  intros w Iw. rewrite any_match_in_range.
  - f_equal. exact (AC X Y i j dx dy w IX IY Ho Lx Ly Iw).
  - rewrite (NC X dx w Lx Iw). exact Ri.
  - intros wy Iwy. rewrite (NC Y dy wy Ly Iwy). exact Rj.
Qed.
End Idempotence.

(** C8: after [enforce_node_consistency] and [ac3] every domain is included
    in what it was; and [ac3] run on a store that is already arc consistent
    returns True and leaves the store as it is. *)
Theorem domain_monotonicity (cw : Crossword) (fuel : nat) :
  (forall s s1 b s2,
      enforce_node_consistency s = Ok (tt, s1) ->
      ac3 cw fuel None s1 = Ok (b, s2) ->
      forall v d,
        lookup v (domains s) = Some d ->
        exists d', lookup v (domains s2) = Some d' /\ incl d' d)
  /\
  (forall s,
      well_formed cw ->
      keys (domains s) = variables cw ->
      node_consistent (domains s) ->
      arc_consistent cw (domains s) ->
      List.length (all_arcs cw (keys (domains s))) <= fuel ->
      exists s',
        ac3 cw fuel None s = Ok (true, s') /\ domains s' = domains s).
Proof.
  split.
  - intros s s1 b s2 H1 H2 v d L.
    apply enforce_node_consistency_post in H1. destruct H1 as [_ S1].
    apply ac3_shrinks in H2.
    destruct (shrinks_trans _ _ _ S1 H2) as [_ H]. eauto.
  - intros s WF K NC AC L. exists (logged (Call_ac3 None) s). split; auto.
    rewrite ac3_unfold. cbn [ac3_queue]. apply ac3_loop_noop; auto.
    intros X Y I. apply all_arcs_In in I. destruct I as (IX & IY & _).
    rewrite K in IX. apply revise_arc_consistent; auto.
Qed.

(** * Arc consistency after a successful run of AC-3 *)

Lemma agree_sym i j wx wy : agree i j wx wy = agree j i wy wx.
Proof.
  unfold agree. destruct (String.get i wx), (String.get j wy); auto.
  apply Ascii.eqb_sym.
Qed.

Lemma prune_step_others x y i j s s' z :
  prune_step x y i j s s' -> z <> x ->
  lookup z (domains s') = lookup z (domains s).
Proof.
  intros (wx & dx & dy & _ & _ & _ & ->) N. cbn [domains].
  now apply lookup_dict_set_neq.
Qed.

Lemma revise_others cw x y s b s' z :
  revise cw x y s = Ok (b, s') -> z <> x ->
  lookup z (domains s') = lookup z (domains s).
Proof.
  unfold revise. destruct (overlaps cw x y) as [[i j]|]; intros H N.
  - apply bind_Ok in H. destruct H as (dx & s1 & Hx & H).
    apply get_domain_Ok in Hx. destruct Hx as [_ ->].
    apply revise_loop_star in H.
    induction H as [|s s1 s' R S IH]; auto.
    rewrite IH. eapply prune_step_others; eauto.
  - now injection H as _ <-.
Qed.

(** A run of [ac3] that returns True has emptied no domain. *)
Lemma ac3_loop_nonempty cw fuel :
  forall queue s s' z d',
    ac3_loop cw fuel queue s = Ok (true, s') ->
    (forall d, lookup z (domains s) = Some d -> d <> []) ->
    lookup z (domains s') = Some d' -> d' <> [].
Proof.
  induction fuel as [|fuel IH]; intros [|[X Y] queue] s s' z d' H Hz Lz;
    try discriminate;
    try (cbn in H; injection H as <-; eauto).
  apply ac3_loop_cons_Ok in H.
  destruct H as (f & revised & s1 & [= <-] & Hr & H).
  destruct H as [(-> & -> & H)|(-> & dX & LX & [(_ & [=] & _)|(NX & H)])].
  - eapply IH; eauto.
  - apply (IH _ _ _ z d' H); auto. intros d Ld.
    destruct (Var_eq_dec z X) as [->|N].
    + rewrite LX in Ld. now injection Ld as <-.
    + rewrite (revise_others cw X Y s true s1 z Hr N) in Ld. auto.
Qed.

Section Ac3Correct.
Variable cw : Crossword.
Hypothesis WF : well_formed cw.

Lemma neighbor_arc x y :
  In x (variables cw) -> In y (neighbors cw x) ->
  In y (variables cw) /\ x <> y /\ In x (neighbors cw y) /\
  exists i j, overlaps cw x y = Some (i, j) /\ overlaps cw y x = Some (j, i).
Proof.
  intros Ix Iy. apply (wf_neighbors _ WF x y Ix) in Iy.
  destruct Iy as (Iy & N & Ho).
  destruct (overlaps cw y x) as [[j i]|] eqn:E; [|congruence].
  pose proof (wf_symmetric _ WF y x j i Iy Ix E) as E'.
  repeat split; auto.
  - apply (wf_neighbors _ WF y x Iy). repeat split; auto. congruence.
  - eauto.
Qed.

Lemma arc_ok_unrevised ds X Y i j dx dy :
  overlaps cw X Y = Some (i, j) ->
  lookup X ds = Some dx -> lookup Y ds = Some dy ->
  forallb (has_support i j dy) dx = true ->
  arc_ok cw ds X Y.
Proof.
  intros Ho Lx Ly F i' j' dx' dy' wx Ho' Lx' Ly' Iw.
  rewrite Ho in Ho'. injection Ho' as <- <-.
  rewrite Lx in Lx'. injection Lx' as <-.
  rewrite Ly in Ly'. injection Ly' as <-.
  rewrite forallb_forall in F. auto.
Qed.

Lemma invariant_unrevised queue ds X Y i j dx dy :
  ac3_invariant cw ((X, Y) :: queue) ds ->
  overlaps cw X Y = Some (i, j) ->
  lookup X ds = Some dx -> lookup Y ds = Some dy ->
  forallb (has_support i j dy) dx = true ->
  ac3_invariant cw queue ds.
Proof.
  intros [Q I] Ho Lx Ly F. split.
  - intros x y H. apply Q. now right.
  - intros x y Ix Iy. destruct (I x y Ix Iy) as [[E|H]|H]; auto.
    injection E as <- <-. right. eapply arc_ok_unrevised; eauto.
Qed.

Lemma invariant_revised queue ds X Y i j dx dy :
  ac3_invariant cw ((X, Y) :: queue) ds ->
  overlaps cw X Y = Some (i, j) ->
  lookup X ds = Some dx -> lookup Y ds = Some dy ->
  ac3_invariant cw
    (queue ++ map (fun Z => (Z, X)) (others cw X Y))
    (dict_set X (filter (has_support i j dy) dx) ds).
Proof.
  intros [Q I] Ho Lx Ly.
  destruct (Q X Y (or_introl eq_refl)) as [IX IY].
  destruct (neighbor_arc X Y IX IY) as (IY' & Nxy & IXn & _).
  set (dx' := filter (has_support i j dy) dx).
  split.
  - intros x y H. apply in_app_or in H. destruct H as [H|H].
    + apply Q. now right.
    + apply in_map_iff in H. destruct H as (Z & [= <- <-] & H).
      unfold others in H. apply filter_In in H. destruct H as [IZ _].
      destruct (neighbor_arc X Z IX IZ) as (IZ' & _ & IXz & _). auto.
  - intros x y Ix Iy.
    destruct (neighbor_arc x y Ix Iy) as (Iy' & Nxy' & Ixn & i' & j' & Ho1 & Ho2).
    destruct (Var_eq_dec x X) as [->|NxX].
    + (* arcs out of X *)
      destruct (Var_eq_dec y Y) as [->|NyY].
      * right. intros i0 j0 dx0 dy0 wx Ho0 Lx0 Ly0 Iw.
        rewrite Ho in Ho0. injection Ho0 as <- <-.
        rewrite lookup_dict_set_eq in Lx0. injection Lx0 as <-.
        rewrite lookup_dict_set_neq in Ly0 by congruence.
        rewrite Ly in Ly0. injection Ly0 as <-.
        apply filter_In in Iw. tauto.
      * destruct (I X y Ix Iy) as [[E|H]|H].
        -- congruence.
        -- left. apply in_or_app. now left.
        -- right. intros i0 j0 dx0 dy0 wx Ho0 Lx0 Ly0 Iw.
           rewrite lookup_dict_set_eq in Lx0. injection Lx0 as <-.
           rewrite lookup_dict_set_neq in Ly0 by congruence.
           apply filter_In in Iw. destruct Iw as [Iw _].
           exact (H i0 j0 dx dy0 wx Ho0 Lx Ly0 Iw).
    + destruct (Var_eq_dec y X) as [->|NyX].
      * (* arcs into X *)
        destruct (Var_eq_dec x Y) as [->|NxY].
        -- destruct (I Y X Ix Iy) as [[E|H]|H].
           ++ congruence.
           ++ left. apply in_or_app. now left.
           ++ right. intros i0 j0 dx0 dy0 wy Ho0 Lx0 Ly0 Iw.
              rewrite lookup_dict_set_neq in Lx0 by congruence.
              rewrite lookup_dict_set_eq in Ly0. injection Ly0 as <-.
              rewrite Ly in Lx0. injection Lx0 as <-.
              pose proof (H i0 j0 dy dx wy Ho0 Ly Lx Iw) as S.
              unfold has_support in S. apply existsb_exists in S.
              destruct S as (wx & Iwx & A).
              unfold has_support. apply existsb_exists. exists wx.
              split; auto. apply filter_In. split; auto.
              unfold has_support. apply existsb_exists. exists wy.
              split; auto.
              assert (E : overlaps cw X Y = Some (j0, i0)).
              { destruct (neighbor_arc Y X Ix Iy)
                  as (_ & _ & _ & a & b & E1 & E2).
                rewrite Ho0 in E1. injection E1 as <- <-. exact E2. }
              rewrite Ho in E. injection E as -> ->.
              now rewrite agree_sym.
        -- left. apply in_or_app. right. apply in_map_iff. exists x.
           split; auto. unfold others. apply filter_In. split; auto.
           apply negb_true_iff. now apply Var_eqb_neq.
      * (* arcs that do not touch X *)
        destruct (I x y Ix Iy) as [[E|H]|H].
        -- congruence.
        -- left. apply in_or_app. now left.
        -- right. intros i0 j0 dx0 dy0 wx Ho0 Lx0 Ly0 Iw.
           rewrite lookup_dict_set_neq in Lx0, Ly0 by congruence.
           exact (H i0 j0 dx0 dy0 wx Ho0 Lx0 Ly0 Iw).
Qed.

Lemma ac3_loop_arc_consistent fuel :
  forall queue s s',
    keys (domains s) = variables cw ->
    ac3_invariant cw queue (domains s) ->
    ac3_loop cw fuel queue s = Ok (true, s') ->
    forall x y, In x (variables cw) -> In y (neighbors cw x) ->
                arc_ok cw (domains s') x y.
Proof.
  induction fuel as [|fuel IH]; intros [|[X Y] queue] s s' K Inv H;
    try discriminate.
  - cbn in H. injection H as <-. intros x y Ix Iy.
    destruct Inv as [_ I]. destruct (I x y Ix Iy) as [[]|]; auto.
  - cbn in H. injection H as <-. intros x y Ix Iy.
    destruct Inv as [_ I]. destruct (I x y Ix Iy) as [[]|]; auto.
  - apply ac3_loop_cons_Ok in H.
    destruct H as (f & revised & s1 & [= <-] & Hr & H).
    pose proof Inv as [Q _].
    destruct (Q X Y (or_introl eq_refl)) as [IX IY].
    destruct (neighbor_arc X Y IX IY) as (IY' & Nxy & _ & i & j & Ho & _).
    rewrite <- K in IX, IY'. apply lookup_keys in IX, IY'.
    destruct (lookup X (domains s)) as [dx|] eqn:Lx; [|congruence].
    destruct (lookup Y (domains s)) as [dy|] eqn:Ly; [|congruence].
    destruct (revise_Ok_spec cw X Y i j dx dy s revised s1 Ho Nxy Lx Ly Hr)
      as [Eb Es].
    destruct H as [(-> & -> & H)|(-> & dX & LX & [(_ & [=] & _)|(_ & H)])].
    + apply (IH _ _ _ K) with (2 := H).
      eapply invariant_unrevised; eauto.
      symmetry in Eb. now apply negb_false_iff in Eb.
    + subst s1. cbn [domains] in *.
      refine (IH _ _ _ _ _ H).
      * cbn [domains]. rewrite keys_dict_set; auto.
        unfold mem. now rewrite Lx.
      * cbn [domains]. eapply invariant_revised; eauto.
Qed.

Lemma all_arcs_invariant ds :
  keys ds = variables cw -> ac3_invariant cw (all_arcs cw (keys ds)) ds.
Proof.
  intros K. split.
  - intros x y H. apply all_arcs_In in H. rewrite K in H. tauto.
  - intros x y Ix Iy. left.
    destruct (neighbor_arc x y Ix Iy) as (_ & _ & _ & i & j & Ho & _).
    unfold all_arcs. apply in_flat_map. exists x. split; [now rewrite K|].
    apply in_map_iff. exists y. split; auto. apply filter_In. split; auto.
    now rewrite Ho.
Qed.

(** On a well-formed puzzle a run of [ac3] on the full worklist that returns
    True leaves an arc-consistent store. *)
Lemma ac3_success fuel s s' :
  keys (domains s) = variables cw ->
  ac3 cw fuel None s = Ok (true, s') ->
  arc_consistent cw (domains s').
Proof.
  intros K H. rewrite ac3_unfold in H. cbn [ac3_queue] in H.
  intros x y i j dx dy wx Ix Iy Ho Lx Ly Iw.
  assert (K' : keys (domains s') = variables cw).
  { apply ac3_loop_star, star_prune_keys in H. cbn [logged domains] in H.
    congruence. }
  rewrite K' in Ix.
  exact (ac3_loop_arc_consistent fuel _ (logged (Call_ac3 None) s) s' K
           (all_arcs_invariant (domains s) K) H x y Ix Iy
           i j dx dy wx Ho Lx Ly Iw).
Qed.
End Ac3Correct.

(** * Termination of the search *)

Lemma mapM_fuel {A B} (f : A -> M B) (l : list A) :
  (forall a s, f a s <> OutOfFuel) -> forall s, mapM f l s <> OutOfFuel.
Proof.
  intros F. induction l as [|a l IH]; intros s H; cbn [mapM] in H;
    [discriminate|].
  apply bind_OutOfFuel in H. destruct H as [H|(b & s1 & _ & H)].
  { now apply F in H. }
  apply bind_OutOfFuel in H. destruct H as [H|(bs & s2 & _ & H)].
  { now apply IH in H. }
  discriminate.
Qed.

Lemma filterM_fuel {A} (f : A -> M bool) (l : list A) :
  (forall a s, f a s <> OutOfFuel) -> forall s, filterM f l s <> OutOfFuel.
Proof.
  intros F. induction l as [|a l IH]; intros s H; cbn [filterM] in H;
    [discriminate|].
  apply bind_OutOfFuel in H. destruct H as [H|(b & s1 & _ & H)].
  { now apply F in H. }
  apply bind_OutOfFuel in H. destruct H as [H|(bs & s2 & _ & H)].
  { now apply IH in H. }
  discriminate.
Qed.

Lemma domain_size_fuel x s : domain_size x s <> OutOfFuel.
Proof.
  unfold domain_size. intros H.
  apply bind_OutOfFuel in H. destruct H as [H|(d & s1 & _ & H)].
  - now apply get_domain_fuel in H.
  - discriminate.
Qed.

Lemma list_index_fuel {A} (l : list A) n : list_index l n <> OutOfFuel.
Proof. unfold list_index. destruct (nth_error l n); discriminate. Qed.

Lemma index_fuel w n : index w n <> OutOfFuel.
Proof. unfold index. destruct (String.get n w); discriminate. Qed.

Lemma for_each_node_size ks :
  forall s s',
    for_each ks node_consistent_step s = Ok (tt, s') ->
    store_size (domains s') <= store_size (domains s).
Proof.
  induction ks as [|k ks IH]; intros s s' H; cbn [for_each] in H.
  - injection H as <-. auto.
  - apply bind_Ok in H. destruct H as ([] & s1 & H1 & H).
    apply IH in H. unfold node_consistent_step in H1.
    apply bind_Ok in H1. destruct H1 as (d & s0 & Hd & H1).
    apply get_domain_Ok in Hd. destruct Hd as [Hd ->].
    unfold set_domain in H1. injection H1 as <-. cbn [domains] in H.
    pose proof (store_size_set k (filter (fun x => String.length x =? v_length k) d)
                  _ _ Hd).
    pose proof (filter_length_le (fun x => String.length x =? v_length k) d).
    unfold word in *. lia.
Qed.

Lemma enforce_node_consistency_size s s' :
  enforce_node_consistency s = Ok (tt, s') ->
  store_size (domains s') <= store_size (domains s).
Proof.
  unfold enforce_node_consistency. intros H.
  apply bind_Ok in H. destruct H as ([] & s1 & H1 & H).
  unfold log in H1. injection H1 as <-.
  apply bind_Ok in H. destruct H as (ks & s2 & H2 & H).
  unfold get_keys in H2. injection H2 as <- <-.
  apply for_each_node_size in H. exact H.
Qed.

Section SearchTerminates.
Variable cw : Crossword.

Lemma degree_loop_fuel mnrm rest :
  forall result_value highest_degree,
    degree_loop cw mnrm rest result_value highest_degree <> OutOfFuel.
Proof.
  induction rest as [|other rest IH]; intros rv hd; cbn [degree_loop];
    [discriminate|].
  destruct (list_index mnrm 0) as [m0| |] eqn:E; cbn [rbind];
    [|discriminate|now apply list_index_fuel in E].
  destruct hd as [s|v]; cbn [py_gt rbind]; [|discriminate].
  destruct (subset s (neighbors cw m0) && negb (subset (neighbors cw m0) s));
    apply IH.
Qed.

Lemma select_fuel a s : select_unassigned_variable cw a s <> OutOfFuel.
Proof.
  unfold select_unassigned_variable. intros H.
  apply bind_OutOfFuel in H. destruct H as [H|(sizes & s1 & _ & H)].
  { revert H. apply mapM_fuel. apply domain_size_fuel. }
  apply bind_OutOfFuel in H. destruct H as [H|(mnrm & s2 & _ & H)].
  { revert H. apply filterM_fuel. intros x t H.
    apply bind_OutOfFuel in H. destruct H as [H|(n & t1 & _ & H)].
    { now apply domain_size_fuel in H. }
    apply bind_OutOfFuel in H. destruct H as [H|(m0 & t2 & _ & H)].
    { apply lift_OutOfFuel in H. now apply list_index_fuel in H. }
    apply bind_OutOfFuel in H. destruct H as [H|(n0 & t3 & _ & H)].
    { now apply domain_size_fuel in H. }
    discriminate. }
  destruct (List.length mnrm =? 1).
  { apply lift_OutOfFuel in H. now apply list_index_fuel in H. }
  apply bind_OutOfFuel in H. destruct H as [H|(rv & s3 & _ & H)].
  { apply lift_OutOfFuel in H. now apply list_index_fuel in H. }
  apply bind_OutOfFuel in H. destruct H as [H|(m0 & s4 & _ & H)].
  { apply lift_OutOfFuel in H. now apply list_index_fuel in H. }
  apply lift_OutOfFuel in H. now apply degree_loop_fuel in H.
Qed.

Lemma count_mismatches_fuel w x_over y_over dn :
  forall e, count_mismatches w x_over y_over dn e <> OutOfFuel.
Proof.
  induction dn as [|nw dn IH]; intros e; cbn [count_mismatches];
    [discriminate|].
  destruct (index w x_over) as [cx| |] eqn:Ex; cbn [rbind];
    [|discriminate|now apply index_fuel in Ex].
  destruct (index nw y_over) as [cy| |] eqn:Ey; cbn [rbind];
    [|discriminate|now apply index_fuel in Ey].
  apply IH.
Qed.

Lemma eliminations_of_fuel var w ns :
  forall e s, eliminations_of cw var w ns e s <> OutOfFuel.
Proof.
  induction ns as [|m ns IH]; intros e s; cbn [eliminations_of];
    [discriminate|].
  destruct (overlaps cw var m) as [[x_over y_over]|]; [|apply IH].
  intros H. apply bind_OutOfFuel in H. destruct H as [H|(dn & s1 & _ & H)].
  { now apply get_domain_fuel in H. }
  apply bind_OutOfFuel in H. destruct H as [H|(e' & s2 & _ & H)].
  { apply lift_OutOfFuel in H. now apply count_mismatches_fuel in H. }
  now apply IH in H.
Qed.

Lemma order_domain_values_fuel var a s :
  order_domain_values cw var a s <> OutOfFuel.
Proof.
  unfold order_domain_values. intros H.
  apply bind_OutOfFuel in H. destruct H as [H|(dv & s1 & _ & H)].
  { now apply get_domain_fuel in H. }
  apply bind_OutOfFuel in H. destruct H as [H|(ks & s2 & _ & H)].
  { revert H. apply mapM_fuel. intros w t. apply eliminations_of_fuel. }
  apply bind_OutOfFuel in H. destruct H as [H|(dv' & s3 & _ & H)].
  { now apply get_domain_fuel in H. }
  discriminate.
Qed.

Lemma try_values_fuel rec var a vals :
  (forall value s, rec (dict_set var value a) s <> OutOfFuel) ->
  forall s, try_values cw rec var a vals s <> OutOfFuel.
Proof.
  intros R. induction vals as [|value vals IH]; intros s H;
    cbn [try_values] in H; [discriminate|].
  apply bind_OutOfFuel in H. destruct H as [H|(ok & s1 & _ & H)].
  { apply lift_OutOfFuel in H. now apply consistent_fuel in H. }
  destruct ok; [|now apply IH in H].
  apply bind_OutOfFuel in H. destruct H as [H|(r & s2 & _ & H)].
  { now apply R in H. }
  destruct r; [discriminate|now apply IH in H].
Qed.

Lemma mem_dict_set (a : Assignment) var w v :
  mem v (dict_set var w a) = Var_eqb v var || mem v a.
Proof.
  unfold mem. destruct (Var_eqb v var) eqn:E.
  - apply Var_eqb_eq in E. subst. now rewrite lookup_dict_set_eq.
  - apply Var_eqb_neq in E. now rewrite lookup_dict_set_neq.
Qed.

Lemma filter_length_lt {A} (f g : A -> bool) (l : list A) a :
  (forall x, g x = true -> f x = true) ->
  In a l -> f a = true -> g a = false ->
  List.length (filter g l) < List.length (filter f l).
Proof.
  intros Hgf. induction l as [|x l IH]; intros I Fa Ga; [destruct I|].
  assert (Le : List.length (filter g l) <= List.length (filter f l)).
  { clear -Hgf. induction l as [|y l IH]; cbn; auto.
    destruct (g y) eqn:Gy; [rewrite (Hgf y Gy); cbn; lia|].
    destruct (f y); cbn; lia. }
  cbn [filter]. destruct I as [->|I].
  - rewrite Fa, Ga. cbn. lia.
  - specialize (IH I Fa Ga). destruct (g x) eqn:Gx.
    + rewrite (Hgf x Gx). cbn. lia.
    + destruct (f x); cbn; lia.
Qed.

Lemma unassigned_decreases (a : Assignment) var w :
  In var (variables cw) -> mem var a = false ->
  List.length (unassigned_vars cw (dict_set var w a))
  < List.length (unassigned_vars cw a).
Proof.
  intros I Hm. unfold unassigned_vars.
  apply filter_length_lt with (a := var); auto.
  - intros x. rewrite mem_dict_set. destruct (mem x a); auto.
    now rewrite orb_true_r.
  - now rewrite Hm.
  - now rewrite mem_dict_set, Var_eqb_refl.
Qed.

(** The depth of the recursion is at most the number of unassigned
    variables. *)
Lemma backtrack_enough fuel :
  forall a s,
    List.length (unassigned_vars cw a) < fuel ->
    backtrack cw fuel a s <> OutOfFuel.
Proof.
  induction fuel as [|fuel IH]; intros a s L; [lia|].
  cbn [backtrack]. intros H.
  apply bind_OutOfFuel in H. destruct H as [H|([] & s1 & _ & H)];
    [discriminate|].
  destruct (assignment_complete cw a); [discriminate|].
  apply bind_OutOfFuel in H. destruct H as [H|(var & s2 & Hv & H)].
  { now apply select_fuel in H. }
  apply bind_OutOfFuel in H. destruct H as [H|(vals & s3 & _ & H)].
  { now apply order_domain_values_fuel in H. }
  apply select_Ok in Hv. destruct Hv as [_ (rest & Hv)].
  apply mrv_order_head in Hv. destruct Hv as (Iv & Hm & _).
  revert H. apply try_values_fuel. intros value t. apply IH.
  pose proof (unassigned_decreases a var value Iv Hm). lia.
Qed.

(** [solve] returns, with a result or an exception, once the two loops have
    the fuel computed from the puzzle. *)
Lemma solve_enough fuel_ac3 fuel_search :
  ac3_bound cw (all_arcs cw (variables cw)) (init cw) <= fuel_ac3 ->
  List.length (variables cw) < fuel_search ->
  solve cw fuel_ac3 fuel_search (init cw) <> OutOfFuel.
Proof.
  intros La Ls. unfold solve. intros H.
  destruct (enforce_node_consistency_run (init cw)) as (s1 & R & _ & K & Hl).
  apply bind_OutOfFuel in H. destruct H as [H|([] & t1 & H1 & H)];
    [congruence|].
  rewrite R in H1. injection H1 as <-.
  apply bind_OutOfFuel in H. destruct H as [H|(b & s2 & _ & H)].
  - revert H. rewrite ac3_unfold. apply ac3_loop_enough.
    unfold ac3_bound in *. cbn [ac3_queue logged domains].
    rewrite K, keys_init in *.
    pose proof (enforce_node_consistency_size _ _ R).
    nia.
  - revert H. apply backtrack_enough.
    unfold unassigned_vars. cbn [mem lookup negb].
    pose proof (filter_length_le (fun _ : Var => true) (variables cw)). lia.
Qed.
End SearchTerminates.

(** * Checking well-formedness by computation *)

Lemma mem_var_In x l : mem_var x l = true <-> In x l.
Proof.
  unfold mem_var. rewrite existsb_exists. split.
  - intros (y & I & E). apply Var_eqb_eq in E. now subst.
  - intros I. exists x. split; auto. apply Var_eqb_refl.
Qed.

Lemma nodupb_NoDup l : nodupb l = true -> NoDup l.
Proof.
  induction l as [|x l IH]; cbn; [constructor|].
  intros H. apply andb_true_iff in H. destruct H as [N H].
  constructor; auto. intros I. apply mem_var_In in I.
  rewrite I in N. discriminate.
Qed.

Lemma is_neighborb_spec cw x y :
  is_neighborb cw x y = true <->
  In y (variables cw) /\ y <> x /\ overlaps cw y x <> None.
Proof.
  unfold is_neighborb. rewrite !andb_true_iff, negb_true_iff, mem_var_In.
  rewrite Var_eqb_neq.
  destruct (overlaps cw y x); cbn; intuition congruence.
Qed.

Lemma well_formedb_sound cw : well_formedb cw = true -> well_formed cw.
Proof.
  unfold well_formedb. intros H. apply andb_true_iff in H.
  destruct H as [N H]. rewrite forallb_forall in H.
  assert (Hx : forall x, In x (variables cw) ->
            forallb (is_neighborb cw x) (neighbors cw x) = true /\
            forallb (fun y => implb (is_neighborb cw x y)
                                    (mem_var y (neighbors cw x)))
                    (variables cw) = true /\
            forallb (overlap_okb cw x) (variables cw) = true).
  { intros x I. specialize (H x I). rewrite !andb_true_iff in H. tauto. }
  clear H. constructor.
  - now apply nodupb_NoDup.
  - intros x y Ix. destruct (Hx x Ix) as (H1 & H2 & _).
    rewrite forallb_forall in H1, H2. split.
    + intros Iy. apply is_neighborb_spec. auto.
    + intros Hy. pose proof Hy as (Iy & _). specialize (H2 y Iy).
      apply is_neighborb_spec in Hy. rewrite Hy in H2. cbn in H2.
      now apply mem_var_In.
  - intros x y i j Ix Iy Ho. destruct (Hx x Ix) as (_ & _ & H3).
    rewrite forallb_forall in H3. specialize (H3 y Iy).
    unfold overlap_okb in H3. rewrite Ho in H3.
    apply andb_true_iff in H3. destruct H3 as [_ H3].
    destruct (overlaps cw y x) as [[j' i']|]; [|discriminate].
    apply andb_true_iff in H3. destruct H3 as [E1 E2].
    apply Nat.eqb_eq in E1, E2. now subst.
  - intros x y i j Ix Iy Ho. destruct (Hx x Ix) as (_ & _ & H3).
    rewrite forallb_forall in H3. specialize (H3 y Iy).
    unfold overlap_okb in H3. rewrite Ho in H3.
    rewrite !andb_true_iff in H3. destruct H3 as [[R1 R2] _].
    apply Nat.ltb_lt in R1, R2. auto.
Qed.

(** * Checking stores by computation *)

Lemma node_consistentb_sound ds :
  node_consistentb ds = true -> node_consistent ds.
Proof.
  unfold node_consistentb. rewrite forallb_forall.
  intros H v d w L I. apply lookup_In in L. specialize (H _ L). cbn in H.
  rewrite forallb_forall in H. apply Nat.eqb_eq. exact (H w I).
Qed.

Lemma arc_consistentb_sound cw ds :
  arc_consistentb cw ds = true -> arc_consistent cw ds.
Proof.
  unfold arc_consistentb. rewrite forallb_forall.
  intros H x y i j dx dy wx _ Iy Ho Lx Ly Iw.
  apply lookup_In in Lx. specialize (H _ Lx). cbn [fst snd] in H.
  rewrite forallb_forall in H. specialize (H y Iy).
  rewrite Ho, Ly in H. rewrite forallb_forall in H. exact (H wx Iw).
Qed.

(** * Worked puzzles *)

Module Examples.
Import Puzzles.
Open Scope string_scope.

Example crossing_well_formed : well_formed crossing.
Proof. apply well_formedb_sound. vm_compute. reflexivity. Qed.

Example crossing_solved :
  solve crossing 20 20 (init crossing)
  = Ok (Some crossing_answer, final crossing 20 20).
Proof. vm_compute. reflexivity. Qed.

Example unsolvable_fails :
  solve unsolvable 20 20 (init unsolvable)
  = Ok (None, final unsolvable 20 20).
Proof. vm_compute. reflexivity. Qed.

Example spec_revise_example :
  revise xy X Y (mkState [(X, ["cat"; "dog"]); (Y, ["tree"; "oxen"])] [])
  = Ok (true, mkState [(X, ["dog"]); (Y, ["tree"; "oxen"])] []).
Proof. vm_compute. reflexivity. Qed.

(** An instance of C1 on the puzzle [crossing]. *)
Lemma solution_validity_witness :
  solve crossing 20 20 (init crossing)
  = Ok (Some crossing_answer, final crossing 20 20)
  /\
  ((forall v, In v (variables crossing) ->
              exists w, lookup v crossing_answer = Some w) /\
   consistent crossing crossing_answer = Ok true /\
   NoDup (values crossing_answer) /\
   (forall v w, In (v, w) crossing_answer -> String.length w = v_length v) /\
   (forall var n wv wn i j,
       In var (keys crossing_answer) -> In n (neighbors crossing var) ->
       lookup var crossing_answer = Some wv ->
       lookup n crossing_answer = Some wn ->
       overlaps crossing var n = Some (i, j) ->
       agree i j wv wn = true)).
Proof.
  split.
  - vm_compute. reflexivity.
  - apply (solution_validity crossing 20 20 crossing_answer
             (final crossing 20 20)).
    vm_compute. reflexivity.
Defined.

(** An instance of C2: [unsolvable] has no solution. *)
Lemma failure_correctness_witness :
  solve unsolvable 20 20 (init unsolvable)
  = Ok (None, final unsolvable 20 20)
  /\ (forall a, ~ solution unsolvable a).
Proof.
  split.
  - vm_compute. reflexivity.
  - apply (proj1 (failure_correctness unsolvable 20 20)
             (final unsolvable 20 20)).
    vm_compute. reflexivity.
Defined.

(** C3 as stated fails on [mismatch]: [ac3] returns False and [solve] still
    calls [backtrack]. *)
Lemma solve_searches_after_ac3_failure :
  enforce_node_consistency (init mismatch)
  = Ok (tt, node_consistent_state mismatch)
  /\
  ac3 mismatch 10 None (node_consistent_state mismatch)
  = Ok (false, propagated mismatch 10)
  /\
  solve mismatch 10 1 (init mismatch) = Ok (None, final mismatch 10 1)
  /\
  trace (final mismatch 10 1)
  = [Call_enforce_node_consistency; Call_ac3 None; Call_backtrack []].
Proof. repeat split; vm_compute; reflexivity. Qed.

(** An instance of the amended C3 on [mismatch]. *)
Lemma solve_sequence_witness :
  ac3 mismatch 10 None (node_consistent_state mismatch)
  = Ok (false, propagated mismatch 10)
  /\
  (solve mismatch 10 1 (init mismatch)
   = Ok (None, logged (Call_backtrack []) (propagated mismatch 10))
   /\ trace (propagated mismatch 10)
      = [Call_enforce_node_consistency; Call_ac3 None]).
Proof.
  split.
  - vm_compute. reflexivity.
  - apply (proj2 (solve_sequence mismatch 10 0)
             (node_consistent_state mismatch) (propagated mismatch 10)).
    + vm_compute. reflexivity.
    + vm_compute. reflexivity.
Defined.

(** C4 fails on [tie]: after propagation the three domains have the same
    size, [B] has two neighbors and [A] one, and [A] is selected. *)
Theorem select_ignores_degree :
  select_unassigned_variable tie [] (propagated tie 30)
  = Ok (A, propagated tie 30)
  /\
  map (dom_size (domains (propagated tie 30))) [A; B; C] = [2; 2; 2]
  /\
  map (fun v => List.length (neighbors tie v)) [A; B; C] = [1; 2; 1]
  /\
  well_formed tie.
Proof.
  split; [|split; [|split]]; try (vm_compute; reflexivity).
  apply well_formedb_sound. vm_compute. reflexivity.
Qed.

(** C5 fails on [isolated]: the only domain is empty after node consistency
    and [ac3] returns True. *)
Theorem ac3_success_with_empty_domain :
  enforce_node_consistency (init isolated)
  = Ok (tt, node_consistent_state isolated)
  /\
  ac3 isolated 10 None (node_consistent_state isolated)
  = Ok (true, propagated isolated 10)
  /\
  lookup A (domains (propagated isolated 10)) = Some []
  /\
  well_formed isolated.
Proof.
  split; [|split; [|split]]; try (vm_compute; reflexivity).
  apply well_formedb_sound. vm_compute. reflexivity.
Qed.

(** An instance of C6: the revision example of the spec. *)
Lemma revise_spec_witness :
  revise xy X Y (mkState [(X, ["cat"; "dog"]); (Y, ["tree"; "oxen"])] [])
  = Ok (negb (forallb (has_support 1 0 ["tree"; "oxen"]) ["cat"; "dog"]),
        mkState
          (dict_set X (filter (has_support 1 0 ["tree"; "oxen"]) ["cat"; "dog"])
             [(X, ["cat"; "dog"]); (Y, ["tree"; "oxen"])])
          []).
Proof.
  apply (proj1 (proj2 (revise_spec xy X Y
                         [(X, ["cat"; "dog"]); (Y, ["tree"; "oxen"])] []))).
  - reflexivity.
  - discriminate.
  - reflexivity.
  - reflexivity.
  - intros w [<-|[<-|[]]]; cbn; lia.
  - intros w [<-|[<-|[]]]; cbn; lia.
Defined.

(** An instance of C7 on [crossing]. *)
Lemma length_invariant_witness :
  exists s',
    enforce_node_consistency (init crossing) = Ok (tt, s') /\
    node_consistent (domains s').
Proof. exact (proj1 (length_invariant crossing) (init crossing)). Defined.

(** An instance of C8: a second run of [ac3] on [crossing]. *)
Lemma domain_monotonicity_witness :
  exists s',
    ac3 crossing 20 None (propagated crossing 20) = Ok (true, s') /\
    domains s' = domains (propagated crossing 20).
Proof.
  apply (proj2 (domain_monotonicity crossing 20)).
  - apply well_formedb_sound. vm_compute. reflexivity.
  - vm_compute. reflexivity.
  - apply node_consistentb_sound. vm_compute. reflexivity.
  - apply arc_consistentb_sound. vm_compute. reflexivity.
  - vm_compute. lia.
Defined.

(** An instance of C9 on [crossing]. *)
Lemma ac3_terminates_witness :
  exists r,
    r <> OutOfFuel /\
    forall fuel,
      ac3_bound crossing (ac3_queue crossing None (init crossing))
        (init crossing) <= fuel ->
      ac3 crossing fuel None (init crossing) = r.
Proof. exact (proj1 (ac3_terminates crossing None (init crossing))). Defined.

(** An instance of C10: the search on [crossing]. *)
Lemma search_preserves_domains_witness :
  domains (final crossing 20 20) = domains (propagated crossing 20).
Proof.
  apply (proj1 (search_preserves_domains crossing) 20 []
           (propagated crossing 20) (Some crossing_answer)).
  vm_compute. reflexivity.
Defined.

End Examples.

(** * Further properties: no exception on a well-formed puzzle *)

Lemma good_state_shrinks cw s s' :
  good_state cw s -> shrinks (domains s) (domains s') -> good_state cw s'.
Proof.
  intros [K N] Sh. split.
  - destruct Sh as [K' _]. congruence.
  - eapply shrinks_node_consistent; eauto.
Qed.

Lemma good_state_same_domains cw s s' :
  good_state cw s -> domains s' = domains s -> good_state cw s'.
Proof. intros [K N] E. split; rewrite E; auto. Qed.

Lemma good_state_init_enforce cw s1 :
  enforce_node_consistency (init cw) = Ok (tt, s1) -> good_state cw s1.
Proof.
  intros H. apply enforce_node_consistency_post in H.
  destruct H as [N [K _]]. split; auto. rewrite K. apply keys_init.
Qed.

Section Robust.
Variable cw : Crossword.
Hypothesis WF : well_formed cw.

Lemma good_lookup s x :
  good_state cw s -> In x (variables cw) ->
  exists d, lookup x (domains s) = Some d /\
            forall w, In w d -> String.length w = v_length x.
Proof.
  intros [K N] Ix. rewrite <- K in Ix. apply lookup_keys in Ix.
  destruct (lookup x (domains s)) as [d|] eqn:L; [|congruence].
  exists d. split; auto. intros w Iw. exact (N x d w L Iw).
Qed.

Lemma revise_returns X Y s :
  good_state cw s -> In X (variables cw) -> In Y (neighbors cw X) ->
  exists b s', revise cw X Y s = Ok (b, s') /\ good_state cw s'.
Proof.
  intros G IX IY.
  destruct (neighbor_arc cw WF X Y IX IY) as (IY' & Nxy & _ & i & j & Ho & _).
  destruct (wf_range _ WF X Y i j IX IY' Ho) as [Ri Rj].
  destruct (good_lookup s X G IX) as (dx & Lx & Hx).
  destruct (good_lookup s Y G IY') as (dy & Ly & Hy).
  destruct s as [ds tr]. cbn [domains] in *.
  assert (H : revise cw X Y (mkState ds tr)
              = Ok (negb (forallb (has_support i j dy) dx),
                    mkState (dict_set X (filter (has_support i j dy) dx) ds) tr)).
  { apply revise_run; auto. intros w Iw. apply any_match_in_range.
    - rewrite (Hx w Iw). exact Ri.
    - intros wy Iwy. rewrite (Hy wy Iwy). exact Rj. }
  eexists. eexists. split; [exact H|].
  apply revise_star, star_prune_shrinks in H.
  eapply good_state_shrinks; eauto.
Qed.

Lemma arcs_of_enqueue queue X Y :
  arcs_of cw ((X, Y) :: queue) ->
  arcs_of cw (queue ++ map (fun Z => (Z, X)) (others cw X Y)).
Proof.
  intros Q x y H. apply in_app_or in H. destruct H as [H|H].
  - apply Q. now right.
  - destruct (Q X Y (or_introl eq_refl)) as [IX _].
    apply in_map_iff in H. destruct H as (Z & [= <- <-] & H).
    unfold others in H. apply filter_In in H. destruct H as [IZ _].
    destruct (neighbor_arc cw WF X Z IX IZ) as (IZ' & _ & IXz & _). auto.
Qed.

Lemma arcs_of_all_arcs : arcs_of cw (all_arcs cw (variables cw)).
Proof. intros x y H. apply all_arcs_In in H. tauto. Qed.

(** The loop of [ac3] raises nothing. *)
Lemma ac3_loop_no_raise fuel :
  forall queue s e,
    good_state cw s -> arcs_of cw queue ->
    ac3_loop cw fuel queue s <> Raise e.
Proof.
  induction fuel as [|fuel IH]; intros [|[X Y] queue] s e G Q;
    try discriminate.
  cbn [ac3_loop].
  destruct (Q X Y (or_introl eq_refl)) as [IX IY].
  destruct (revise_returns X Y s G IX IY) as (b & s1 & Hr & G1).
  unfold bind at 1. rewrite Hr. destruct b.
  - destruct (good_lookup s1 X G1 IX) as (dX & LX & _).
    unfold bind, get_domain. rewrite LX.
    destruct (List.length dX =? 0); [discriminate|].
    apply IH; auto. now apply arcs_of_enqueue.
  - apply IH; auto. intros x y H. apply Q. now right.
Qed.

Lemma ac3_returns fuel s :
  good_state cw s ->
  ac3_bound cw (all_arcs cw (variables cw)) s <= fuel ->
  exists b s', ac3 cw fuel None s = Ok (b, s') /\ good_state cw s'.
Proof.
  intros G L. pose proof G as [K _].
  rewrite ac3_unfold. cbn [ac3_queue]. rewrite K.
  set (s0 := logged (Call_ac3 None) s).
  assert (G0 : good_state cw s0) by (eapply good_state_same_domains; eauto).
  destruct (ac3_loop cw fuel (all_arcs cw (variables cw)) s0)
    as [[b s']|e|] eqn:H.
  - exists b, s'. split; auto.
    apply ac3_loop_star, star_prune_shrinks in H.
    eapply good_state_shrinks; eauto.
  - exfalso. revert H. apply ac3_loop_no_raise; auto. apply arcs_of_all_arcs.
  - exfalso. revert H. apply ac3_loop_enough. exact L.
Qed.
End Robust.

(** * Further properties: value ordering *)

Lemma mapM_run {A B} (f : A -> M B) (g : A -> B) s l :
  (forall x, In x l -> f x s = Ok (g x, s)) ->
  mapM f l s = Ok (map g l, s).
Proof.
  induction l as [|x l IH]; intros D; cbn [mapM map]; auto.
  unfold bind at 1. rewrite D by now left.
  unfold bind at 1. rewrite IH by (intros; apply D; now right).
  reflexivity.
Qed.

Lemma count_mismatches_run w x_over y_over dn :
  x_over < String.length w ->
  (forall nw, In nw dn -> y_over < String.length nw) ->
  forall e,
    count_mismatches w x_over y_over dn e
    = Ok (e + mismatches x_over y_over w dn).
Proof.
  intros Hx. unfold mismatches.
  induction dn as [|nw dn IH]; intros Hy e; cbn [count_mismatches].
  - cbn. now rewrite Nat.add_0_r.
  - unfold index. destruct (get_lt_Some x_over w Hx) as [cx Ex].
    destruct (get_lt_Some y_over nw (Hy nw (or_introl eq_refl))) as [cy Ey].
    rewrite Ex, Ey. cbn [rbind]. rewrite IH by (intros; apply Hy; now right).
    cbn [filter]. unfold agree at 2. rewrite Ex, Ey.
    destruct (Ascii.eqb cx cy); cbn [negb List.length]; f_equal; lia.
Qed.

Section OrderRun.
Variable cw : Crossword.
Hypothesis WF : well_formed cw.

Lemma eliminations_of_run var w s ns :
  good_state cw s -> In var (variables cw) ->
  String.length w = v_length var ->
  incl ns (neighbors cw var) ->
  forall e,
    eliminations_of cw var w ns e s
    = Ok (e + list_sum
                (map (fun n =>
                        match overlaps cw var n, lookup n (domains s) with
                        | Some (x_over, y_over), Some dn =>
                            mismatches x_over y_over w dn
                        | _, _ => 0
                        end) ns),
          s).
Proof.
  intros G Iv Lw. induction ns as [|n ns IH]; intros Hn e;
    cbn [eliminations_of map list_sum].
  - unfold ret. now rewrite Nat.add_0_r.
  - assert (In' : In n (neighbors cw var)) by (apply Hn; now left).
    assert (Hn' : incl ns (neighbors cw var))
      by (intros z Hz; apply Hn; now right).
    destruct (neighbor_arc cw WF var n Iv In') as (Inv & _ & _ & i & j & Ho & _).
    rewrite Ho.
    destruct (wf_range _ WF var n i j Iv Inv Ho) as [Ri Rj].
    destruct (good_lookup cw s n G Inv) as (dn & Ln & Hdn).
    unfold bind at 1. unfold get_domain. rewrite Ln.
    unfold bind at 1. rewrite count_mismatches_run.
    + cbn [lift]. rewrite IH by auto. f_equal. f_equal.
      rewrite <- Nat.add_assoc. reflexivity.
    + rewrite Lw. exact Ri.
    + intros nw Inw. rewrite (Hdn nw Inw). exact Rj.
Qed.

Lemma order_domain_values_run var a s dv :
  good_state cw s -> In var (variables cw) ->
  lookup var (domains s) = Some dv ->
  order_domain_values cw var a s
  = Ok (sorted dv (map (eliminations cw (domains s) var a) dv), s).
Proof.
  intros G Iv Lv. unfold order_domain_values.
  unfold bind at 1. unfold get_domain at 1. rewrite Lv.
  unfold bind at 1.
  rewrite (mapM_run _ (eliminations cw (domains s) var a)).
  - unfold bind, get_domain. rewrite Lv. reflexivity.
  - intros w Iw. rewrite eliminations_of_run; auto.
    + destruct G as [_ N]. exact (N var dv w Lv Iw).
    + intros z Hz. apply filter_In in Hz. tauto.
Qed.
End OrderRun.

(** Insertion by key keeps a list sorted. *)
Lemma insert_by_key_sorted {A} (x : A * nat) (l : list (A * nat)) :
  StronglySorted (fun a b => snd a <= snd b) l ->
  StronglySorted (fun a b => snd a <= snd b) (insert_by_key x l).
Proof.
  induction 1 as [|y l S IH F]; cbn [insert_by_key].
  - constructor; constructor.
  - destruct (snd x <=? snd y) eqn:L.
    + apply Nat.leb_le in L. constructor; [constructor; auto|].
      constructor; auto. rewrite Forall_forall in *. intros z Iz.
      specialize (F z Iz). lia.
    + apply Nat.leb_gt in L. constructor; auto.
      rewrite Forall_forall in *. intros z Iz.
      apply (Permutation_in _ (insert_by_key_perm A x l)) in Iz.
      destruct Iz as [<-|Iz]; [lia|auto].
Qed.

Lemma sort_by_key_sorted {A} (l : list (A * nat)) :
  StronglySorted (fun a b => snd a <= snd b) (sort_by_key l).
Proof.
  induction l as [|x l IH]; cbn [sort_by_key]; [constructor|].
  now apply insert_by_key_sorted.
Qed.

Lemma sorted_by_key_sorted {A} (f : A -> nat) (l : list A) :
  StronglySorted (fun a b => f a <= f b) (sorted l (map f l)).
Proof.
  unfold sorted. rewrite combine_map.
  assert (P : forall p, In p (sort_by_key (map (fun a => (a, f a)) l)) ->
                        snd p = f (fst p)).
  { intros p Ip. apply (Permutation_in _ (sort_by_key_perm A _)) in Ip.
    apply in_map_iff in Ip. destruct Ip as (a & <- & _). reflexivity. }
  pose proof (sort_by_key_sorted (map (fun a => (a, f a)) l)) as S.
  induction S as [|p ps S IH F]; cbn [map]; constructor.
  - apply IH. intros q Iq. apply P. now right.
  - rewrite Forall_forall in *. intros b Ib. apply in_map_iff in Ib.
    destruct Ib as (q & <- & Iq). specialize (F q Iq).
    rewrite (P p (or_introl eq_refl)) in F.
    rewrite (P q (or_intror Iq)) in F. exact F.
Qed.

(** * Further properties: the checker and the search on a well-formed puzzle *)

Lemma keys_dict_set_In {V} (k : Var) (v : V) (d : dict V) x :
  In x (keys (dict_set k v d)) -> x = k \/ In x (keys d).
Proof.
  induction d as [|[k0 v0] d IH]; cbn.
  - intros [<-|[]]. now left.
  - destruct (Var_eqb k k0) eqn:E; cbn.
    + tauto.
    + intros [<-|I]; [right; now left|]. destruct (IH I); auto.
Qed.

Lemma NoDup_values_key (a : Assignment) x y w :
  NoDup (values a) -> In (x, w) a -> In (y, w) a -> x = y.
Proof.
  induction a as [|[v u] a IH]; cbn; [tauto|].
  intros ND Ix Iy. inversion ND as [|? ? N ND']; subst.
  assert (F : forall z, In (z, u) a -> False).
  { intros z Iz. apply N. apply in_map_iff. now exists (z, u). }
  destruct Ix as [Ex|Ix], Iy as [Ey|Iy].
  - congruence.
  - injection Ex as -> ->. exfalso. eauto.
  - injection Ey as -> ->. exfalso. eauto.
  - eauto.
Qed.

Section SearchRobust.
Variable cw : Crossword.
Hypothesis WF : well_formed cw.

Lemma no_conflict_total (a : Assignment) var ns :
  incl (keys a) (variables cw) ->
  (forall v w, In (v, w) a -> String.length w = v_length v) ->
  In var (keys a) ->
  exists b, no_conflict cw a var ns = Ok b.
Proof.
  intros Hk Hl Iv. induction ns as [|n ns IH]; cbn [no_conflict]; [eauto|].
  destruct (lookup n a) as [wn|] eqn:Ln; auto.
  destruct (overlaps cw var n) as [[i j]|] eqn:Ho; auto.
  apply lookup_keys in Iv as Lv.
  destruct (lookup var a) as [wv|] eqn:Lv'; [|congruence]. cbn [rbind].
  assert (In' : In n (keys a)) by (apply lookup_keys; congruence).
  destruct (wf_range _ WF var n i j (Hk _ Iv) (Hk _ In') Ho) as [Ri Rj].
  apply lookup_In in Lv', Ln.
  rewrite <- (Hl _ _ Lv') in Ri. rewrite <- (Hl _ _ Ln) in Rj.
  unfold index. destruct (get_lt_Some i wv Ri) as [cv ->].
  destruct (get_lt_Some j wn Rj) as [cn ->]. cbn [rbind].
  destruct (Ascii.eqb cv cn); eauto.
Qed.

(** On assignments of variables [consistent] raises nothing. *)
Lemma consistent_total (a : Assignment) :
  incl (keys a) (variables cw) -> exists b, consistent cw a = Ok b.
Proof.
  intros Hk. unfold consistent.
  destruct (negb _); [eauto|].
  match goal with
  | |- context [forallb ?f a] => destruct (forallb f a) eqn:E
  end; cbn [negb]; [|eauto].
  pose proof (proj1 (lengths_forallb a) E) as E'. clear E. rename E' into E.
  assert (G : forall vars, incl vars (keys a) ->
                           exists b, no_conflicts cw a vars = Ok b).
  { induction vars as [|v vars IH]; intros Hv; cbn [no_conflicts]; [eauto|].
    destruct (no_conflict_total a v (neighbors cw v) Hk E) as [b ->].
    { apply Hv. now left. }
    cbn [rbind]. destruct b; [|eauto].
    apply IH. intros z Hz. apply Hv. now right. }
  apply G. apply incl_refl.
Qed.

Lemma try_values_no_raise rec var (a : Assignment) vals :
  In var (variables cw) -> incl (keys a) (variables cw) ->
  frame_rec rec ->
  (forall value s e, good_state cw s ->
                     rec (dict_set var value a) s <> Raise e) ->
  forall s e, good_state cw s -> try_values cw rec var a vals s <> Raise e.
Proof.
  intros Iv Hk F R. induction vals as [|value vals IH]; intros s e G;
    cbn [try_values]; [discriminate|].
  destruct (consistent_total (dict_set var value a)) as [ok Hc].
  { intros z Hz. apply keys_dict_set_In in Hz. destruct Hz as [->|Hz]; auto. }
  unfold bind at 1. rewrite Hc. cbn [lift]. destruct ok; [|now apply IH].
  unfold bind.
  destruct (rec (dict_set var value a) s) as [[[r|] s1]|e1|] eqn:Hr;
    try discriminate.
  - apply IH. apply F in Hr. eapply good_state_same_domains; eauto.
  - intros [= ->]. revert Hr. now apply R.
Qed.

(** The search raises nothing. *)
Lemma backtrack_no_raise fuel :
  forall a s e,
    good_state cw s -> incl (keys a) (variables cw) ->
    backtrack cw fuel a s <> Raise e.
Proof.
  induction fuel as [|fuel IH]; intros a s e G Hk; [discriminate|].
  cbn [backtrack]. unfold bind at 1. cbn [log].
  fold (logged (Call_backtrack a) s).
  set (s0 := logged (Call_backtrack a) s).
  assert (G0 : good_state cw s0) by (eapply good_state_same_domains; eauto).
  destruct (assignment_complete cw a) eqn:C; [discriminate|].
  destruct (select_total cw a s0 (proj1 G0) C) as [var Hv].
  unfold bind at 1. rewrite Hv.
  apply select_minimum_remaining_values in Hv as (Iv & _ & _).
  destruct (good_lookup cw s0 var G0 Iv) as (dv & Lv & _).
  unfold bind at 1. rewrite (order_domain_values_run cw WF var a s0 dv G0 Iv Lv).
  apply try_values_no_raise; auto.
  - apply backtrack_frame.
  - intros value t e' Gt. apply IH; auto.
    intros z Hz. apply keys_dict_set_In in Hz. destruct Hz as [->|Hz]; auto.
Qed.

(** With the fuel computed from the puzzle, [solve] returns a result. *)
Lemma solve_returns fuel_ac3 fuel_search :
  ac3_bound cw (all_arcs cw (variables cw)) (init cw) <= fuel_ac3 ->
  List.length (variables cw) < fuel_search ->
  exists r s', solve cw fuel_ac3 fuel_search (init cw) = Ok (r, s').
Proof.
  intros La Ls.
  destruct (enforce_node_consistency_run (init cw)) as (s1 & R & _ & K & _).
  pose proof (good_state_init_enforce cw s1 R) as G1.
  destruct (ac3_returns cw WF fuel_ac3 s1 G1) as (b & s2 & H2 & G2).
  { pose proof (enforce_node_consistency_size _ _ R).
    unfold ac3_bound in *. rewrite K. nia. }
  unfold solve. unfold bind at 1. rewrite R. unfold bind at 1. rewrite H2.
  destruct (backtrack cw fuel_search [] s2) as [[r s']|e|] eqn:H; [eauto| |].
  - exfalso. revert H. apply backtrack_no_raise; auto. intros z [].
  - exfalso. revert H. apply backtrack_enough.
    unfold unassigned_vars. cbn [mem lookup negb].
    pose proof (filter_length_le (fun _ : Var => true) (variables cw)). lia.
Qed.
End SearchRobust.

(** * Further properties: what the search returns *)

Section SearchResult.
Variable cw : Crossword.

Lemma try_values_Some rec var a vals :
  frame_rec rec ->
  forall s r s',
    try_values cw rec var a vals s = Ok (Some r, s') ->
    exists value s1,
      In value vals /\ domains s1 = domains s /\
      consistent cw (dict_set var value a) = Ok true /\
      rec (dict_set var value a) s1 = Ok (Some r, s').
Proof.
  intros F. induction vals as [|value vals IH]; intros s r s' H;
    [discriminate|].
  apply try_values_cons_Ok in H.
  destruct H as [[_ H]|[Hc (r1 & s1 & Hr & H)]].
  - destruct (IH _ _ _ H) as (v & t & I & D & R). exists v, t. split; auto.
    now right.
  - destruct r1 as [r1|].
    + destruct H as [-> ->]. exists value, s. repeat split; auto. now left.
    + destruct (IH _ _ _ H) as (v & t & I & D & C & R). exists v, t.
      repeat split; auto; [now right|]. apply F in Hr. congruence.
Qed.

Lemma backtrack_result fuel :
  forall a s r s',
    backtrack cw fuel a s = Ok (Some r, s') ->
    extends a r /\ chosen_from (domains s) a r.
Proof.
  induction fuel as [|fuel IH]; intros a s r s' H; [discriminate|].
  apply backtrack_S_Ok in H.
  destruct H as [(_ & [= ->] & _)|(_ & var & rest & vals & dv & Hv & Hd & P & H)].
  - split; [intros v w L; exact L|intros v w L; now left].
  - apply mrv_order_head in Hv. destruct Hv as (Iv & Hm & _).
    unfold mem in Hm. destruct (lookup var a) eqn:La; [discriminate|].
    apply (try_values_Some _ _ _ _ (backtrack_frame cw fuel)) in H.
    destruct H as (value & s1 & Ival & D & _ & H).
    apply IH in H. destruct H as [E C]. cbn [logged domains] in D.
    rewrite D in C. split.
    + intros v w L. apply E.
      destruct (Var_eq_dec v var) as [->|N]; [congruence|].
      now rewrite lookup_dict_set_neq.
    + intros v w L. destruct (C v w L) as [L'|[L' X]].
      * destruct (Var_eq_dec v var) as [->|N].
        -- rewrite lookup_dict_set_eq in L'. injection L' as <-.
           right. split; auto. exists dv. split; auto.
           eapply Permutation_in; eauto.
        -- rewrite lookup_dict_set_neq in L' by auto. now left.
      * destruct (Var_eq_dec v var) as [->|N].
        -- rewrite lookup_dict_set_eq in L'. discriminate.
        -- rewrite lookup_dict_set_neq in L' by auto. right. auto.
Qed.

Lemma try_values_more_fuel rec rec' var a vals :
  (forall value s, rec (dict_set var value a) s <> OutOfFuel ->
                   rec' (dict_set var value a) s = rec (dict_set var value a) s) ->
  forall s,
    try_values cw rec var a vals s <> OutOfFuel ->
    try_values cw rec' var a vals s = try_values cw rec var a vals s.
Proof.
  intros R. induction vals as [|value vals IH]; intros s H; auto.
  cbn [try_values] in *. unfold bind in *.
  destruct (lift (consistent cw (dict_set var value a)) s) as [[[|] s1]|e|];
    auto.
  destruct (rec (dict_set var value a) s1) as [[[r|] s2]|e|] eqn:Hr.
  - rewrite R by congruence. now rewrite Hr.
  - rewrite R by congruence. rewrite Hr. auto.
  - rewrite R by congruence. now rewrite Hr.
  - now contradiction H.
Qed.

Lemma backtrack_more_fuel fuel :
  forall a s fuel',
    backtrack cw fuel a s <> OutOfFuel -> fuel <= fuel' ->
    backtrack cw fuel' a s = backtrack cw fuel a s.
Proof.
  induction fuel as [|fuel IH]; intros a s fuel' H L.
  - now contradiction H.
  - destruct fuel' as [|fuel']; [lia|].
    cbn [backtrack] in *. unfold bind in *.
    destruct (log (Call_backtrack a) s) as [[[] s0]|e|]; auto.
    destruct (assignment_complete cw a); auto.
    destruct (select_unassigned_variable cw a s0) as [[var s1]|e|]; auto.
    destruct (order_domain_values cw var a s1) as [[vals s2]|e|]; auto.
    apply try_values_more_fuel; auto.
    intros value t Ht. apply IH; auto. lia.
Qed.
End SearchResult.

(** * Further properties: the first smallest domain *)

Lemma sort_by_key_first_min {A} (f : A -> nat) (l : list A) x k r :
  sort_by_key (map (fun a => (a, f a)) l) = (x, k) :: r ->
  exists l1 l2,
    l = l1 ++ x :: l2 /\
    (forall y, In y l1 -> f x < f y) /\
    (forall y, In y l2 -> f x <= f y).
Proof.
  revert x k r. induction l as [|a l IH]; intros x k r E; [discriminate|].
  cbn [map sort_by_key] in E.
  destruct (sort_by_key (map (fun a => (a, f a)) l)) as [|[x' k'] r'] eqn:S.
  - cbn in E. injection E as <- <- <-.
    assert (l = []) as ->.
    { pose proof (sort_by_key_perm A (map (fun a => (a, f a)) l)) as P.
      rewrite S in P. apply Permutation_nil in P.
      destruct l; [auto|discriminate]. }
    exists [], []. repeat split; auto; intros y [].
  - destruct (IH x' k' r' eq_refl) as (l1 & l2 & -> & H1 & H2).
    assert (K : k' = f x').
    { assert (I : In (x', k') (map (fun a => (a, f a)) (l1 ++ x' :: l2))).
      { eapply Permutation_in; [apply sort_by_key_perm|]. rewrite S.
        now left. }
      apply in_map_iff in I. destruct I as (z & [= -> <-] & _). reflexivity. }
    subst k'. cbn [insert_by_key snd] in E.
    destruct (f a <=? f x') eqn:L.
    + injection E as <- <- <-. apply Nat.leb_le in L.
      exists [], (l1 ++ x' :: l2). repeat split; auto; [intros y []|].
      intros y Iy. apply in_app_or in Iy. destruct Iy as [Iy|[<-|Iy]].
      * specialize (H1 y Iy). lia.
      * exact L.
      * specialize (H2 y Iy). lia.
    + injection E as <- <- <-. apply Nat.leb_gt in L.
      exists (a :: l1), l2. repeat split; auto.
      intros y [<-|Iy]; auto.
Qed.

Lemma sorted_first_min {A} (f : A -> nat) (l : list A) x r :
  sorted l (map f l) = x :: r ->
  exists l1 l2,
    l = l1 ++ x :: l2 /\
    (forall y, In y l1 -> f x < f y) /\
    (forall y, In y l2 -> f x <= f y).
Proof.
  unfold sorted. rewrite combine_map.
  destruct (sort_by_key (map (fun a => (a, f a)) l)) as [|[x' k] r'] eqn:S;
    [discriminate|].
  cbn [map fst]. intros [= <- <-].
  eapply sort_by_key_first_min; eauto.
Qed.

(** * Further properties: statements *)

(** X1: [enforce_node_consistency] never fails; it leaves under every key
    exactly the words of the old domain that have the length of the variable,
    in their order, so that after [__init__] the domain of a variable is the
    pool filtered by length; a second run changes no domain. *)
Theorem enforce_node_consistency_exact (cw : Crossword) (s : State) :
  exists s',
    enforce_node_consistency s = Ok (tt, s') /\
    keys (domains s') = keys (domains s) /\
    (forall z d, lookup z (domains s) = Some d ->
                 lookup z (domains s') = Some (filter (fits z) d)) /\
    (s = init cw ->
     forall v, In v (variables cw) ->
               lookup v (domains s') = Some (filter (fits v) (words cw))) /\
    (exists s'',
        enforce_node_consistency s' = Ok (tt, s'') /\
        forall z, lookup z (domains s'') = lookup z (domains s')).
Proof.
  destruct (enforce_node_consistency_run s) as (s' & R & _ & K & L).
  exists s'. split; [|split; [|split; [|split]]]; auto.
  - intros -> v Iv. apply L.
    rewrite <- (keys_init cw) in Iv. apply lookup_keys in Iv.
    destruct (lookup v (domains (init cw))) as [d|] eqn:E; [|congruence].
    apply lookup_const_map in E as ->. reflexivity.
  - destruct (enforce_node_consistency_run s') as (s'' & R' & _ & K' & L').
    exists s''. split; auto. intros z.
    destruct (lookup z (domains s')) as [d|] eqn:E.
    + rewrite (L' z d E).
      assert (I : In z (keys (domains s))).
      { rewrite <- K. apply lookup_keys. congruence. }
      apply lookup_keys in I.
      destruct (lookup z (domains s)) as [d0|] eqn:E0; [|congruence].
      rewrite (L z d0 E0) in E. injection E as <-.
      now rewrite filter_idem.
    + destruct (lookup z (domains s'')) as [d|] eqn:E''; auto.
      exfalso. assert (I : In z (keys (domains s''))).
      { apply lookup_keys. congruence. }
      rewrite K' in I. apply lookup_keys in I. auto.
Qed.

(** X2: the exceptions of [revise] on an arc with an overlap: KeyError when
    [x] has no domain; nothing is read of [y] when the domain of [x] is
    empty; KeyError when [y] has no domain and the domain of [x] has a word;
    IndexError when the first word of [x] is too short for the overlap and
    the domain of [y] has a word. *)
Theorem revise_exceptions (cw : Crossword) (x y : Var) (i j : nat)
    (s : State) :
  overlaps cw x y = Some (i, j) ->
  (lookup x (domains s) = None -> revise cw x y s = Raise KeyError)
  /\
  (lookup x (domains s) = Some [] -> revise cw x y s = Ok (false, s))
  /\
  (forall w dx, lookup x (domains s) = Some (w :: dx) ->
                lookup y (domains s) = None ->
                revise cw x y s = Raise KeyError)
  /\
  (forall w dx wy dy,
      lookup x (domains s) = Some (w :: dx) ->
      lookup y (domains s) = Some (wy :: dy) ->
      String.length w <= i ->
      revise cw x y s = Raise IndexError).
Proof.
  intros Ho. unfold revise. rewrite Ho. unfold bind, get_domain.
  split; [|split; [|split]].
  - intros ->. reflexivity.
  - intros ->. reflexivity.
  - intros w dx -> Ly. cbn [revise_loop]. unfold bind, get_domain.
    now rewrite Ly.
  - intros w dx wy dy -> Ly Hi. cbn [revise_loop]. unfold bind, get_domain.
    rewrite Ly. cbn [any_match]. unfold index.
    destruct (String.get i w) as [c|] eqn:E; [|reflexivity].
    apply get_Some_lt in E. lia.
Qed.

(** X3: on a well-formed puzzle whose store has the variables as keys and
    only words of the right length, [ac3] on the full worklist raises no
    exception: with the fuel of the bound it returns, and the store it
    leaves has the same two properties. *)
Theorem ac3_raises_nothing (cw : Crossword) (fuel : nat) (s : State) :
  well_formed cw ->
  good_state cw s ->
  ac3_bound cw (all_arcs cw (variables cw)) s <= fuel ->
  exists b s', ac3 cw fuel None s = Ok (b, s') /\ good_state cw s'.
Proof. intros WF G L. now apply ac3_returns. Qed.

(** X4: what the two results of [ac3] on the full worklist mean on a
    well-formed puzzle: after False some domain is empty; after True the
    store is arc consistent and no domain that had a word is empty. *)
Theorem ac3_outcome (cw : Crossword) (fuel : nat) (s : State) (b : bool)
    (s' : State) :
  well_formed cw ->
  keys (domains s) = variables cw ->
  ac3 cw fuel None s = Ok (b, s') ->
  (b = false -> exists X, lookup X (domains s') = Some [])
  /\
  (b = true ->
   arc_consistent cw (domains s') /\
   forall z d d', lookup z (domains s) = Some d -> d <> [] ->
                  lookup z (domains s') = Some d' -> d' <> []).
Proof.
  intros WF K H. split.
  - intros ->. rewrite ac3_unfold in H. eapply ac3_loop_false; eauto.
  - intros ->. split.
    + eapply ac3_success; eauto.
    + intros z d d' L N L'. rewrite ac3_unfold in H.
      eapply ac3_loop_nonempty; eauto. cbn [logged domains].
      intros d0 L0. rewrite L in L0. now injection L0 as <-.
Qed.

Lemma prune_substore cw T s s' :
  self_supported cw T -> keys T = keys (domains s) ->
  substore T (domains s) -> prune cw s s' ->
  substore T (domains s').
Proof.
  intros SS K Sub (x & y & i & j & Ho & wx & dx & dy & Lx & Ly & Hm & ->).
  intros z t Lz. cbn [domains].
  destruct (Sub z t Lz) as (d & Ld & Inc).
  destruct (Var_eq_dec z x) as [->|N].
  - rewrite lookup_dict_set_eq. eexists. split; [reflexivity|].
    rewrite Lx in Ld. injection Ld as <-.
    intros w Iw. apply filter_In. split; [now apply Inc|].
    apply negb_true_iff, String.eqb_neq. intros ->.
    assert (Iy : In y (keys T)).
    { rewrite K. apply lookup_keys. congruence. }
    destruct (SS x y i j t wx Ho Lz Iw Iy) as (ty & wy & Lty & Iwy & Ag).
    destruct (Sub y ty Lty) as (dy' & Ldy & Incy).
    rewrite Ly in Ldy. injection Ldy as <-.
    apply any_match_Ok in Hm. symmetry in Hm. unfold has_support in Hm.
    assert (E : existsb (agree i j wx) dy = true).
    { apply existsb_exists. exists wy. split; auto. }
    congruence.
  - rewrite lookup_dict_set_neq by auto. eauto.
Qed.

(** X5: [ac3], on any worklist, removes no word of a sub-store (the keys of
    the store, each with a part of its domain) that supports itself across
    every overlap; if the sub-store gives a word to every key, [ac3] does not
    return False. *)
Theorem ac3_keeps_supported_substore (cw : Crossword) (fuel : nat)
    (arcs : option (list arc)) (T : Domains) (s : State) (b : bool)
    (s' : State) :
  self_supported cw T ->
  keys T = keys (domains s) ->
  substore T (domains s) ->
  ac3 cw fuel arcs s = Ok (b, s') ->
  substore T (domains s')
  /\
  ((forall z t, lookup z T = Some t -> t <> []) -> b = true).
Proof.
  intros SS K Sub H.
  assert (Sub' : substore T (domains s')).
  { apply ac3_star in H.
    apply (star_preserves (prune cw)
             (fun t => substore T (domains t) /\ keys T = keys (domains t)))
      with (2 := H); [|split; auto].
    intros u v [Hu Ku] P. split.
    - eapply prune_substore; eauto.
    - apply prune_keys in P. congruence. }
  split; auto. intros Full. destruct b; auto. exfalso.
  pose proof (ac3_star _ _ _ _ _ _ H) as St.
  apply star_prune_keys in St. cbn [logged domains] in St.
  rewrite ac3_unfold in H. apply ac3_loop_false in H. destruct H as [X LX].
  assert (IX : In X (keys T)).
  { rewrite K, <- St. apply lookup_keys. congruence. }
  apply lookup_keys in IX.
  destruct (lookup X T) as [t|] eqn:Lt; [|congruence].
  pose proof (Full X t Lt) as Nt.
  destruct (Sub' X t Lt) as (d & Ld & Inc).
  rewrite LX in Ld. injection Ld as <-.
  destruct t as [|w t]; [congruence|]. exact (Inc w (or_introl eq_refl)).
Qed.

(** X6: on a well-formed puzzle and for a variable of it,
    [order_domain_values] raises nothing, leaves the state as it is and
    returns a permutation of the domain sorted by increasing number of
    eliminations: the words a value rules out in the domains of the
    neighbors that are not assigned. *)
Theorem order_domain_values_sorted (cw : Crossword) (var : Var)
    (a : Assignment) (s : State) :
  well_formed cw ->
  good_state cw s ->
  In var (variables cw) ->
  exists vals dv,
    order_domain_values cw var a s = Ok (vals, s) /\
    lookup var (domains s) = Some dv /\
    Permutation vals dv /\
    StronglySorted
      (fun w1 w2 => eliminations cw (domains s) var a w1
                    <= eliminations cw (domains s) var a w2)
      vals.
Proof.
  intros WF G Iv. destruct (good_lookup cw s var G Iv) as (dv & Lv & _).
  exists (sorted dv (map (eliminations cw (domains s) var a) dv)), dv.
  split; [|split; [|split]]; auto.
  - now apply order_domain_values_run.
  - apply sorted_perm. now rewrite length_map.
  - apply sorted_by_key_sorted.
Qed.

(** X7: [select_unassigned_variable] returns the first unassigned variable,
    in the iteration order of [crossword.variables], among those of smallest
    domain: the unassigned variables before it have strictly larger domains,
    those after it domains at least as large.  The degree plays no part. *)
Theorem select_first_smallest (cw : Crossword) (a : Assignment) (s : State)
    (v : Var) (s' : State) :
  select_unassigned_variable cw a s = Ok (v, s') ->
  s' = s /\
  exists before after,
    unassigned_vars cw a = before ++ v :: after /\
    (forall u, In u before ->
               dom_size (domains s) v < dom_size (domains s) u) /\
    (forall u, In u after ->
               dom_size (domains s) v <= dom_size (domains s) u).
Proof.
  intros H. apply select_Ok in H. destruct H as [-> (rest & H)].
  split; auto. unfold mrv_order in H.
  eapply sorted_first_min; eauto.
Qed.

(** X8: on a complete assignment [select_unassigned_variable] raises
    IndexError ([mnrm[0]] on an empty list), whatever the domains. *)
Theorem select_on_complete_assignment (cw : Crossword) (a : Assignment)
    (s : State) :
  assignment_complete cw a = true ->
  select_unassigned_variable cw a s = Raise IndexError.
Proof.
  intros C.
  assert (E : unassigned_vars cw a = []).
  { unfold unassigned_vars. unfold assignment_complete in C.
    rewrite forallb_forall in C.
    induction (variables cw) as [|v l IH]; cbn; auto.
    rewrite (C v (or_introl eq_refl)). cbn. apply IH.
    intros x Ix. apply C. now right. }
  rewrite select_unfold.
  - unfold mrv_order. now rewrite E.
  - rewrite E. intros x [].
Qed.

(** X9: on a well-formed puzzle and an assignment of variables of it,
    [consistent] raises nothing and returns True exactly when the words are
    pairwise distinct, have the lengths of their variables and agree at the
    overlaps of assigned neighbors. *)
Theorem consistent_decides (cw : Crossword) (a : Assignment) :
  well_formed cw ->
  incl (keys a) (variables cw) ->
  exists b, consistent cw a = Ok b /\ (b = true <-> valid cw a).
Proof.
  intros WF Hk. destruct (consistent_total cw WF a Hk) as [b Hb].
  exists b. split; auto. destruct b.
  - split; auto. intros _. now apply consistent_true.
  - split; [discriminate|]. intros V. now apply consistent_false in Hb.
Qed.

(** X10: an assignment returned by [backtrack] keeps every entry of the
    assignment it was called with, and every other key of it holds a word of
    the domain of that key. *)
Theorem backtrack_extends_argument (cw : Crossword) (fuel : nat)
    (a : Assignment) (s : State) (r : Assignment) (s' : State) :
  backtrack cw fuel a s = Ok (Some r, s') ->
  (forall v w, lookup v a = Some w -> lookup v r = Some w)
  /\
  (forall v w, lookup v r = Some w -> lookup v a = None ->
               exists d, lookup v (domains s) = Some d /\ In w d).
Proof.
  intros H. apply backtrack_result in H. destruct H as [E C]. split; auto.
  intros v w L N. destruct (C v w L) as [L'|[_ X]]; [congruence|auto].
Qed.

(** X11: the recursion of [backtrack] is at most as deep as the number of
    unassigned variables plus one, and the loop of [ac3] ends within its
    bound: with that much fuel [solve] does not run out, and more fuel gives
    the same outcome. *)
Theorem solve_terminates (cw : Crossword)
    (fuel_ac3 fuel_search fuel_ac3' fuel_search' : nat) :
  ac3_bound cw (all_arcs cw (variables cw)) (init cw) <= fuel_ac3 ->
  List.length (variables cw) < fuel_search ->
  fuel_ac3 <= fuel_ac3' ->
  fuel_search <= fuel_search' ->
  solve cw fuel_ac3 fuel_search (init cw) <> OutOfFuel /\
  solve cw fuel_ac3' fuel_search' (init cw)
  = solve cw fuel_ac3 fuel_search (init cw)
  /\
  (forall a s, List.length (unassigned_vars cw a) < fuel_search ->
               backtrack cw fuel_search a s <> OutOfFuel).
Proof.
  intros La Ls La' Ls'.
  pose proof (solve_enough cw fuel_ac3 fuel_search La Ls) as N.
  split; [exact N|split].
  - unfold solve in *. unfold bind in *.
    destruct (enforce_node_consistency (init cw)) as [[[] s1]|e|]; auto.
    assert (E : ac3 cw fuel_ac3' None s1 = ac3 cw fuel_ac3 None s1).
    { rewrite !ac3_unfold. apply ac3_loop_more_fuel; auto.
      rewrite <- ac3_unfold. intros F. rewrite F in N. now apply N. }
    rewrite E. destruct (ac3 cw fuel_ac3 None s1) as [[b s2]|e|]; auto.
    apply backtrack_more_fuel; auto.
  - intros a s L. now apply backtrack_enough.
Qed.

Lemma valid_complete_solution cw (a : Assignment) :
  well_formed cw -> no_self_overlap cw ->
  assignment_complete cw a = true ->
  valid cw a ->
  (forall v w, In v (variables cw) -> lookup v a = Some w -> In w (words cw)) ->
  solution cw a.
Proof.
  intros WF NS C [V1 V2 V3] Pool. constructor.
  - intros v Iv. unfold assignment_complete in C.
    rewrite forallb_forall in C. specialize (C v Iv). unfold mem in C.
    destruct (lookup v a) as [w|]; [eauto|discriminate].
  - exact Pool.
  - intros v w _ L. apply V2. now apply lookup_In.
  - intros x y w _ _ Lx Ly. apply lookup_In in Lx, Ly.
    eapply NoDup_values_key; eauto.
  - intros x y i j wx wy Ix Iy Ho Lx Ly.
    destruct (Var_eq_dec x y) as [->|N].
    { rewrite (NS y Iy) in Ho. discriminate. }
    apply (V3 x y wx wy i j); auto.
    + apply lookup_keys. congruence.
    + apply (wf_neighbors _ WF x y Ix). repeat split; auto.
      rewrite (wf_symmetric _ WF x y i j Ix Iy Ho). discriminate.
Qed.

(** X12: on a well-formed puzzle, with the fuel computed from it, [solve]
    raises nothing and decides the puzzle: it returns an assignment that is
    a solution (a word of the pool for every variable, of the right length,
    all distinct, agreeing at every overlap), or it returns None and the
    puzzle has no solution. *)
Theorem solve_decides (cw : Crossword) (fuel_ac3 fuel_search : nat) :
  well_formed cw ->
  no_self_overlap cw ->
  ac3_bound cw (all_arcs cw (variables cw)) (init cw) <= fuel_ac3 ->
  List.length (variables cw) < fuel_search ->
  (exists a s',
      solve cw fuel_ac3 fuel_search (init cw) = Ok (Some a, s') /\
      solution cw a)
  \/
  (exists s',
      solve cw fuel_ac3 fuel_search (init cw) = Ok (None, s') /\
      forall a, ~ solution cw a).
Proof.
  intros WF NS La Ls.
  destruct (solve_returns cw WF fuel_ac3 fuel_search La Ls) as (r & s' & H).
  pose proof H as H0. apply solve_Ok in H0.
  destruct H0 as (s1 & b & s2 & H1 & H2 & H3).
  destruct r as [a|].
  - left. exists a, s'. split; auto.
    pose proof (backtrack_sound cw fuel_search _ _ _ _ H3) as [C Hc].
    assert (Hc' : consistent cw a = Ok true) by (destruct Hc as [->|]; auto).
    apply backtrack_result in H3. destruct H3 as [_ Ch].
    apply valid_complete_solution; auto.
    + now apply consistent_true.
    + intros v w Iv L. destruct (Ch v w L) as [L'|[_ (d & Ld & Iw)]];
        [discriminate|].
      apply enforce_node_consistency_post in H1. destruct H1 as [_ Sh1].
      apply ac3_shrinks in H2.
      destruct (shrinks_lookup _ _ _ _ (shrinks_trans _ _ _ Sh1 H2) Ld)
        as (d0 & L0 & Inc).
      apply lookup_const_map in L0. subst d0. auto.
  - right. exists s'. split; auto. intros a Sol.
    pose proof (keeps_enforce cw a Sol _ _ (keeps_init cw a Sol) H1) as K1.
    apply enforce_node_consistency_post in H1 as P.
    destruct P as [_ [E1 _]]. rewrite keys_init in E1.
    apply ac3_star in H2.
    assert (K2 : keeps cw a (domains s2)).
    { apply (keeps_star_prune cw a Sol _ _) with (3 := H2); auto.
      cbn [logged domains]. rewrite E1. apply incl_refl. }
    eapply (backtrack_complete cw a Sol); eauto. apply part_of_nil.
Qed.

(** * Further properties: the letter grid *)

Lemma list_set_Ok {A} (l : list A) n a :
  n < List.length l ->
  exists l',
    list_set l n a = Ok l' /\
    List.length l' = List.length l /\
    forall m, nth_error l' m = if m =? n then Some a else nth_error l m.
Proof.
  revert n. induction l as [|x l IH]; intros [|n] H; cbn in H; try lia.
  - exists (a :: l). repeat split; auto. intros [|m]; reflexivity.
  - destruct (IH n) as (l' & E & L & N); [lia|].
    exists (x :: l'). cbn [list_set]. rewrite E. cbn. repeat split; auto.
    intros [|m]; cbn; auto.
Qed.

Lemma list_set_Raise {A} (l : list A) n a :
  List.length l <= n -> list_set l n a = Raise IndexError.
Proof.
  revert n. induction l as [|x l IH]; intros [|n] H; cbn in *; auto; try lia.
  rewrite IH by lia. reflexivity.
Qed.

Lemma shape_row h w g i row :
  shape h w g -> nth_error g i = Some row -> List.length row = w.
Proof. intros [_ R] H. apply R. eapply nth_error_In; eauto. Qed.

Lemma grid_set_Ok h w g i j c :
  shape h w g -> i < h -> j < w ->
  exists g',
    grid_set g i j c = Ok g' /\ shape h w g' /\
    forall i' j',
      grid_get g' i' j'
      = if (i' =? i) && (j' =? j) then Some (Some c) else grid_get g i' j'.
Proof.
  intros Sh Hi Hj. pose proof Sh as [Lg Rg]. unfold grid_set, list_index.
  destruct (nth_error g i) as [row|] eqn:E.
  2:{ apply nth_error_None in E. lia. }
  cbn [rbind]. pose proof (shape_row h w g i row Sh E) as Lr.
  destruct (list_set_Ok row j (Some c)) as (row' & E1 & L1 & N1); [lia|].
  rewrite E1. cbn [rbind].
  destruct (list_set_Ok g i row') as (g' & E2 & L2 & N2); [lia|].
  rewrite E2. exists g'. split; auto. split.
  - split; [lia|]. intros r Ir. apply In_nth_error in Ir.
    destruct Ir as [m Hm]. rewrite N2 in Hm.
    destruct (m =? i); [injection Hm as <-; lia|].
    apply Rg. eapply nth_error_In; eauto.
  - intros i' j'. unfold grid_get. rewrite N2.
    destruct (i' =? i) eqn:Ei; cbn [andb].
    + apply Nat.eqb_eq in Ei. subst i'. rewrite N1, E.
      destruct (j' =? j); reflexivity.
    + reflexivity.
Qed.

Lemma grid_set_Raise h w g i j c :
  shape h w g -> h <= i \/ w <= j -> grid_set g i j c = Raise IndexError.
Proof.
  intros Sh H. pose proof Sh as [Lg _]. unfold grid_set, list_index.
  destruct (nth_error g i) as [row|] eqn:E; [|reflexivity].
  cbn [rbind]. pose proof (shape_row h w g i row Sh E) as Lr.
  assert (Hi : i < h) by (rewrite <- Lg; apply nth_error_Some; congruence).
  rewrite list_set_Raise by lia. reflexivity.
Qed.

Lemma last_write_In ws i j c : last_write ws i j = Some c -> In (i, j, c) ws.
Proof.
  induction ws as [|[[i0 j0] c0] ws IH]; cbn [last_write]; [discriminate|].
  destruct (last_write ws i j) as [c'|].
  - intros [= ->]. right. auto.
  - destruct ((i0 =? i) && (j0 =? j)) eqn:E; [|discriminate].
    intros [= ->]. apply andb_true_iff in E. destruct E as [E1 E2].
    apply Nat.eqb_eq in E1, E2. subst. now left.
Qed.

Lemma last_write_None ws i j c : last_write ws i j = None -> ~ In (i, j, c) ws.
Proof.
  induction ws as [|[[i0 j0] c0] ws IH]; cbn [last_write]; [tauto|].
  destruct (last_write ws i j) as [c'|]; [discriminate|].
  destruct ((i0 =? i) && (j0 =? j)) eqn:E; [discriminate|].
  intros _ [[= -> -> ->]|I]; [|now apply IH].
  now rewrite !Nat.eqb_refl in E.
Qed.

(** A sequence of writes either goes through, and the grid then shows the
    last write on every cell, or raises IndexError on a write outside. *)
Lemma apply_writes_cases h w ws :
  forall g,
    shape h w g ->
    (exists g',
        apply_writes ws g = Ok g' /\ shape h w g' /\
        (forall i j c, In (i, j, c) ws -> i < h /\ j < w) /\
        forall i j,
          grid_get g' i j
          = match last_write ws i j with
            | Some c => Some (Some c)
            | None => grid_get g i j
            end)
    \/
    (apply_writes ws g = Raise IndexError /\
     exists i j c, In (i, j, c) ws /\ (h <= i \/ w <= j)).
Proof.
  induction ws as [|[[i0 j0] c0] ws IH]; intros g Sh.
  - left. exists g. split; [reflexivity|]. split; [exact Sh|].
    split; [intros ? ? ? []|reflexivity].
  - cbn [apply_writes].
    destruct (Nat.lt_ge_cases i0 h) as [Hi|Hi];
      [destruct (Nat.lt_ge_cases j0 w) as [Hj|Hj]|].
    + destruct (grid_set_Ok h w g i0 j0 c0 Sh Hi Hj) as (g1 & E & Sh1 & G1).
      rewrite E. cbn [rbind].
      destruct (IH g1 Sh1) as [(g' & E' & Sh' & B & G')|(E' & i & j & c & I & O)].
      * left. exists g'. split; [exact E'|]. split; [exact Sh'|]. split.
        -- intros i j c [[= -> -> ->]|H]; [auto|]. now apply (B i j c).
        -- intros i j. rewrite G'. cbn [last_write].
           destruct (last_write ws i j); auto. rewrite G1.
           rewrite (Nat.eqb_sym i i0), (Nat.eqb_sym j j0).
           destruct ((i0 =? i) && (j0 =? j)); reflexivity.
      * right. split; auto. exists i, j, c. split; auto. now right.
    + right. rewrite (grid_set_Raise h w) by auto. split; auto.
      exists i0, j0, c0. split; auto. now left.
    + right. rewrite (grid_set_Raise h w) by auto. split; auto.
      exists i0, j0, c0. split; auto. now left.
Qed.

Lemma apply_writes_app ws1 ws2 g :
  apply_writes (ws1 ++ ws2) g
  = rbind (apply_writes ws1 g) (apply_writes ws2).
Proof.
  revert g. induction ws1 as [|[[i j] c] ws1 IH]; intros g; cbn; auto.
  destruct (grid_set g i j c); cbn; auto.
Qed.

Lemma write_word_writes v w ks g :
  (forall k, In k ks -> k < String.length w) ->
  write_word v w ks g = apply_writes (writes_of v w ks) g.
Proof.
  revert g. induction ks as [|k ks IH]; intros g H; cbn [write_word]; auto.
  unfold writes_of. cbn [flat_map]. fold (writes_of v w ks).
  unfold index.
  destruct (get_lt_Some k w (H k (or_introl eq_refl))) as [c ->].
  cbn [rbind app apply_writes].
  destruct (grid_set g _ _ c); cbn [rbind]; auto.
  apply IH. intros; apply H; now right.
Qed.

Lemma write_items_writes a g : write_items a g = apply_writes (writes a) g.
Proof.
  revert g. induction a as [|[v w] a IH]; intros g; cbn [write_items]; auto.
  unfold writes. cbn [flat_map fst snd]. fold (writes a).
  rewrite apply_writes_app, write_word_writes.
  - destruct (apply_writes _ g); cbn [rbind]; auto.
  - intros k Hk. apply in_seq in Hk. lia.
Qed.

Lemma writes_covers (a : Assignment) i j c :
  In (i, j, c) (writes a) <-> exists v w, In (v, w) a /\ covers v w i j c.
Proof.
  unfold writes, covers. rewrite in_flat_map. split.
  - intros ([v w] & I & H). cbn [fst snd] in H. unfold writes_of in H.
    apply in_flat_map in H. destruct H as (k & _ & H).
    destruct (String.get k w) as [c'|] eqn:E; [|destruct H].
    destruct H as [[= <- <- <-]|[]]. exists v, w. split; auto.
    exists k. split; auto.
  - intros (v & w & I & k & Hc & Hg). exists (v, w). split; auto.
    cbn [fst snd]. unfold writes_of. apply in_flat_map. exists k. split.
    + apply in_seq. apply get_Some_lt in Hg. lia.
    + rewrite Hg, Hc. now left.
Qed.

Lemma in_bounds_writes h w (a : Assignment) :
  in_bounds h w a <->
  forall i j c, In (i, j, c) (writes a) -> i < h /\ j < w.
Proof.
  unfold in_bounds. split.
  - intros H i j c I. apply writes_covers in I.
    destruct I as (v & wd & I & k & Hc & Hg).
    apply get_Some_lt in Hg. specialize (H v wd k I Hg).
    rewrite Hc in H. exact H.
  - intros H v wd k I Hk. destruct (get_lt_Some k wd Hk) as [c Hg].
    apply (H (fst (cell_of v k)) (snd (cell_of v k)) c).
    apply writes_covers. exists v, wd. split; auto. exists k. split; auto.
Qed.

Lemma blank_grid_shape h w : shape h w (blank_grid h w).
Proof.
  unfold blank_grid. split; [apply repeat_length|].
  intros row I. apply repeat_spec in I. subst. apply repeat_length.
Qed.

Lemma blank_grid_get h w i j :
  i < h -> j < w -> grid_get (blank_grid h w) i j = Some None.
Proof.
  intros Hi Hj. unfold grid_get, blank_grid.
  rewrite (nth_error_repeat _ Hi). now apply nth_error_repeat.
Qed.

Lemma cell_of_inj v k k' : cell_of v k = cell_of v k' -> k = k'.
Proof.
  unfold cell_of. destruct (v_direction v); intros E; inversion E; lia.
Qed.

Lemma overlaps_are_cellsb_sound cw :
  overlaps_are_cellsb cw = true -> overlaps_are_cells cw.
Proof.
  unfold overlaps_are_cellsb, overlaps_are_cells.
  intros H x y k k' Ix Iy N Hk Hk' E.
  rewrite forallb_forall in H. specialize (H x Ix).
  rewrite forallb_forall in H. specialize (H y Iy).
  apply orb_true_iff in H. destruct H as [H|H].
  { apply Var_eqb_eq in H. contradiction. }
  rewrite forallb_forall in H.
  assert (Ik : In k (seq 0 (v_length x))) by (apply in_seq; lia).
  specialize (H k Ik). rewrite forallb_forall in H.
  assert (Ik' : In k' (seq 0 (v_length y))) by (apply in_seq; lia).
  specialize (H k' Ik'). rewrite E in H. unfold cell_eqb in H.
  rewrite !Nat.eqb_refl in H. cbn [andb implb] in H.
  destruct (overlaps cw x y) as [[p q]|]; [|discriminate].
  apply andb_true_iff in H. destruct H as [H1 H2].
  apply Nat.eqb_eq in H1, H2. now subst.
Qed.

(** What [letter_grid] returns, in terms of the writes it makes. *)
Lemma letter_grid_Ok h w (a : Assignment) g :
  letter_grid h w a = Ok g ->
  shape h w g /\ in_bounds h w a /\
  forall i j,
    grid_get g i j
    = match last_write (writes a) i j with
      | Some c => Some (Some c)
      | None => grid_get (blank_grid h w) i j
      end.
Proof.
  unfold letter_grid. rewrite write_items_writes. intros H.
  destruct (apply_writes_cases h w (writes a) _ (blank_grid_shape h w))
    as [(g' & E & Sh & B & G)|(E & _)]; [|congruence].
  rewrite E in H. injection H as <-. split; [exact Sh|]. split; [|exact G].
  now apply in_bounds_writes.
Qed.

(** * Further properties: statements on the letter grid *)

(** X13: [letter_grid] returns a grid of [height] rows of [width] cells when
    every letter of every entry of the assignment falls inside the grid, and
    raises IndexError when some letter falls outside; it fails in no other
    way. *)
Theorem letter_grid_bounds (height width : nat) (a : Assignment) :
  (in_bounds height width a ->
   exists g, letter_grid height width a = Ok g /\ shape height width g)
  /\
  (~ in_bounds height width a ->
   letter_grid height width a = Raise IndexError)
  /\
  (forall g, letter_grid height width a = Ok g -> in_bounds height width a).
Proof.
  split; [|split].
  - intros B. unfold letter_grid. rewrite write_items_writes.
    destruct (apply_writes_cases height width (writes a) _
                (blank_grid_shape height width))
      as [(g' & E & Sh & _)|(_ & i & j & c & I & O)].
    + exists g'. split; auto.
    + exfalso. apply (proj1 (in_bounds_writes height width a) B) in I. lia.
  - intros N. unfold letter_grid. rewrite write_items_writes.
    destruct (apply_writes_cases height width (writes a) _
                (blank_grid_shape height width))
      as [(g' & E & Sh & B & _)|(E & _)]; [|exact E].
    exfalso. apply N. now apply in_bounds_writes.
  - intros g H. now apply letter_grid_Ok in H.
Qed.

(** X14: in the grid [letter_grid] returns, a cell that no entry of the
    assignment covers holds None, and a covered cell holds the letter that
    one of the entries covering it puts there. *)
Theorem letter_grid_content (height width : nat) (a : Assignment) (g : Grid)
    (i j : nat) :
  letter_grid height width a = Ok g ->
  i < height -> j < width ->
  (grid_get g i j = Some None /\
   forall v w c, In (v, w) a -> ~ covers v w i j c)
  \/
  (exists v w c,
      In (v, w) a /\ covers v w i j c /\ grid_get g i j = Some (Some c)).
Proof.
  intros H Hi Hj. apply letter_grid_Ok in H. destruct H as (_ & _ & G).
  specialize (G i j). destruct (last_write (writes a) i j) as [c|] eqn:L.
  - right. apply last_write_In in L. apply writes_covers in L.
    destruct L as (v & w & I & C). exists v, w, c. auto.
  - left. rewrite blank_grid_get in G by auto. split; auto.
    intros v w c I C. apply (last_write_None _ _ _ c L).
    apply writes_covers. eauto.
Qed.

(** X15: on a puzzle whose overlap map tells the cells that two variables
    share, the grid of an assignment accepted by [consistent] spells every
    assigned word along the cells of its variable: no entry overwrites a
    letter of another with a different one. *)
Theorem letter_grid_spells_words (cw : Crossword) (height width : nat)
    (a : Assignment) (g : Grid) :
  well_formed cw ->
  overlaps_are_cells cw ->
  incl (keys a) (variables cw) ->
  NoDup (keys a) ->
  consistent cw a = Ok true ->
  letter_grid height width a = Ok g ->
  forall v w k c,
    In (v, w) a -> String.get k w = Some c ->
    grid_get g (fst (cell_of v k)) (snd (cell_of v k)) = Some (Some c).
Proof.
  intros WF OC Hk ND C H v w k c I Gk.
  apply consistent_true in C. destruct C as [_ V2 V3].
  apply letter_grid_Ok in H. destruct H as (_ & _ & G). rewrite G.
  assert (Iw : In (fst (cell_of v k), snd (cell_of v k), c) (writes a)).
  { apply writes_covers. exists v, w. split; auto. exists k. split; auto. }
  destruct (last_write (writes a) _ _) as [c'|] eqn:L.
  2:{ exfalso. exact (last_write_None _ _ _ c L Iw). }
  apply last_write_In in L. apply writes_covers in L.
  destruct L as (v' & w' & I' & k' & Hc & Gk').
  assert (Ec : cell_of v k = cell_of v' k').
  { rewrite Hc. now destruct (cell_of v k). }
  pose proof (In_lookup _ v w a ND I) as Lv.
  pose proof (In_lookup _ v' w' a ND I') as Lv'.
  assert (Kv : In v (keys a)) by (apply lookup_keys; congruence).
  assert (Kv' : In v' (keys a)) by (apply lookup_keys; congruence).
  destruct (Var_eq_dec v v') as [<-|N].
  - rewrite Lv in Lv'. injection Lv' as <-.
    apply cell_of_inj in Ec. subst k'. congruence.
  - pose proof (get_Some_lt _ _ _ Gk) as Bk.
    pose proof (get_Some_lt _ _ _ Gk') as Bk'.
    rewrite (V2 v w I) in Bk. rewrite (V2 v' w' I') in Bk'.
    pose proof (OC v v' k k' (Hk v Kv) (Hk v' Kv') N Bk Bk' Ec) as Ho.
    assert (Nb : In v' (neighbors cw v)).
    { apply (wf_neighbors _ WF v v' (Hk v Kv)). split; [auto|]. split; [auto|].
      rewrite (wf_symmetric _ WF v v' k k' (Hk v Kv) (Hk v' Kv') Ho).
      discriminate. }
    pose proof (V3 v v' w w' k k' Kv Nb Lv Lv' Ho) as Ag.
    unfold agree in Ag. rewrite Gk, Gk' in Ag.
    apply Ascii.eqb_eq in Ag. now subst.
Qed.

(** * Further properties on the worked puzzles *)

Module FurtherExamples.
Import Puzzles.
Open Scope string_scope.

Lemma crossing_wf : well_formed crossing.
Proof. apply well_formedb_sound. vm_compute. reflexivity. Qed.

Lemma crossing_node_consistent_good :
  good_state crossing (node_consistent_state crossing).
Proof.
  split.
  - vm_compute. reflexivity.
  - apply node_consistentb_sound. vm_compute. reflexivity.
Qed.

Lemma crossing_propagated_good : good_state crossing (propagated crossing 20).
Proof.
  split.
  - vm_compute. reflexivity.
  - apply node_consistentb_sound. vm_compute. reflexivity.
Qed.

Lemma crossing_answer_keys : incl (keys crossing_answer) (variables crossing).
Proof. intros v [<-|[<-|[]]]; cbn; auto. Qed.

(** An instance of X2 on the puzzle [xy]: no domain for [X], and a word of
    [X] that does not reach the overlap. *)
Lemma revise_exceptions_witness :
  revise xy X Y (mkState [] []) = Raise KeyError
  /\
  revise xy X Y (mkState [(X, ["a"]); (Y, ["tree"])] []) = Raise IndexError.
Proof.
  split.
  - apply (proj1 (revise_exceptions xy X Y 1 0 (mkState [] []) eq_refl)).
    reflexivity.
  - apply (proj2 (proj2 (proj2
             (revise_exceptions xy X Y 1 0
                (mkState [(X, ["a"]); (Y, ["tree"])] []) eq_refl)))
             "a" [] "tree" []).
    + reflexivity.
    + reflexivity.
    + cbn. lia.
Defined.

(** An instance of X3: [ac3] on [crossing] after node consistency. *)
Lemma ac3_raises_nothing_witness :
  exists b s',
    ac3 crossing 20 None (node_consistent_state crossing) = Ok (b, s') /\
    good_state crossing s'.
Proof.
  apply ac3_raises_nothing.
  - exact crossing_wf.
  - exact crossing_node_consistent_good.
  - vm_compute. lia.
Defined.

(** An instance of X4: [ac3] returns True on [crossing]. *)
Lemma ac3_outcome_witness :
  arc_consistent crossing (domains (propagated crossing 20)).
Proof.
  apply (proj2 (ac3_outcome crossing 20 (node_consistent_state crossing) true
                  (propagated crossing 20) crossing_wf eq_refl eq_refl)).
  reflexivity.
Defined.

(** An instance of X5: the words of the answer of [crossing] survive. *)
Lemma ac3_keeps_supported_substore_witness :
  substore crossing_answer_store (domains (propagated crossing 20)).
Proof.
  apply (ac3_keeps_supported_substore crossing 20 None crossing_answer_store
           (node_consistent_state crossing) true (propagated crossing 20)).
  - intros x y i j tx wx Ho Lx Iw Iy.
    unfold crossing_answer_store in Lx. cbn [lookup] in Lx.
    destruct (Var_eqb x A) eqn:EA.
    + apply Var_eqb_eq in EA. subst x. injection Lx as <-.
      destruct Iw as [<-|[]].
      destruct Iy as [<-|[<-|[]]]; [discriminate Ho|].
      injection Ho as <- <-. exists ["arc"], "arc".
      split; [reflexivity|]. split; [now left|reflexivity].
    + destruct (Var_eqb x B) eqn:EB; [|discriminate].
      apply Var_eqb_eq in EB. subst x. injection Lx as <-.
      destruct Iw as [<-|[]].
      destruct Iy as [<-|[<-|[]]]; [|discriminate Ho].
      injection Ho as <- <-. exists ["ace"], "ace".
      split; [reflexivity|]. split; [now left|reflexivity].
  - reflexivity.
  - intros z t Lz. cbn in Lz.
    destruct (Var_eqb z A) eqn:EA.
    + apply Var_eqb_eq in EA. subst z. injection Lz as <-.
      eexists. split; [vm_compute; reflexivity|].
      intros w [<-|[]]. cbn. auto.
    + destruct (Var_eqb z B) eqn:EB; [|discriminate].
      apply Var_eqb_eq in EB. subst z. injection Lz as <-.
      eexists. split; [vm_compute; reflexivity|].
      intros w [<-|[]]. cbn. auto.
  - vm_compute. reflexivity.
Defined.

(** An instance of X6: the values of [A] on [crossing] before any choice. *)
Lemma order_domain_values_sorted_witness :
  exists vals dv,
    order_domain_values crossing A [] (propagated crossing 20)
    = Ok (vals, propagated crossing 20) /\
    lookup A (domains (propagated crossing 20)) = Some dv /\
    Permutation vals dv /\
    StronglySorted
      (fun w1 w2 =>
         eliminations crossing (domains (propagated crossing 20)) A [] w1
         <= eliminations crossing (domains (propagated crossing 20)) A [] w2)
      vals.
Proof.
  apply order_domain_values_sorted.
  - exact crossing_wf.
  - exact crossing_propagated_good.
  - now left.
Defined.

(** An instance of X7: the first choice on [tie]. *)
Lemma select_first_smallest_witness :
  propagated tie 30 = propagated tie 30 /\
  exists before after,
    unassigned_vars tie [] = (before ++ A :: after)%list /\
    (forall u, In u before ->
               dom_size (domains (propagated tie 30)) A
               < dom_size (domains (propagated tie 30)) u) /\
    (forall u, In u after ->
               dom_size (domains (propagated tie 30)) A
               <= dom_size (domains (propagated tie 30)) u).
Proof.
  apply (select_first_smallest tie [] (propagated tie 30) A
           (propagated tie 30)).
  vm_compute. reflexivity.
Defined.

(** An instance of X8: nothing is left to select once [crossing] is
    solved. *)
Lemma select_on_complete_assignment_witness :
  select_unassigned_variable crossing crossing_answer (propagated crossing 20)
  = Raise IndexError.
Proof.
  apply select_on_complete_assignment. vm_compute. reflexivity.
Defined.

(** An instance of X9: the answer of [crossing]. *)
Lemma consistent_decides_witness :
  exists b,
    consistent crossing crossing_answer = Ok b /\
    (b = true <-> valid crossing crossing_answer).
Proof.
  apply consistent_decides.
  - exact crossing_wf.
  - exact crossing_answer_keys.
Defined.

(** An instance of X10: the search on [crossing] from the choice of "ace"
    for [A]. *)
Lemma backtrack_extends_argument_witness :
  (forall v w, lookup v [(A, "ace")] = Some w ->
               lookup v crossing_answer = Some w)
  /\
  (forall v w, lookup v crossing_answer = Some w ->
               lookup v [(A, "ace")] = None ->
               exists d, lookup v (domains (propagated crossing 20)) = Some d
                         /\ In w d).
Proof.
  apply (backtrack_extends_argument crossing 20 [(A, "ace")]
           (propagated crossing 20) crossing_answer
           (logged (Call_backtrack [(A, "ace"); (B, "arc")])
              (logged (Call_backtrack [(A, "ace")])
                 (propagated crossing 20)))).
  vm_compute. reflexivity.
Defined.

(** An instance of X11 on [crossing]. *)
Lemma solve_terminates_witness :
  solve crossing 20 20 (init crossing) <> OutOfFuel /\
  solve crossing 30 40 (init crossing) = solve crossing 20 20 (init crossing)
  /\
  (forall a s, List.length (unassigned_vars crossing a) < 20 ->
               backtrack crossing 20 a s <> OutOfFuel).
Proof.
  apply (solve_terminates crossing 20 20 30 40).
  - vm_compute. lia.
  - vm_compute. lia.
  - lia.
  - lia.
Defined.

(** An instance of X12 on [crossing]. *)
Lemma solve_decides_witness :
  (exists a s',
      solve crossing 20 20 (init crossing) = Ok (Some a, s') /\
      solution crossing a)
  \/
  (exists s',
      solve crossing 20 20 (init crossing) = Ok (None, s') /\
      forall a, ~ solution crossing a).
Proof.
  apply solve_decides.
  - exact crossing_wf.
  - intros x [<-|[<-|[]]]; reflexivity.
  - vm_compute. lia.
  - vm_compute. lia.
Defined.

(** An instance of X14: the first cell of the grid of the answer of
    [crossing]. *)
Lemma letter_grid_content_witness :
  (grid_get crossing_grid 0 0 = Some None /\
   forall v w c, In (v, w) crossing_answer -> ~ covers v w 0 0 c)
  \/
  (exists v w c,
      In (v, w) crossing_answer /\ covers v w 0 0 c /\
      grid_get crossing_grid 0 0 = Some (Some c)).
Proof.
  apply (letter_grid_content 3 3 crossing_answer crossing_grid 0 0).
  - vm_compute. reflexivity.
  - lia.
  - lia.
Defined.

(** An instance of X15: the grid of the answer of [crossing] shows the
    second letter of "arc" on the second cell of [B]. *)
Lemma letter_grid_spells_words_witness :
  grid_get crossing_grid (fst (cell_of B 1)) (snd (cell_of B 1))
  = Some (Some "r"%char).
Proof.
  apply (letter_grid_spells_words crossing 3 3 crossing_answer crossing_grid)
    with (w := "arc") (k := 1).
  - exact crossing_wf.
  - apply overlaps_are_cellsb_sound. vm_compute. reflexivity.
  - exact crossing_answer_keys.
  - apply nodupb_NoDup. vm_compute. reflexivity.
  - vm_compute. reflexivity.
  - vm_compute. reflexivity.
  - right. now left.
  - reflexivity.
Defined.

End FurtherExamples.
